(** * Profile alignment and iterative refinement (align.py)

    A shallow embedding of the scoring functions, the profile-to-profile
    Needleman-Wunsch aligner and the simulated-annealing refinement loop of
    [align.py], with the properties of the specification stated over it.

    Conventions of the embedding:
    - a symbol is one character, ['-'] is the gap marker; a sequence is a
      list of symbols and a profile (alignment) a list of sequences;
    - Python integers are [Z]; Python floats are IEEE binary64 numbers,
      i.e. Rocq's primitive [float];
    - a raised exception (IndexError, KeyError of the substitution matrix,
      ZeroDivisionError, ValueError) is the result [None];
    - the substitution matrix [blosum50], [math.exp] and the generator
      behind [random] are supplied from outside the two source files and
      are parameters of the development. *)

From Stdlib Require Import ZArith Ascii String Floats Lia.
From stdpp Require Import base option list.

Local Open Scope Z_scope.

(** ** Data model *)

Abbreviation symbol := ascii (only parsing).
Abbreviation sequence := (list ascii) (only parsing).
Abbreviation profile := (list (list ascii)) (only parsing).

Definition gap : symbol := "-"%char.

Definition is_gap (a : symbol) : bool := Ascii.eqb a gap.

(** [for x in l: acc = body(acc, x)] where the body may raise. *)
Fixpoint forM {A B} (l : list B) (acc : A) (body : A → B → option A) : option A :=
  match l with
  | [] => Some acc
  | b :: l => acc' ← body acc b; forM l acc' body
  end.

(** [range(n)] *)
Definition range (n : nat) : list nat := seq 0 n.

(** A rectangular matrix stored as a list of rows: [m[i][j]] and
    [m[i][j] = v], both raising IndexError out of range. *)
Abbreviation matrix A := (list (list A)) (only parsing).

Definition mget {A} (m : matrix A) (i j : nat) : option A :=
  row ← m !! i; row !! j.

Definition mset {A} (m : matrix A) (i j : nat) (v : A) : option (matrix A) :=
  row ← m !! i; _ ← row !! j; Some (<[i := <[j := v]> row]> m).

(** The entries of the traceback matrix: [''] (initial), ['D'], ['T'], ['L']. *)
Inductive move := Unset | D | T | L.

(** [col p i]: the symbols [p[k][i]] for [k] in [range(len(p))]. *)
Definition col (p : profile) (i : nat) : option (list symbol) :=
  mapM (λ row : sequence, row !! i) p.

(** [for k in range(len(p)): p[k].insert(0, v[k])] *)
Definition push (v : list symbol) (p : profile) : profile := zip_with cons v p.

Section Aligner.

(** [blosum50[a, b]]; [None] when a symbol is outside the matrix's alphabet. *)
Variable blosum50 : symbol → symbol → option Z.

(** [if gapPenalty < 0: gapPenalty *= -1] *)
Definition flip (gapPenalty : Z) : Z :=
  if gapPenalty <? 0 then gapPenalty * -1 else gapPenalty.

(** The body shared by the scoring loops: one pair of symbols. *)
Definition pairTerm (gapPenalty : Z) (a b : symbol) (total : Z) : option Z :=
  if xorb (is_gap a) (is_gap b) then Some (total - gapPenalty)
  else if negb (is_gap a) && negb (is_gap b) then
    v ← blosum50 a b; Some (total + v)
  else Some total.

(** [scoreAlignment(alignment, gapPenalty)] *)
Definition scoreAlignment (alignment : profile) (gapPenalty : Z) : option Z :=
  let gapPenalty := flip gapPenalty in
  row0 ← alignment !! 0%nat;
  forM (range (length row0)) 0 (λ total i,
    forM (range (length alignment - 1)) total (λ total j,
      forM (seq (j + 1) (length alignment - (j + 1))) total (λ total k,
        rj ← alignment !! j; a ← rj !! i;
        rk ← alignment !! k; b ← rk !! i;
        pairTerm gapPenalty a b total))).

(** [scoreColumns(x, y, i, j, gapPenalty)] *)
Definition scoreColumns (x y : profile) (i j : nat) (gapPenalty : Z) : option Z :=
  let gapPenalty := flip gapPenalty in
  forM x 0 (λ total xk,
    forM y total (λ total yl,
      a ← xk !! i; b ← yl !! j;
      pairTerm gapPenalty a b total)).

(** The default value of [scoreColumns]' parameter [gapPenalty]. *)
Definition defaultGapPenalty : Z := 8.

(** The body of the double loop that fills [f] and [t]. *)
Definition cell (x y : profile) (d : Z) (ft : matrix Z * matrix move) (i j : nat)
  : option (matrix Z * matrix move) :=
  let '(f, t) := ft in
  if (i =? 0)%nat then
    f ← mset f i j (- Z.of_nat j * d * Z.of_nat (length x));
    t ← mset t i j L; Some (f, t)
  else if (j =? 0)%nat then
    f ← mset f i j (- Z.of_nat i * d * Z.of_nat (length y));
    t ← mset t i j T; Some (f, t)
  else
    fd ← mget f (i - 1) (j - 1);
    sc ← scoreColumns x y (i - 1) (j - 1) defaultGapPenalty;
    let diag := fd + sc in
    fu ← mget f (i - 1) j;
    let top := fu - d * Z.of_nat (length y) in
    fl ← mget f i (j - 1);
    let left := fl - d * Z.of_nat (length x) in
    if (diag >=? top) && (diag >=? left) then
      t ← mset t i j D; f ← mset f i j diag; Some (f, t)
    else if (top >=? diag) && (top >=? left) then
      t ← mset t i j T; f ← mset f i j top; Some (f, t)
    else
      t ← mset t i j L; f ← mset f i j left; Some (f, t).

(** The matrices [f] and [t] after the weights loop. *)
Definition fill (x y : profile) (d : Z) (lenX lenY : nat)
  : option (matrix Z * matrix move) :=
  let f := replicate (lenX + 1) (replicate (lenY + 1) 0) in
  let t := replicate (lenX + 1) (replicate (lenY + 1) Unset) in
  forM (range (lenX + 1)) (f, t) (λ ft i,
    forM (range (lenY + 1)) ft (λ ft j, cell x y d ft i j)).

(** The traceback loop [while i + j > 0]. Every iteration lowers [i + j],
    so [lenX + lenY] iterations are enough; [alignProfiles] passes that
    many. The matrix built by [fill] holds ['L'] in row 0 and ['T'] in
    column 0, so the loop never reads column [-1] of a profile; the
    embedding answers [None] on such a read. *)
Fixpoint traceback (n : nat) (x y : profile) (t : matrix move) (i j : nat)
    (xp yp : profile) : option (profile * profile) :=
  if (i + j =? 0)%nat then Some (xp, yp) else
  match n with
  | O => None
  | S n =>
    m ← mget t i j;
    match m with
    | D =>
      _ ← guard (1 ≤ i ∧ 1 ≤ j)%nat;
      cx ← col x (i - 1); cy ← col y (j - 1);
      traceback n x y t (i - 1) (j - 1) (push cx xp) (push cy yp)
    | T =>
      _ ← guard (1 ≤ i)%nat;
      cx ← col x (i - 1);
      traceback n x y t (i - 1) j (push cx xp) (push (replicate (length y) gap) yp)
    | _ =>
      _ ← guard (1 ≤ j)%nat;
      cy ← col y (j - 1);
      traceback n x y t i (j - 1) (push (replicate (length x) gap) xp) (push cy yp)
    end
  end.

(** [alignProfiles(x, y, d)] *)
Definition alignProfiles (x y : profile) (d : Z) : option (Z * profile * profile) :=
  x0 ← x !! 0%nat; y0 ← y !! 0%nat;
  let lenX := length x0 in
  let lenY := length y0 in
  '(f, t) ← fill x y d lenX lenY;
  let xp := replicate (length x) [] in
  let yp := replicate (length y) [] in
  '(xp, yp) ← traceback (lenX + lenY) x y t lenX lenY xp yp;
  s ← mget f lenX lenY;
  Some (s, xp, yp).

End Aligner.

(** ** The recurrence of the weights loop as a function

    [dp i j] is the pair [(t[i][j], f[i][j])] that the weights loop stores,
    given the cross scores [sc i' j'] of the columns, the gap penalty [d]
    and the row counts [nx = len(x)], [ny = len(y)]. *)

Section Recurrence.

Variable sc : nat → nat → Z.
Variables d nx ny : Z.

Definition choose (diag top left : Z) : move * Z :=
  if (diag >=? top) && (diag >=? left) then (D, diag)
  else if (top >=? diag) && (top >=? left) then (T, top)
  else (L, left).

Fixpoint dp (i : nat) : nat → move * Z :=
  match i with
  | O => λ j, (L, - Z.of_nat j * d * nx)
  | S i' =>
    fix row (j : nat) : move * Z :=
      match j with
      | O => (T, - Z.of_nat (S i') * d * ny)
      | S j' =>
        choose ((dp i' j').2 + sc i' j') ((dp i' (S j')).2 - d * ny)
               ((row j').2 - d * nx)
      end
  end.

End Recurrence.

(** The cross score of column [i] of [x] and column [j] of [y] as the
    weights loop asks for it, and the closed form of the two matrices. *)
Definition crossScore (blosum50 : symbol → symbol → option Z) (x y : profile)
    (i j : nat) : Z :=
  default 0 (scoreColumns blosum50 x y i j defaultGapPenalty).

Definition weights (blosum50 : symbol → symbol → option Z) (x y : profile) (d : Z)
    (i j : nat) : move * Z :=
  dp (crossScore blosum50 x y) d (Z.of_nat (length x)) (Z.of_nat (length y)) i j.

Arguments dp : simpl never.
Arguments weights : simpl never.

(** The invariant of the weights loop: the cells before [(i, j)] in
    row-major order hold their final values, and all cells of the grid exist. *)
Definition filled (blosum50 : symbol → symbol → option Z) (x y : profile) (d : Z)
    (lenX lenY i j : nat) (ft : matrix Z * matrix move) : Prop :=
  ∀ i' j', (i' ≤ lenX)%nat → (j' ≤ lenY)%nat →
    if decide (i' < i ∨ (i' = i ∧ j' < j))%nat
    then mget ft.1 i' j' = Some (weights blosum50 x y d i' j').2
         ∧ mget ft.2 i' j' = Some (weights blosum50 x y d i' j').1
    else is_Some (mget ft.1 i' j') ∧ is_Some (mget ft.2 i' j').

(** The value one pair of symbols adds to a total, and the sum of pairs
    of two columns, for a substitution matrix that knows the symbols. *)
Definition pairValue (blosum50 : symbol → symbol → option Z) (gapPenalty : Z)
    (a b : symbol) : Z :=
  if xorb (is_gap a) (is_gap b) then - gapPenalty
  else if negb (is_gap a) && negb (is_gap b) then default 0 (blosum50 a b)
  else 0.

Definition sumZ {A} (f : A → Z) (l : list A) : Z := foldr (λ a acc, f a + acc) 0 l.

Definition crossSum (blosum50 : symbol → symbol → option Z) (gapPenalty : Z)
    (cx cy : list symbol) : Z :=
  sumZ (λ a, sumZ (λ b, pairValue blosum50 gapPenalty a b) cy) cx.

(** ** Vocabulary of the specification *)

(** The column count of a profile: the length of its first row. *)
Definition width (p : profile) : nat := length (default [] (p !! 0%nat)).

(** A profile is well formed when it has a row and all rows have one length. *)
Definition wellFormed (p : profile) : Prop :=
  p ≠ [] ∧ Forall (λ row, length row = width p) p.

(** The substitution matrix knows every pair of symbols of [x] and [y]. *)
Definition covers (blosum50 : symbol → symbol → option Z) (x y : profile) : Prop :=
  Forall (λ a, Forall (λ b,
    is_gap a = false → is_gap b = false → is_Some (blosum50 a b)) (concat y))
    (concat x).

(** [gapped row out]: [out] is [row] with gap symbols inserted. *)
Inductive gapped : sequence → sequence → Prop :=
  | gapped_nil : gapped [] []
  | gapped_keep a row out : gapped row out → gapped (a :: row) (a :: out)
  | gapped_gap row out : gapped row out → gapped row (gap :: out).

(** Column [c] of the profile holds a symbol that is not a gap. *)
Definition symbolAt (p : profile) (c : nat) : Prop :=
  Exists (λ row, ∃ a, row !! c = Some a ∧ is_gap a = false) p.

(** No column of the profile consists of gaps only. *)
Definition noGapColumn (p : profile) : Prop :=
  ∀ c, (c < width p)%nat → symbolAt p c.

(** The invariant of the traceback loop behind [noGapColumn]: the rows
    built so far have length [w] and each of their columns holds a symbol. *)
Definition columnsOk (x y xp yp : profile) (w : nat) : Prop :=
  length xp = length x ∧ length yp = length y ∧
  Forall (λ row, length row = w) (xp ++ yp) ∧
  ∀ c, (c < w)%nat → symbolAt (xp ++ yp) c.

(** The substitution matrix is symmetric. *)
Definition symmetric (blosum50 : symbol → symbol → option Z) : Prop :=
  ∀ a b, blosum50 a b = blosum50 b a.

(** The branch recorded for the same cell when the profiles are swapped. *)
Definition mirror (m : move) : move :=
  match m with D => D | T => L | L => T | Unset => Unset end.

(** No cell of the weights loop has its top and left candidates equal and
    above the diagonal one. *)
Definition tieFree (blosum50 : symbol → symbol → option Z) (x y : profile) (d : Z)
    : Prop :=
  ∀ i j, (i < width x)%nat → (j < width y)%nat →
    let diag := (weights blosum50 x y d i j).2 + crossScore blosum50 x y i j in
    let top := (weights blosum50 x y d i (S j)).2 - d * Z.of_nat (length y) in
    let left := (weights blosum50 x y d (S i) j).2 - d * Z.of_nat (length x) in
    top = left → top ≤ diag.

(** All rows of the profile have one length. *)
Definition rectangular (p : profile) : Prop :=
  ∃ w, Forall (λ row, length row = w) p.

(** Every row of the profile holds a gap in column [i]. *)
Definition gapAt (p : profile) (i : nat) : Prop :=
  Forall (λ row : sequence, ∃ a, row !! i = Some a ∧ is_gap a = true) p.

(** The indexes are strictly decreasing. *)
Fixpoint descending (l : list nat) : Prop :=
  match l with
  | [] => True
  | i :: l => Forall (λ j, (j < i)%nat) l ∧ descending l
  end.

(** ** Classical pairwise Needleman-Wunsch

    The textbook algorithm on two sequences with substitution score [s] and
    linear gap penalty [d]: [F(i,0) = -i d], [F(0,j) = -j d],
    [F(i,j) = max (F(i-1,j-1) + s(a_i,b_j)) (F(i-1,j) - d) (F(i,j-1) - d)],
    each cell keeping the alignment of the two prefixes it was derived
    from, a diagonal derivation preferred to a vertical one and a vertical
    to a horizontal one. The prefixes are held last symbol first. *)

Module NW.
Section NW.

Variable s : symbol → symbol → Z.
Variable d : Z.

Abbreviation result := (Z * (sequence * sequence))%type (only parsing).

(** Extend an alignment by one column [(a, b)] that scores [v]. *)
Definition extend (r : result) (v : Z) (a b : symbol) : result :=
  (r.1 + v, (r.2.1 ++ [a], r.2.2 ++ [b])).

Definition best (diag up left : result) : result :=
  if (diag.1 >=? up.1) && (diag.1 >=? left.1) then diag
  else if (up.1 >=? diag.1) && (up.1 >=? left.1) then up
  else left.

Fixpoint cellOf (ra : sequence) : sequence → result :=
  match ra with
  | [] => λ rb, (- Z.of_nat (length rb) * d, (replicate (length rb) gap, rev rb))
  | a :: ra' =>
    fix row (rb : sequence) : result :=
      match rb with
      | [] => (- Z.of_nat (length ra) * d, (rev ra, replicate (length ra) gap))
      | b :: rb' =>
        best (extend (cellOf ra' rb') (s a b) a b)
             (extend (cellOf ra' rb) (- d) a gap)
             (extend (row rb') (- d) gap b)
      end
  end.

Definition align (a b : sequence) : result := cellOf (rev a) (rev b).

End NW.
End NW.

(** ** Floating-point helpers *)

(** [float(z)] for a Python integer: rounded to the nearest double. *)
Definition Z2float (z : Z) : float := SF2Prim (binary_normalize prec emax z 0 false).

(** [math.ceil(v)]; raises on an infinity or a NaN. *)
Definition ceil (v : float) : option Z :=
  match Prim2SF v with
  | S754_zero _ => Some 0
  | S754_finite s m e =>
    if 0 <=? e then Some ((if s then -1 else 1) * (Z.pos m * 2 ^ e))
    else if s then Some (- (Z.pos m / 2 ^ (- e)))
    else Some (- ((- Z.pos m) / 2 ^ (- e)))
  | _ => None
  end.

(** ** The refinement driver *)

(** [[e for e in row if e != '-']] *)
Definition strip (row : sequence) : sequence :=
  List.filter (λ e, negb (is_gap e)) row.

(** [l.pop(index)]: the element and the list without it. *)
Definition pop {A} (l : list A) (index : nat) : option (A * list A) :=
  a ← l !! index; Some (a, delete index l).

(** The inner loop over [j] with its [break]: does column [i] hold a symbol? *)
Fixpoint columnHasSymbol (alignment : profile) (i : nat) : option bool :=
  match alignment with
  | [] => Some false
  | row :: alignment =>
    a ← row !! i;
    if negb (is_gap a) then Some true else columnHasSymbol alignment i
  end.

(** The indexes of the columns that hold gaps only, last column first. *)
Definition nullColumnIndexes (alignment : profile) : option (list nat) :=
  row0 ← alignment !! 0%nat;
  forM (range (length row0)) [] (λ (acc : list nat) (i : nat),
    hasSymbol ← columnHasSymbol alignment i;
    Some (if hasSymbol : bool then acc else i :: acc)).

(** [for index in nullColumnIndexes: for i in range(len(alignment)):
    alignment[i].pop(index)] *)
Definition dropColumns (indexes : list nat) (alignment : profile) : option profile :=
  forM indexes alignment (λ alignment index,
    mapM (λ row : sequence, '(_, row) ← pop row index; Some row) alignment).

(** [numRealignedSequences] *)
Definition numRealignedSequences (len : nat) (y : float) : option Z :=
  if PrimFloat.eqb y 0 then Some 1
  else
    k ← ceil (PrimFloat.mul (Z2float (Z.of_nat len)) y);
    Some (if k =? Z.of_nat len then k - 1 else k).

(** The loop that sizes the progress bar: [while t > 1: n += 1; t = t * m].
    It runs on the variable [t] itself, so its final value of [t] is the one
    the refinement loop starts from. The loop need not end (an infinite [t]
    never cools), hence the bound on its iterations; [None] stands for a
    bound that was too small. *)
Fixpoint coolingSteps (fuel : nat) (t m : float) (n : nat) : option (nat * float) :=
  if PrimFloat.ltb 1 t then
    match fuel with
    | O => None
    | S fuel => coolingSteps fuel (PrimFloat.mul t m) m (n + 1)
    end
  else Some (n, t).

(** The double written [0.95] in the source. *)
Definition defaultCooling : float := 0x1.e666666666666p-1%float.

Section Refinement.

Variable blosum50 : symbol → symbol → option Z.
(** [math.exp]; [None] when it raises OverflowError. *)
Variable exp : float → option float.
(** The state of the generator behind [random], with
    [random.randrange(n)] for [n > 0] and [random.random()]. *)
Variable rng : Type.
Variable randrange : rng → nat → nat * rng.
Variable random : rng → float * rng.

(** The variables of [iterate] that live across cycles. [prev] is
    [(prevProfile, prevScore)], unbound before the first cycle. *)
Record state := State {
  alignment : profile;
  counter : nat;
  temperature : float;
  prev : option (profile * Z);
  gen : rng
}.

(** The loop that removes [k] random rows and strips their gaps. [live]
    names, for every row still in the alignment, its position in the
    snapshot [prevProfile]: the snapshot is a copy of the outer list only
    and shares the row objects. *)
Definition removeRows (k : Z) (alignment : profile) (g : rng)
  : option (profile * list nat * list sequence * rng) :=
  forM (range (Z.to_nat k)) (alignment, range (length alignment), [], g)
    (λ '(alignment, live, sequences, g) _,
      _ ← guard (0 < length alignment)%nat;
      let '(index, g) := randrange g (length alignment) in
      '(row, alignment) ← pop alignment index;
      Some (alignment, delete index live, sequences ++ [strip row], g)).

(** Re-insertion of the removed sequences, one at a time. *)
Definition reinsert (d : Z) (sequences : list sequence) (alignment : profile)
  : option profile :=
  forM sequences alignment (λ alignment sequence,
    '(_, alignment, y) ← alignProfiles blosum50 alignment [sequence] d;
    y0 ← y !! 0%nat;
    Some (alignment ++ [y0])).

(** The rows of the snapshot after the null columns were deleted in
    place from the rows it shares with the working alignment. *)
Definition shared (snapshot : profile) (live : list nat) (rows : profile) : profile :=
  foldl (λ snap '(i, row), <[i := row]> snap) snapshot (zip live rows).

(** One pass of the body of the refinement loop (after the [break] test). *)
Definition cycle (k d : Z) (m : float) (st : state) : option state :=
  let prevProfile := alignment st in
  prevScore ← scoreAlignment blosum50 prevProfile d;
  '(rest, live, sequences, g) ← removeRows k (alignment st) (gen st);
  nulls ← nullColumnIndexes rest;
  rest ← dropColumns nulls rest;
  let prevProfile := shared prevProfile live rest in
  candidate ← reinsert d sequences rest;
  newScore ← scoreAlignment blosum50 candidate d;
  let counter := if newScore =? prevScore then (counter st + 1)%nat else 0%nat in
  let t := temperature st in
  '(prevProfile, prevScore, g) ←
    (if newScore <=? prevScore then
       _ ← guard (PrimFloat.eqb t 0 = false);
       p ← exp (PrimFloat.div (Z2float (newScore - prevScore)) t);
       let '(u, g) := random g in
       if PrimFloat.leb u p then Some (candidate, newScore, g)
       else Some (prevProfile, prevScore, g)
     else Some (candidate, newScore, g));
  Some (State candidate counter (PrimFloat.mul t m)
              (Some (prevProfile, prevScore)) g).

(** [for i in range(n): if counter >= 7: break; ...] *)
Fixpoint refine (n : nat) (k d : Z) (m : float) (st : state) : option state :=
  match n with
  | O => Some st
  | S n =>
    if (7 <=? counter st)%nat then Some st
    else st ← cycle k d m st; refine n k d m st
  end.

(** The state on entry to the refinement loop, with the number [n] of
    passes it is given. *)
Definition start (fuel : nat) (alignment : profile) (t m y : float) (g : rng)
  : option (nat * Z * float * state) :=
  let m := if PrimFloat.leb 1 m then defaultCooling else m in
  k ← numRealignedSequences (length alignment) y;
  '(n, t) ← coolingSteps fuel t m 0;
  Some (n, k, m, State alignment 0 t None g).

(** [iterate(alignment, t, m, y, d)] *)
Definition iterate (fuel : nat) (alignment0 : profile) (t m y : float) (d : Z) (g : rng)
  : option (Z * profile) :=
  '(n, k, m, st) ← start fuel alignment0 t m y g;
  st ← refine n k d m st;
  s ← scoreAlignment blosum50 (alignment st) d;
  Some (s, alignment st).

End Refinement.

Arguments State {rng}.
Arguments alignment {rng}.
Arguments counter {rng}.
Arguments temperature {rng}.
Arguments prev {rng}.
Arguments gen {rng}.

(** Every symbol of [p] that is not a gap is a symbol of [al0]. *)
Definition within (al0 p : profile) : Prop :=
  Forall (Forall (λ a, a ∈ concat al0)) (map strip p).

(** [random.randrange(n)] answers below [n]. *)
Definition inRange {rng} (randrange : rng → nat → nat * rng) : Prop :=
  ∀ g n, (0 < n)%nat → ((randrange g n).1 < n)%nat.

(** The temperature after [c] further cycles: [t = t * m], [c] times. *)
Definition cooled (t m : float) (c : nat) : float :=
  Nat.iter c (λ t, PrimFloat.mul t m) t.

(** ** Sums of pairs

    [pairsSum f l] adds [f a b] over the pairs of elements of [l], the
    earlier element first; [column al i] is column [i] of an alignment,
    read with [get], which answers a gap outside a row. *)

Fixpoint pairsSum {A} (f : A → A → Z) (l : list A) : Z :=
  match l with
  | [] => 0
  | a :: l => sumZ (f a) l + pairsSum f l
  end.

Definition get (row : sequence) (i : nat) : symbol := default gap (row !! i).

Definition column (al : profile) (i : nat) : list symbol :=
  map (λ row, get row i) al.

(** ** The weights matrix in the words of the specification

    [columnCrossScore(X, i, Y, j, gapPenalty)]: over every row [k] of [X]
    and every row [l] of [Y], subtract the gap penalty if exactly one of
    [X[k][i]] and [Y[l][j]] is a gap, add the substitution cost if neither
    is, add nothing if both are; the gap penalty is taken by its magnitude.
    [f]: [f[0][j] = -j * gapPenalty * rowCount(X)],
    [f[i][0] = -i * gapPenalty * rowCount(Y)], and for [i, j >= 1] the
    maximum of [f[i-1][j-1] + columnCrossScore(X, i-1, Y, j-1, gapPenalty)],
    [f[i-1][j] - gapPenalty * rowCount(Y)] and
    [f[i][j-1] - gapPenalty * rowCount(X)], with the gap penalty of the
    call in all three. *)

Module Spec.

Definition columnCrossScore (blosum50 : symbol → symbol → option Z)
    (X : profile) (i : nat) (Y : profile) (j : nat) (gapPenalty : Z) : Z :=
  crossSum blosum50 (Z.abs gapPenalty) (column X i) (column Y j).

Definition f (blosum50 : symbol → symbol → option Z) (X Y : profile)
    (gapPenalty : Z) (i j : nat) : Z :=
  (dp (λ i j, columnCrossScore blosum50 X i Y j gapPenalty) gapPenalty
      (Z.of_nat (length X)) (Z.of_nat (length Y)) i j).2.

End Spec.

(** ** The script: input, initial alignment, output *)

Definition newline : ascii := "010"%char.

(** [f.readline()]: the next line of the text with its newline, and the
    text after it; the empty string once the text is used up. *)
Fixpoint readline (text : list ascii) : list ascii * list ascii :=
  match text with
  | [] => ([], [])
  | c :: text =>
    if Ascii.eqb c newline then ([c], text)
    else let '(line, rest) := readline text in (c :: line, rest)
  end.

(** [list(line.replace('\n', ''))] *)
Definition chars (line : list ascii) : sequence :=
  List.filter (λ c, negb (Ascii.eqb c newline)) line.

(** [for x in range(numLines): a.append(list(f.readline().replace('\n', '')))],
    with the text that is left. *)
Fixpoint readRows (numLines : nat) (text : list ascii) (a : list sequence)
  : list sequence * list ascii :=
  match numLines with
  | O => (a, text)
  | S n => let '(line, text) := readline text in readRows n text (a ++ [chars line])
  end.

(** [readFile(path, a)] of [align.py] on the text of the file; [int] is
    Python's conversion of a string to an integer ([None]: ValueError). *)
Definition readFile (int : list ascii → option Z) (text : list ascii)
    (a : list sequence) : option (list sequence) :=
  let '(line, text) := readline text in
  numLines ← int line;
  Some (readRows (Z.to_nat numLines) text a).1.

(** [printAlignment(alignment)]: the text it prints. *)
Definition printAlignment (alignment : profile) : list ascii :=
  concat (map (λ row : sequence, row ++ [newline]) alignment).

Section Script.

Variable blosum50 : symbol → symbol → option Z.
Variable exp : float → option float.
Variable rng : Type.
Variable randrange : rng → nat → nat * rng.
Variable random : rng → float * rng.

(** [alignment = [sequences.pop(0)]], then one call of [alignProfiles]
    for each sequence that is left. *)
Definition initialAlignment (sequences : list sequence) : option profile :=
  '(first, sequences) ← pop sequences 0;
  forM (range (length sequences)) [first] (λ alignment i,
    sequence ← sequences !! i;
    '(_, alignment, x) ← alignProfiles blosum50 alignment [sequence] 8;
    x0 ← x !! 0%nat;
    Some (alignment ++ [x0])).

(** The script from the sequences it has read to the score and the
    alignment it prints; [hasAlignment] is the flag [-y]. *)
Definition main (fuel : nat) (hasAlignment : bool) (sequences : list sequence)
    (t m y : float) (g : rng) : option (Z * profile) :=
  alignment ← (if hasAlignment then Some sequences else initialAlignment sequences);
  iterate blosum50 exp rng randrange random fuel alignment t m y 8 g.

End Script.

(** ** The two-profile aligner of [nw.py]

    [nw.py] holds an earlier copy of the aligner: [score] for
    [scoreColumns] and [align] for [alignProfiles], with the same weights
    loop and the same traceback loop. *)

Module nw.
Section nw.

Variable blosum50 : symbol → symbol → option Z.

(** [score(x, y, i, j, d)]. The statement [gapPenalty *= -1] makes
    [gapPenalty] a local variable of the function, and it is not a
    parameter: the test [gapPenalty < 0] reads a local variable that has
    no value and raises UnboundLocalError. The loops subtract [d]. *)
Definition score (x y : profile) (i j : nat) (d : Z) : option Z :=
  let unbound : option Z := None in
  gapPenalty ← unbound;
  let gapPenalty := if gapPenalty <? 0 then gapPenalty * -1 else gapPenalty in
  forM x 0 (λ total xk,
    forM y total (λ total yl,
      a ← xk !! i; b ← yl !! j;
      pairTerm blosum50 d a b total)).

(** The body of the double loop that fills [f] and [t]. *)
Definition cell (x y : profile) (d : Z) (ft : matrix Z * matrix move) (i j : nat)
  : option (matrix Z * matrix move) :=
  let '(f, t) := ft in
  if (i =? 0)%nat then
    f ← mset f i j (- Z.of_nat j * d * Z.of_nat (length x));
    t ← mset t i j L; Some (f, t)
  else if (j =? 0)%nat then
    f ← mset f i j (- Z.of_nat i * d * Z.of_nat (length y));
    t ← mset t i j T; Some (f, t)
  else
    fd ← mget f (i - 1) (j - 1);
    sc ← score x y (i - 1) (j - 1) 8;
    let diag := fd + sc in
    fu ← mget f (i - 1) j;
    let top := fu - d * Z.of_nat (length y) in
    fl ← mget f i (j - 1);
    let left := fl - d * Z.of_nat (length x) in
    if (diag >=? top) && (diag >=? left) then
      t ← mset t i j D; f ← mset f i j diag; Some (f, t)
    else if (top >=? diag) && (top >=? left) then
      t ← mset t i j T; f ← mset f i j top; Some (f, t)
    else
      t ← mset t i j L; f ← mset f i j left; Some (f, t).

Definition fill (x y : profile) (d : Z) (lenX lenY : nat)
  : option (matrix Z * matrix move) :=
  let f := replicate (lenX + 1) (replicate (lenY + 1) 0) in
  let t := replicate (lenX + 1) (replicate (lenY + 1) Unset) in
  forM (range (lenX + 1)) (f, t) (λ ft i,
    forM (range (lenY + 1)) ft (λ ft j, cell x y d ft i j)).

(** [align(x, y, d)] *)
Definition align (x y : profile) (d : Z) : option (Z * profile * profile) :=
  x0 ← x !! 0%nat; y0 ← y !! 0%nat;
  let lenX := length x0 in
  let lenY := length y0 in
  '(f, t) ← fill x y d lenX lenY;
  let xp := replicate (length x) [] in
  let yp := replicate (length y) [] in
  '(xp, yp) ← traceback (lenX + lenY) x y t lenX lenY xp yp;
  s ← mget f lenX lenY;
  Some (s, xp, yp).

(** [readFile(path, a, b)]: two blocks, each a count and its lines. *)
Definition readFile (int : list ascii → option Z) (text : list ascii)
    (a b : list sequence) : option (list sequence * list sequence) :=
  let '(line, text) := readline text in
  numLines ← int line;
  let '(a, text) := readRows (Z.to_nat numLines) text a in
  let '(line, text) := readline text in
  numLines ← int line;
  let '(b, text) := readRows (Z.to_nat numLines) text b in
  Some (a, b).

End nw.
End nw.

(** [for b in l: total += h(b)] started at 0, where [h(b)] may raise. *)
Definition sumM {B} (h : B → option Z) (l : list B) : option Z :=
  forM l 0 (λ total b, v ← h b; Some (total + v)).

(** ** A fragment of BLOSUM50 for running examples *)

Module Example.

Definition idx (a : symbol) : option nat :=
  if Ascii.eqb a "A" then Some 0%nat
  else if Ascii.eqb a "E" then Some 1%nat
  else if Ascii.eqb a "G" then Some 2%nat
  else if Ascii.eqb a "H" then Some 3%nat
  else if Ascii.eqb a "P" then Some 4%nat
  else if Ascii.eqb a "W" then Some 5%nat
  else None.

(** Rows and columns A, E, G, H, P, W of BLOSUM50. *)
Definition table : matrix Z :=
  [ [ 5; -1;  0; -2; -1; -3];
    [-1;  6; -3;  0; -1; -3];
    [ 0; -3;  8; -2; -2; -3];
    [-2;  0; -2; 10; -2; -3];
    [-1; -1; -2; -2; 10; -4];
    [-3; -3; -3; -3; -4; 15] ].

Definition blosum50 (a b : symbol) : option Z :=
  i ← idx a; j ← idx b; mget table i j.

Definition seq_of (s : string) : sequence := list_ascii_of_string s.

(** A stand-in for [math.exp], good to a few units in the last place on
    the small arguments met in the examples: a Taylor polynomial of
    degree 60 for [|x|], inverted for a negative [x]. *)
Fixpoint horner (n : nat) (k : float) (x acc : float) : float :=
  match n with
  | O => acc
  | S n => horner n (k - 1) x (1 + x * acc / k)
  end%float.

Definition exp (x : float) : option float :=
  let e := horner 60 60 (PrimFloat.abs x) 1 in
  Some (if PrimFloat.ltb x 0 then (1 / e)%float else e).

(** A scripted generator: the draws of [randrange] and of [random], in
    the order the program asks for them. *)
Definition rng : Type := list nat * list float.

Definition randrange (g : rng) (n : nat) : nat * rng :=
  (hd 0%nat g.1 `mod` n, (tl g.1, g.2))%nat.

Definition random (g : rng) : float * rng :=
  (hd 0%float g.2, (g.1, tl g.2)).

Definition iterate := iterate blosum50 exp rng randrange random.

(** A stand-in for Python's [int] on a line that holds an unsigned
    decimal number and its newline. *)
Definition digit (c : ascii) : option Z :=
  let n := nat_of_ascii c in
  if (48 <=? n)%nat && (n <=? 57)%nat then Some (Z.of_nat (n - 48)) else None.

Definition int (line : list ascii) : option Z :=
  match chars line with
  | [] => None
  | digits => foldl (λ acc c, a ← acc; v ← digit c; Some (10 * a + v)) (Some 0) digits
  end.

Definition main := main blosum50 exp rng randrange random.

End Example.


(** * Properties *)

(** ** Loops and matrices *)

Lemma forM_app {A B} (l1 l2 : list B) (a : A) body :
  forM (l1 ++ l2) a body = a' ← forM l1 a body; forM l2 a' body.
Proof.
  revert a. induction l1 as [|b l1 IH]; intros a; simpl; [done|].
  destruct (body a b); simpl; auto.
Qed.

(** A loop over [seq s n] keeps an invariant indexed by the loop counter. *)
Lemma forM_seq_inv {A} (P : nat → A → Prop) body (s n : nat) (a : A) :
  P s a →
  (∀ i a, (s ≤ i < s + n)%nat → P i a → ∃ a', body a i = Some a' ∧ P (S i) a') →
  ∃ a', forM (seq s n) a body = Some a' ∧ P (s + n)%nat a'.
Proof.
  revert s a. induction n as [|n IH]; intros s a Ha Hstep; simpl.
  - exists a. by rewrite Nat.add_0_r.
  - destruct (Hstep s a) as (a' & -> & Ha'); [lia|done|]. simpl.
    destruct (IH (S s) a') as (a'' & -> & Ha''); [done| |].
    + intros i b ? ?. apply Hstep; [lia|done].
    + exists a''. split; [done|]. by rewrite <- Nat.add_succ_comm.
Qed.

(** The same for the results only: whatever the loop returns satisfies the
    invariant, if every pass that returns keeps it. *)
Lemma forM_inv {A B} (P : A → Prop) (body : A → B → option A) l a a' :
  P a → (∀ a b a', b ∈ l → P a → body a b = Some a' → P a') →
  forM l a body = Some a' → P a'.
Proof.
  revert a. induction l as [|b l IH]; intros a Ha Hstep; simpl.
  - by intros [= <-].
  - destruct (body a b) as [a1|] eqn:E; [simpl|done].
    apply IH; [|intros; eapply Hstep; eauto; by right].
    eapply Hstep; eauto. by left.
Qed.

Lemma mget_mset {A} (m m' : matrix A) i j v i' j' :
  mset m i j v = Some m' →
  mget m' i' j' = if decide (i' = i ∧ j' = j) then Some v else mget m i' j'.
Proof.
  unfold mset, mget. destruct (m !! i) as [row|] eqn:Hi; [simpl|done].
  destruct (row !! j) as [w|] eqn:Hj; [simpl|done]. intros [= <-].
  destruct (decide (i' = i)) as [->|Hne].
  - rewrite list_lookup_insert_eq by (by eapply lookup_lt_Some). simpl.
    destruct (decide (j' = j)) as [->|Hne].
    + rewrite list_lookup_insert_eq by (by eapply lookup_lt_Some).
      by rewrite decide_True.
    + rewrite list_lookup_insert_ne by done. rewrite Hi. simpl.
      rewrite decide_False; [done|by intros [? ?]].
  - rewrite list_lookup_insert_ne by done.
    rewrite decide_False; [done|by intros [? ?]].
Qed.

Lemma mset_is_Some {A} (m : matrix A) i j v :
  is_Some (mget m i j) → is_Some (mset m i j v).
Proof.
  unfold mset, mget. destruct (m !! i) as [row|]; simpl; [|by intros [? ?]].
  destruct (row !! j); simpl; [eauto|by intros [? ?]].
Qed.

Lemma mget_replicate {A} (v : A) r c i j :
  (i < r)%nat → (j < c)%nat → mget (replicate r (replicate c v)) i j = Some v.
Proof.
  intros Hi Hj. unfold mget. rewrite lookup_replicate_2 by done. simpl.
  by rewrite lookup_replicate_2.
Qed.

(** ** The weights loop computes the recurrence *)

Lemma dp_0 sc d nx ny j : dp sc d nx ny 0 j = (L, - Z.of_nat j * d * nx).
Proof. done. Qed.

Lemma dp_S_0 sc d nx ny i : dp sc d nx ny (S i) 0 = (T, - Z.of_nat (S i) * d * ny).
Proof. done. Qed.

Lemma dp_S_S sc d nx ny i j :
  dp sc d nx ny (S i) (S j) =
  choose ((dp sc d nx ny i j).2 + sc i j) ((dp sc d nx ny i (S j)).2 - d * ny)
         ((dp sc d nx ny (S i) j).2 - d * nx).
Proof. done. Qed.

Lemma weights_0 blosum50 x y d j :
  weights blosum50 x y d 0 j = (L, - Z.of_nat j * d * Z.of_nat (length x)).
Proof. done. Qed.

Lemma weights_S_0 blosum50 x y d i :
  weights blosum50 x y d (S i) 0 = (T, - Z.of_nat (S i) * d * Z.of_nat (length y)).
Proof. done. Qed.

Lemma weights_S_S blosum50 x y d i j sc :
  scoreColumns blosum50 x y i j defaultGapPenalty = Some sc →
  weights blosum50 x y d (S i) (S j) =
  choose ((weights blosum50 x y d i j).2 + sc)
         ((weights blosum50 x y d i (S j)).2 - d * Z.of_nat (length y))
         ((weights blosum50 x y d (S i) j).2 - d * Z.of_nat (length x)).
Proof. intros Hsc. unfold weights. rewrite dp_S_S. unfold crossScore. by rewrite Hsc. Qed.

Section Fill.

Variable blosum50 : symbol → symbol → option Z.
Variables x y : profile.
Variable d : Z.
Variables lenX lenY : nat.

Hypothesis scored : ∀ i j, (i < lenX)%nat → (j < lenY)%nat →
  is_Some (scoreColumns blosum50 x y i j defaultGapPenalty).

Local Abbreviation W := (weights blosum50 x y d).
Local Abbreviation filled := (filled blosum50 x y d lenX lenY).

Lemma filled_store f t f' t' i j :
  (i ≤ lenX)%nat → (j ≤ lenY)%nat → filled i j (f, t) →
  mset f i j (W i j).2 = Some f' → mset t i j (W i j).1 = Some t' →
  filled i (S j) (f', t').
Proof.
  intros Hi Hj Hinv Hf Ht i' j' Hi' Hj'. specialize (Hinv i' j' Hi' Hj').
  simpl in *. rewrite (mget_mset _ _ _ _ _ _ _ Hf), (mget_mset _ _ _ _ _ _ _ Ht).
  destruct (decide (i' = i ∧ j' = j)) as [[-> ->]|Hne].
  - rewrite decide_True by lia. done.
  - destruct (decide (i' < i ∨ i' = i ∧ j' < j)%nat).
    + rewrite decide_True by lia. done.
    + rewrite decide_False by lia. done.
Qed.

Lemma cell_choose f t i j diag top left :
  (if (diag >=? top) && (diag >=? left) then
     t ← mset t i j D; f ← mset f i j diag; Some (f, t)
   else if (top >=? diag) && (top >=? left) then
     t ← mset t i j T; f ← mset f i j top; Some (f, t)
   else
     t ← mset t i j L; f ← mset f i j left; Some (f, t)) =
  (t ← mset t i j (choose diag top left).1;
   f ← mset f i j (choose diag top left).2; Some (f, t)).
Proof.
  unfold choose. destruct ((diag >=? top) && (diag >=? left)); [done|].
  by destruct ((top >=? diag) && (top >=? left)).
Qed.

Lemma cell_filled ft i j :
  (i ≤ lenX)%nat → (j ≤ lenY)%nat → filled i j ft →
  ∃ ft', cell blosum50 x y d ft i j = Some ft' ∧ filled i (S j) ft'.
Proof.
  intros Hi Hj Hinv. destruct ft as [f t].
  pose proof (Hinv i j Hi Hj) as Hij. rewrite decide_False in Hij by lia.
  destruct Hij as [Hf Ht].
  assert (∀ v, is_Some (mset f i j v)) as Hsf by (intros; by apply mset_is_Some).
  assert (∀ v, is_Some (mset t i j v)) as Hst by (intros; by apply mset_is_Some).
  assert (∀ i' j', (i' ≤ lenX)%nat → (j' ≤ lenY)%nat →
    (i' < i ∨ i' = i ∧ j' < j)%nat → mget f i' j' = Some (W i' j').2) as Hget.
  { intros i' j' ? ? ?. specialize (Hinv i' j'). rewrite decide_True in Hinv by done.
    by apply Hinv. }
  unfold cell. destruct i as [|i]; simpl.
  - destruct (Hsf (W 0 j).2) as [f' Hf'], (Hst (W 0 j).1) as [t' Ht'].
    pose proof Hf' as Hf''. pose proof Ht' as Ht''.
    rewrite weights_0 in Hf'', Ht''. simpl in Hf'', Ht''.
    rewrite Hf''. simpl. rewrite Ht''. simpl.
    eexists; split; [done|]. by eapply filled_store.
  - destruct j as [|j]; simpl.
    + destruct (Hsf (W (S i) 0).2) as [f' Hf'], (Hst (W (S i) 0).1) as [t' Ht'].
      pose proof Hf' as Hf''. pose proof Ht' as Ht''.
      rewrite weights_S_0 in Hf'', Ht''. simpl in Hf'', Ht''.
      rewrite Hf''. simpl. rewrite Ht''. simpl.
      eexists; split; [done|]. by eapply filled_store.
    + rewrite !Nat.sub_0_r.
      rewrite (Hget i j), (Hget i (S j)), (Hget (S i) j) by lia. simpl.
      destruct (scored i j) as [sc Hsc]; [lia..|]. rewrite Hsc. simpl.
      rewrite cell_choose.
      destruct (Hsf (W (S i) (S j)).2) as [f' Hf'], (Hst (W (S i) (S j)).1) as [t' Ht'].
      pose proof Hf' as Hf''. pose proof Ht' as Ht''.
      rewrite (weights_S_S _ _ _ _ _ _ _ Hsc) in Hf'', Ht''.
      rewrite Ht''. simpl. rewrite Hf''. simpl.
      eexists; split; [done|]. by eapply filled_store.
Qed.

(** The matrices after the weights loop. *)
Lemma fill_weights :
  ∃ f t, fill blosum50 x y d lenX lenY = Some (f, t) ∧
    ∀ i j, (i ≤ lenX)%nat → (j ≤ lenY)%nat →
      mget f i j = Some (W i j).2 ∧ mget t i j = Some (W i j).1.
Proof.
  unfold fill, range.
  edestruct (forM_seq_inv (λ i ft, filled i 0 ft)) as ([f t] & Hrun & Hinv);
    [| |rewrite Hrun].
  - intros i j Hi Hj. rewrite decide_False by lia. simpl.
    rewrite !mget_replicate by lia. eauto.
  - intros i ft Hi Hinv.
    edestruct (forM_seq_inv (λ j ft, filled i j ft)) as (ft' & Hrun & Hinv');
      [exact Hinv| |rewrite Hrun].
    + intros j ft' Hj ?. apply cell_filled; [lia..|done].
    + exists ft'. split; [done|]. intros i' j' Hi' Hj'.
      specialize (Hinv' i' j' Hi' Hj'). simpl in Hinv'.
      destruct (decide (i' < i ∨ i' = i ∧ j' < lenY + 1)%nat).
      * rewrite decide_True by lia. done.
      * rewrite decide_False by lia. done.
  - exists f, t. split; [done|]. intros i j Hi Hj.
    specialize (Hinv i j Hi Hj). rewrite decide_True in Hinv by lia. done.
Qed.

End Fill.

(** ** Column scores *)

Lemma sumZ_app {A} (f : A → Z) l1 l2 : sumZ f (l1 ++ l2) = sumZ f l1 + sumZ f l2.
Proof. induction l1 as [|a l1 IH]; simpl; [done|]. rewrite IH. lia. Qed.

Lemma sumZ_ext {A} (f g : A → Z) l : (∀ a, a ∈ l → f a = g a) → sumZ f l = sumZ g l.
Proof.
  induction l as [|a l IH]; intros H; simpl; [done|].
  rewrite H by left. rewrite IH; [done|]. intros; apply H. by right.
Qed.

Lemma sumZ_plus {A} (f g : A → Z) l : sumZ (λ a, f a + g a) l = sumZ f l + sumZ g l.
Proof. induction l as [|a l IH]; simpl; [done|]. rewrite IH. lia. Qed.

Lemma sumZ_zero {A} (l : list A) : sumZ (λ _, 0) l = 0.
Proof. induction l as [|a l IH]; simpl; [done|]. by rewrite IH. Qed.

(** The two loops of a sum of pairs may be exchanged. *)
Lemma sumZ_swap {A B} (f : A → B → Z) la lb :
  sumZ (λ a, sumZ (λ b, f a b) lb) la = sumZ (λ b, sumZ (λ a, f a b) la) lb.
Proof.
  induction la as [|a la IH]; simpl.
  - by rewrite sumZ_zero.
  - rewrite IH. by rewrite sumZ_plus.
Qed.

Lemma col_Some p i c :
  col p i = Some c ↔ Forall2 (λ (row : sequence) a, row !! i = Some a) p c.
Proof. unfold col. apply mapM_Some. Qed.

Lemma col_is_Some p n i :
  Forall (λ row : sequence, length row = n) p → (i < n)%nat → is_Some (col p i).
Proof.
  intros Hp Hi. unfold col. apply mapM_is_Some.
  eapply Forall_impl; [exact Hp|]. intros row Hrow. simpl in *.
  apply lookup_lt_is_Some. lia.
Qed.

Lemma col_elem_of p i c a : col p i = Some c → a ∈ c → a ∈ concat p.
Proof.
  rewrite col_Some. induction 1 as [|row b p c Hb _ IH]; [by intros ?%elem_of_nil|].
  simpl. rewrite elem_of_cons, elem_of_app. intros [->|Ha]; [left|right; auto].
  by eapply list_elem_of_lookup_2.
Qed.

Section Columns.

Variable blosum50 : symbol → symbol → option Z.

Lemma pairTerm_value g a b total :
  (is_gap a = false → is_gap b = false → is_Some (blosum50 a b)) →
  pairTerm blosum50 g a b total = Some (total + pairValue blosum50 g a b).
Proof.
  intros Hab. unfold pairTerm, pairValue.
  destruct (is_gap a), (is_gap b); simpl; try done.
  - by rewrite Z.add_0_r.
  - destruct Hab as [v ->]; done.
Qed.

(** [scoreColumns] is the sum of pairs of the two columns. *)
Lemma scoreColumns_crossSum x y i j g cx cy :
  col x i = Some cx → col y j = Some cy →
  Forall (λ a, Forall (λ b,
    is_gap a = false → is_gap b = false → is_Some (blosum50 a b)) cy) cx →
  scoreColumns blosum50 x y i j g = Some (crossSum blosum50 (flip g) cx cy).
Proof.
  rewrite !col_Some. intros Hx Hy Hcov. unfold scoreColumns, crossSum.
  assert (∀ total, forM x total (λ total xk, forM y total (λ total yl,
      a ← xk !! i; b ← yl !! j; pairTerm blosum50 (flip g) a b total)) =
    Some (total + sumZ (λ a, sumZ (λ b, pairValue blosum50 (flip g) a b) cy) cx))
    as Hall; [|by rewrite Hall].
  induction Hx as [|xk a x cx Ha _ IH]; intros total; simpl.
  - f_equal. lia.
  - apply Forall_cons in Hcov as [Hcova Hcov].
    assert (∀ total, forM y total (λ total yl,
        a ← xk !! i; b ← yl !! j; pairTerm blosum50 (flip g) a b total) =
      Some (total + sumZ (λ b, pairValue blosum50 (flip g) a b) cy)) as ->.
    { clear IH Hcov. induction Hy as [|yl b y cy Hb _ IH]; intros tot; simpl.
      - f_equal. lia.
      - apply Forall_cons in Hcova as [Hab Hcova].
        rewrite Ha at 1. simpl. rewrite Hb. simpl. rewrite pairTerm_value by done. simpl.
        rewrite IH by done. f_equal. lia. }
    simpl. rewrite IH by done. f_equal. lia.
Qed.

End Columns.

(** ** The traceback loop *)

Lemma push_cons a v row p : push (a :: v) (row :: p) = (a :: row) :: push v p.
Proof. done. Qed.

Lemma length_push v p : length v = length p → length (push v p) = length p.
Proof.
  revert p. induction v as [|a v IH]; intros [|row p]; simpl; try done.
  intros [= H]. by rewrite IH.
Qed.

Lemma Forall_push c v p :
  Forall (λ row : sequence, length row = c) p →
  Forall (λ row : sequence, length row = S c) (push v p).
Proof.
  intros Hp. revert v. induction Hp as [|row p Hrow _ IH]; intros [|a v]; simpl;
    try by constructor.
  constructor; [simpl; by rewrite Hrow|apply IH].
Qed.

Lemma Forall2_push {A} (P : A → symbol → Prop) (Q R : A → sequence → Prop) l v p :
  Forall2 P l v → Forall2 Q l p →
  (∀ x a out, P x a → Q x out → R x (a :: out)) →
  Forall2 R l (push v p).
Proof.
  intros HP. revert p. induction HP as [|x a l v Hxa _ IH]; intros p HQ HR.
  - inversion HQ; subst. constructor.
  - inversion HQ as [|? out ? p' Hq HQ']; subst. rewrite push_cons.
    constructor; [by apply HR|by apply IH].
Qed.

Lemma Forall2_gaps {A} (l : list A) :
  Forall2 (λ _ a, a = gap) l (replicate (length l) gap).
Proof. induction l; simpl; by constructor. Qed.

Lemma gapped_drop_keep (row : sequence) i a out :
  (1 ≤ i)%nat → row !! (i - 1)%nat = Some a →
  gapped (drop i row) out → gapped (drop (i - 1) row) (a :: out).
Proof.
  intros Hi Ha Hg. rewrite (drop_S _ _ _ Ha).
  replace (S (i - 1)) with i by lia. by constructor.
Qed.

(** Whatever the traceback returns consists of the input rows with gaps
    inserted. *)
Lemma traceback_gapped n x y t i j xp yp xp' yp' :
  traceback n x y t i j xp yp = Some (xp', yp') →
  Forall2 (λ row out, gapped (drop i row) out) x xp →
  Forall2 (λ row out, gapped (drop j row) out) y yp →
  Forall2 gapped x xp' ∧ Forall2 gapped y yp'.
Proof.
  revert i j xp yp. induction n as [|n IH]; intros i j xp yp; simpl.
  - destruct (i + j =? 0)%nat eqn:E; [|done].
    apply Nat.eqb_eq in E. intros [= <- <-].
    assert (i = 0 ∧ j = 0)%nat as [-> ->] by lia. done.
  - destruct (i + j =? 0)%nat eqn:E.
    { apply Nat.eqb_eq in E. intros [= <- <-].
      assert (i = 0 ∧ j = 0)%nat as [-> ->] by lia. done. }
    intros Hrun Hx Hy.
    assert (Forall2 (λ (row : sequence) out, gapped (drop i row) (gap :: out)) x xp) as Hgx.
    { eapply Forall2_impl; [exact Hx|]. intros; by constructor. }
    assert (Forall2 (λ (row : sequence) out, gapped (drop j row) (gap :: out)) y yp) as Hgy.
    { eapply Forall2_impl; [exact Hy|]. intros; by constructor. }
    assert (∀ cx, (1 ≤ i)%nat → col x (i - 1) = Some cx →
      Forall2 (λ (row : sequence) out, gapped (drop (i - 1) row) out) x (push cx xp)) as Hkx.
    { intros cx Hi Hcx%col_Some. eapply Forall2_push; [exact Hcx|exact Hx|].
      intros row a out Ha Hg. by apply gapped_drop_keep. }
    assert (∀ cy, (1 ≤ j)%nat → col y (j - 1) = Some cy →
      Forall2 (λ (row : sequence) out, gapped (drop (j - 1) row) out) y (push cy yp)) as Hky.
    { intros cy Hj Hcy%col_Some. eapply Forall2_push; [exact Hcy|exact Hy|].
      intros row a out Ha Hg. by apply gapped_drop_keep. }
    assert (Forall2 (λ (row : sequence) out, gapped (drop i row) out) x
              (push (replicate (length x) gap) xp)) as Hpx.
    { eapply Forall2_push; [apply Forall2_gaps|exact Hx|].
      intros row a out -> Hg. by constructor. }
    assert (Forall2 (λ (row : sequence) out, gapped (drop j row) out) y
              (push (replicate (length y) gap) yp)) as Hpy.
    { eapply Forall2_push; [apply Forall2_gaps|exact Hy|].
      intros row a out -> Hg. by constructor. }
    destruct (mget t i j) as [[| | |]|]; simplify_option_eq;
      try (eapply IH; [eassumption|..]); eauto; naive_solver.
Qed.

Lemma length_col p i c : col p i = Some c → length c = length p.
Proof. intros H%col_Some. symmetry. by eapply Forall2_length. Qed.

Lemma col_symbolAt p i c :
  col p i = Some c → symbolAt p i → Exists (λ a, is_gap a = false) c.
Proof.
  rewrite col_Some. unfold symbolAt. induction 1 as [|row a p c Ha _ IH].
  - by intros ?%Exists_nil.
  - rewrite !Exists_cons. intros [(b & Hb & Hgap)|Hp]; [left|right; auto].
    congruence.
Qed.

Lemma Exists_push_0 v p :
  length v = length p → Exists (λ a, is_gap a = false) v →
  Exists (λ row : sequence, ∃ a, row !! 0%nat = Some a ∧ is_gap a = false) (push v p).
Proof.
  intros Hlen Hv. revert p Hlen.
  induction Hv as [a v Ha|a v _ IH]; intros [|row p]; simpl; try done.
  - intros _. left. eauto.
  - intros [= Hlen]. right. by apply IH.
Qed.

Lemma Exists_push_S v p c :
  length v = length p →
  Exists (λ row : sequence, ∃ a, row !! c = Some a ∧ is_gap a = false) p →
  Exists (λ row : sequence, ∃ a, row !! S c = Some a ∧ is_gap a = false) (push v p).
Proof.
  intros Hlen Hp. revert v Hlen.
  induction Hp as [row p Hrow|row p _ IH]; intros [|a v]; simpl; try done.
  - intros _. by left.
  - intros [= Hlen]. right. by apply IH.
Qed.

Lemma symbolAt_push_S v u p q c :
  length v = length p → length u = length q →
  symbolAt (p ++ q) c → symbolAt (push v p ++ push u q) (S c).
Proof.
  unfold symbolAt. rewrite !Exists_app. intros Hv Hu [Hp|Hq].
  - left. by apply Exists_push_S.
  - right. by apply Exists_push_S.
Qed.

Lemma length_gaps {A} (l : list A) : length (replicate (length l) gap) = length l.
Proof. apply length_replicate. Qed.

(** All rows the traceback returns have one length. *)
Lemma traceback_width n x y t i j xp yp xp' yp' w :
  traceback n x y t i j xp yp = Some (xp', yp') →
  Forall (λ row, length row = w) xp → Forall (λ row, length row = w) yp →
  ∃ w', Forall (λ row, length row = w') xp' ∧ Forall (λ row, length row = w') yp'.
Proof.
  revert i j xp yp w. induction n as [|n IH]; intros i j xp yp w; simpl.
  - destruct (i + j =? 0)%nat; [|done]. intros [= <- <-]; eauto.
  - destruct (i + j =? 0)%nat; [intros [= <- <-]; eauto|].
    intros Hrun Hx Hy.
    destruct (mget t i j) as [[| | |]|]; simplify_option_eq;
      (eapply IH; [eassumption|..]); by apply Forall_push.
Qed.

Lemma columnsOk_push x y xp yp w v u :
  columnsOk x y xp yp w → length v = length x → length u = length y →
  Exists (λ a, is_gap a = false) v ∨ Exists (λ a, is_gap a = false) u →
  columnsOk x y (push v xp) (push u yp) (S w).
Proof.
  intros (Hlx & Hly & Hw & Hsym) Hv Hu Hvu.
  apply Forall_app in Hw as [Hwx Hwy].
  split; [|split; [|split]].
  - rewrite length_push; congruence.
  - rewrite length_push; congruence.
  - apply Forall_app. split; by apply Forall_push.
  - intros [|c] Hc.
    + apply Exists_app. destruct Hvu as [H|H]; [left|right];
        (apply Exists_push_0; [congruence|done]).
    + apply symbolAt_push_S; [congruence..|]. apply Hsym. lia.
Qed.

(** The traceback adds no column of gaps only, as long as the columns it
    consumes hold a symbol each. *)
Lemma traceback_symbols n x y t i j xp yp xp' yp' w :
  traceback n x y t i j xp yp = Some (xp', yp') →
  (∀ c, (c < i)%nat → symbolAt x c) → (∀ c, (c < j)%nat → symbolAt y c) →
  columnsOk x y xp yp w → ∃ w', columnsOk x y xp' yp' w'.
Proof.
  revert i j xp yp w. induction n as [|n IH]; intros i j xp yp w; simpl.
  - destruct (i + j =? 0)%nat; [|done]. intros [= <- <-]; eauto.
  - destruct (i + j =? 0)%nat; [intros [= <- <-]; eauto|].
    intros Hrun Hsx Hsy Hok.
    assert (∀ cx, (1 ≤ i)%nat → col x (i - 1) = Some cx →
      length cx = length x ∧ Exists (λ a, is_gap a = false) cx) as Hcx.
    { intros cx Hi Hcx. split; [by eapply length_col|].
      eapply col_symbolAt; [done|]. apply Hsx. lia. }
    assert (∀ cy, (1 ≤ j)%nat → col y (j - 1) = Some cy →
      length cy = length y ∧ Exists (λ a, is_gap a = false) cy) as Hcy.
    { intros cy Hj Hcy. split; [by eapply length_col|].
      eapply col_symbolAt; [done|]. apply Hsy. lia. }
    destruct (mget t i j) as [[| | |]|]; simplify_option_eq.
    + destruct (Hcy _ ltac:(done) eq_refl).
      eapply IH; [eassumption| | |apply columnsOk_push; eauto using length_gaps];
        intros; (apply Hsx || apply Hsy); lia.
    + destruct (Hcx _ ltac:(lia) eq_refl), (Hcy _ ltac:(lia) eq_refl).
      eapply IH; [eassumption| | |apply columnsOk_push; eauto];
        intros; (apply Hsx || apply Hsy); lia.
    + destruct (Hcx _ ltac:(done) eq_refl).
      eapply IH; [eassumption| | |apply columnsOk_push; eauto using length_gaps];
        intros; (apply Hsx || apply Hsy); lia.
    + destruct (Hcy _ ltac:(done) eq_refl).
      eapply IH; [eassumption| | |apply columnsOk_push; eauto using length_gaps];
        intros; (apply Hsx || apply Hsy); lia.
Qed.

(** On the matrix of the weights loop the traceback ends within
    [i + j] iterations. *)
Lemma traceback_total blosum50 d n x y t lenX lenY i j xp yp :
  (∀ i j, (i ≤ lenX)%nat → (j ≤ lenY)%nat →
     mget t i j = Some (weights blosum50 x y d i j).1) →
  (∀ c, (c < lenX)%nat → is_Some (col x c)) →
  (∀ c, (c < lenY)%nat → is_Some (col y c)) →
  (i ≤ lenX)%nat → (j ≤ lenY)%nat → (i + j ≤ n)%nat →
  is_Some (traceback n x y t i j xp yp).
Proof.
  intros Ht Hx Hy. revert i j xp yp.
  induction n as [|n IH]; intros i j xp yp Hi Hj Hn; simpl.
  - replace (i + j =? 0)%nat with true by (symmetry; apply Nat.eqb_eq; lia). eauto.
  - destruct (i + j =? 0)%nat eqn:E; [eauto|]. apply Nat.eqb_neq in E.
    rewrite Ht by done. simpl.
    destruct i as [|i].
    + rewrite weights_0. simpl. rewrite option_guard_True by lia. simpl.
      destruct (Hy (j - 0 - 1)%nat) as [cy Hcy]; [lia|].
      replace (j - 1)%nat with (j - 0 - 1)%nat by lia. rewrite Hcy. simpl.
      apply IH; lia.
    + destruct (Hx i) as [cx Hcx]; [lia|].
      destruct j as [|j].
      * rewrite weights_S_0. simpl. rewrite Nat.sub_0_r, Hcx. simpl. apply IH; lia.
      * destruct (Hy j) as [cy Hcy]; [lia|].
        destruct (weights blosum50 x y d (S i) (S j)).1; simpl;
          rewrite ?option_guard_True by lia; simpl;
          rewrite ?Nat.sub_0_r, ?Hcx, ?Hcy; simpl; apply IH; lia.
Qed.

(** ** The aligner on well-formed profiles *)

Lemma wellFormed_first p : wellFormed p → ∃ row, p !! 0%nat = Some row ∧ width p = length row.
Proof.
  intros [Hne _]. destruct p as [|row p]; [done|]. exists row. done.
Qed.

Lemma covers_cols blosum50 x y i j cx cy :
  covers blosum50 x y → col x i = Some cx → col y j = Some cy →
  Forall (λ a, Forall (λ b,
    is_gap a = false → is_gap b = false → is_Some (blosum50 a b)) cy) cx.
Proof.
  unfold covers. rewrite !Forall_forall. intros Hcov Hcx Hcy a Ha.
  apply Forall_forall. intros b Hb.
  specialize (Hcov a (col_elem_of _ _ _ _ Hcx Ha)).
  rewrite Forall_forall in Hcov. apply Hcov. by eapply col_elem_of.
Qed.

Lemma scoreColumns_is_Some blosum50 x y i j g :
  wellFormed x → wellFormed y → covers blosum50 x y →
  (i < width x)%nat → (j < width y)%nat →
  is_Some (scoreColumns blosum50 x y i j g).
Proof.
  intros [_ Hx] [_ Hy] Hcov Hi Hj.
  destruct (col_is_Some _ _ _ Hx Hi) as [cx Hcx].
  destruct (col_is_Some _ _ _ Hy Hj) as [cy Hcy].
  erewrite scoreColumns_crossSum; eauto using covers_cols.
Qed.

(** What a run of [alignProfiles] on well-formed profiles consists of. *)
Lemma alignProfiles_run blosum50 x y d :
  wellFormed x → wellFormed y → covers blosum50 x y →
  ∃ f t xp yp,
    fill blosum50 x y d (width x) (width y) = Some (f, t) ∧
    (∀ i j, (i ≤ width x)%nat → (j ≤ width y)%nat →
       mget f i j = Some (weights blosum50 x y d i j).2 ∧
       mget t i j = Some (weights blosum50 x y d i j).1) ∧
    traceback (width x + width y) x y t (width x) (width y)
      (replicate (length x) []) (replicate (length y) []) = Some (xp, yp) ∧
    alignProfiles blosum50 x y d =
      Some ((weights blosum50 x y d (width x) (width y)).2, xp, yp).
Proof.
  intros Hwx Hwy Hcov.
  destruct (fill_weights blosum50 x y d (width x) (width y)) as (f & t & Hfill & Hft).
  { intros. by apply scoreColumns_is_Some. }
  destruct (traceback_total blosum50 d (width x + width y) x y t (width x) (width y)
    (width x) (width y) (replicate (length x) []) (replicate (length y) []))
    as [[xp yp] Htb]; try done.
  - intros. by apply Hft.
  - intros. eapply col_is_Some; [apply Hwx|done].
  - intros. eapply col_is_Some; [apply Hwy|done].
  - exists f, t, xp, yp. repeat split; try done; try by apply Hft.
    unfold alignProfiles.
    destruct (wellFormed_first _ Hwx) as (x0 & -> & Hx0).
    destruct (wellFormed_first _ Hwy) as (y0 & -> & Hy0). simpl.
    rewrite <- Hx0, <- Hy0, Hfill. simpl. rewrite Htb. simpl.
    destruct (Hft (width x) (width y)) as [-> _]; done.
Qed.

Lemma choose_max diag top left :
  choose diag top left =
  (if decide (top ≤ diag ∧ left ≤ diag) then D
   else if decide (left ≤ top) then T else L,
   Z.max diag (Z.max top left)).
Proof.
  unfold choose.
  destruct (diag >=? top) eqn:E1, (diag >=? left) eqn:E2,
    (top >=? diag) eqn:E3, (top >=? left) eqn:E4; simpl;
    repeat case_decide; f_equal; lia.
Qed.

Lemma alignProfiles_Some blosum50 x y d s xp yp :
  alignProfiles blosum50 x y d = Some (s, xp, yp) →
  ∃ x0 y0 f t,
    x !! 0%nat = Some x0 ∧ y !! 0%nat = Some y0 ∧
    fill blosum50 x y d (length x0) (length y0) = Some (f, t) ∧
    traceback (length x0 + length y0) x y t (length x0) (length y0)
      (replicate (length x) []) (replicate (length y) []) = Some (xp, yp) ∧
    mget f (length x0) (length y0) = Some s.
Proof.
  unfold alignProfiles. intros H.
  destruct (x !! 0%nat) as [x0|] eqn:Hx0; [simpl in H|done].
  destruct (y !! 0%nat) as [y0|] eqn:Hy0; [simpl in H|done].
  destruct (fill _ _ _ _ _ _) as [[f t]|] eqn:Hfill; [simpl in H|done].
  destruct (traceback _ _ _ _ _ _ _ _) as [[xp1 yp1]|] eqn:Htb; [simpl in H|done].
  destruct (mget f _ _) as [s1|] eqn:Hs; [simpl in H|done].
  simplify_eq. by exists x0, y0, f, t.
Qed.

Lemma gapped_start (p : profile) n :
  Forall (λ row, length row = n) p →
  Forall2 (λ row out, gapped (drop n row) out) p (replicate (length p) []).
Proof.
  induction 1 as [|row p Hrow _ IH]; simpl; constructor; [|done].
  rewrite drop_ge by lia. constructor.
Qed.

(** Whatever [alignProfiles] returns for rectangular profiles is the rows
    of the two profiles with gaps inserted, all of one length. *)
Lemma alignProfiles_gapped blosum50 x y d s xp yp :
  Forall (λ row, length row = width x) x → Forall (λ row, length row = width y) y →
  alignProfiles blosum50 x y d = Some (s, xp, yp) →
  Forall2 gapped x xp ∧ Forall2 gapped y yp ∧
  ∃ w, Forall (λ row, length row = w) (xp ++ yp).
Proof.
  intros Hx Hy (x0 & y0 & f & t & Hx0 & Hy0 & _ & Htb & _)%alignProfiles_Some.
  assert (width x = length x0) as Hwx by (unfold width; by rewrite Hx0).
  assert (width y = length y0) as Hwy by (unfold width; by rewrite Hy0).
  rewrite Hwx in Hx. rewrite Hwy in Hy.
  destruct (traceback_gapped _ _ _ _ _ _ _ _ _ _ Htb) as [Hgx Hgy];
    [by apply gapped_start..|].
  destruct (traceback_width _ _ _ _ _ _ _ _ _ _ 0%nat Htb) as (w & Hwxp & Hwyp).
  - apply Forall_replicate. done.
  - apply Forall_replicate. done.
  - split; [done|]. split; [done|]. exists w. by apply Forall_app.
Qed.

Lemma columnsOk_noGapColumn x y xp yp w : columnsOk x y xp yp w → noGapColumn (xp ++ yp).
Proof.
  intros (_ & _ & Hw & Hsym) c Hc. apply Hsym.
  unfold width in Hc. destruct (xp ++ yp) as [|row p]; simpl in Hc; [lia|].
  apply Forall_cons in Hw as [<- _]. done.
Qed.

(** Whatever [alignProfiles] returns has no column of gaps only, when the
    two profiles have none. *)
Lemma alignProfiles_symbols blosum50 x y d s xp yp :
  noGapColumn x → noGapColumn y →
  alignProfiles blosum50 x y d = Some (s, xp, yp) → noGapColumn (xp ++ yp).
Proof.
  intros Hx Hy (x0 & y0 & f & t & Hx0 & Hy0 & _ & Htb & _)%alignProfiles_Some.
  assert (width x = length x0) as Hwx by (unfold width; by rewrite Hx0).
  assert (width y = length y0) as Hwy by (unfold width; by rewrite Hy0).
  destruct (traceback_symbols _ _ _ _ _ _ _ _ _ _ 0%nat Htb) as [w Hok].
  - intros c Hc. apply Hx. lia.
  - intros c Hc. apply Hy. lia.
  - split; [by rewrite length_replicate|]. split; [by rewrite length_replicate|].
    split; [|intros; lia]. apply Forall_app. split; by apply Forall_replicate.
  - by eapply columnsOk_noGapColumn.
Qed.

(** ** The claims about [alignProfiles] *)

(** What the weights loop stores. For non-empty rectangular profiles whose
    symbols the substitution matrix knows, and every gap penalty [d], the
    matrix [f] of [alignProfiles x y d] has [f[0][j] = -j*d*len(x)] and
    [f[i][0] = -i*d*len(y)]; for [i, j >= 1], [f[i][j]] is the maximum of
    [diag = f[i-1][j-1] + scoreColumns(x, y, i-1, j-1)], the call being
    made without [d] and so with the default penalty 8 of [scoreColumns],
    [top = f[i-1][j] - d*len(y)] and [left = f[i][j-1] - d*len(x)], and the
    branch recorded in [t[i][j]] is the diagonal one if [diag] is a
    maximum, else the top one if [top] is, else the left one; the score
    returned is [f[lenX][lenY]]. *)
Theorem alignProfiles_recurrence blosum50 (x y : profile) (d : Z) :
  wellFormed x → wellFormed y → covers blosum50 x y →
  ∃ f t s xp yp,
    fill blosum50 x y d (width x) (width y) = Some (f, t) ∧
    alignProfiles blosum50 x y d = Some (s, xp, yp) ∧
    (∀ j, (j ≤ width y)%nat →
       mget f 0 j = Some (- Z.of_nat j * d * Z.of_nat (length x))) ∧
    (∀ i, (i ≤ width x)%nat →
       mget f i 0 = Some (- Z.of_nat i * d * Z.of_nat (length y))) ∧
    (∀ i j, (1 ≤ i ≤ width x)%nat → (1 ≤ j ≤ width y)%nat →
       ∃ fd fu fl sc,
         mget f (i - 1) (j - 1) = Some fd ∧ mget f (i - 1) j = Some fu ∧
         mget f i (j - 1) = Some fl ∧
         scoreColumns blosum50 x y (i - 1) (j - 1) defaultGapPenalty = Some sc ∧
         let diag := fd + sc in
         let top := fu - d * Z.of_nat (length y) in
         let left := fl - d * Z.of_nat (length x) in
         mget f i j = Some (Z.max diag (Z.max top left)) ∧
         mget t i j = Some (if decide (top ≤ diag ∧ left ≤ diag) then D
                            else if decide (left ≤ top) then T else L)) ∧
    mget f (width x) (width y) = Some s.
Proof.
  intros Hwx Hwy Hcov.
  destruct (alignProfiles_run blosum50 x y d Hwx Hwy Hcov)
    as (f & t & xp & yp & Hfill & Hft & _ & Hrun).
  exists f, t, (weights blosum50 x y d (width x) (width y)).2, xp, yp.
  split; [done|]. split; [done|]. split; [|split; [|split]].
  - intros j Hj. destruct (Hft 0%nat j) as [-> _]; [lia..|]. by rewrite weights_0.
  - intros [|i] Hi.
    + destruct (Hft 0%nat 0%nat) as [-> _]; [lia..|]. by rewrite weights_0.
    + destruct (Hft (S i) 0%nat) as [-> _]; [lia..|]. by rewrite weights_S_0.
  - intros [|i] [|j] Hi Hj; try lia. simpl. rewrite !Nat.sub_0_r.
    destruct (scoreColumns_is_Some blosum50 x y i j defaultGapPenalty)
      as [sc Hsc]; try done; try lia.
    destruct (Hft i j) as [Hd _]; [lia..|].
    destruct (Hft i (S j)) as [Hu _]; [lia..|].
    destruct (Hft (S i) j) as [Hl _]; [lia..|].
    destruct (Hft (S i) (S j)) as [Hf Ht]; [lia..|].
    eexists _, _, _, sc. split; [exact Hd|]. split; [exact Hu|].
    split; [exact Hl|]. split; [exact Hsc|].
    rewrite (weights_S_S _ _ _ _ _ _ _ Hsc), choose_max in Hf, Ht. done.
  - by destruct (Hft (width x) (width y)) as [-> _].
Qed.

(** C5. For non-empty rectangular profiles whose symbols the substitution
    matrix knows, [alignProfiles] returns [(score, X', Y')] where all rows
    of [X'] and [Y'] have one length and every row of [X'] ([Y']) is the
    row of [X] ([Y]) at the same position with gap symbols inserted. *)
Theorem alignProfiles_inserts_gaps blosum50 (x y : profile) (d : Z) :
  wellFormed x → wellFormed y → covers blosum50 x y →
  ∃ s xp yp w,
    alignProfiles blosum50 x y d = Some (s, xp, yp) ∧
    Forall (λ row, length row = w) (xp ++ yp) ∧
    Forall2 gapped x xp ∧ Forall2 gapped y yp.
Proof.
  intros Hwx Hwy Hcov.
  destruct (alignProfiles_run blosum50 x y d Hwx Hwy Hcov)
    as (f & t & xp & yp & _ & _ & _ & Hrun).
  destruct (alignProfiles_gapped _ _ _ _ _ _ _ (proj2 Hwx) (proj2 Hwy) Hrun)
    as (Hgx & Hgy & w & Hw).
  by exists (weights blosum50 x y d (width x) (width y)).2, xp, yp, w.
Qed.

(** C6, as stated, fails: a column of gaps that a profile brings along
    reaches the output. [x = ["A-", "W-"]], [y = ["A"]], [d = 8]. *)
Lemma alignProfiles_gap_column_counterexample :
  alignProfiles Example.blosum50 [["A"; "-"]; ["W"; "-"]]%char [["A"]]%char 8
    = Some (-6, [["A"; "-"]; ["W"; "-"]]%char, [["A"; "-"]]%char) ∧
  ¬ noGapColumn ([["A"; "-"]; ["W"; "-"]] ++ [["A"; "-"]])%char.
Proof.
  split; [by vm_compute|]. intros H.
  specialize (H 1%nat ltac:(unfold width; simpl; lia)). unfold symbolAt in H. simpl in H.
  repeat (apply Exists_cons in H as [(a & Ha & Hg)|H];
    [simpl in Ha; simplify_eq; by vm_compute in Hg|]).
  by apply Exists_nil in H.
Qed.

(** C6, amended. For non-empty rectangular profiles whose symbols the
    substitution matrix knows and that have no column of gaps only,
    [alignProfiles] returns rows [X'], [Y'] which together have no column
    of gaps only. *)
Theorem alignProfiles_no_gap_column blosum50 (x y : profile) (d : Z) :
  wellFormed x → wellFormed y → covers blosum50 x y →
  noGapColumn x → noGapColumn y →
  ∃ s xp yp,
    alignProfiles blosum50 x y d = Some (s, xp, yp) ∧ noGapColumn (xp ++ yp).
Proof.
  intros Hwx Hwy Hcov Hgx Hgy.
  destruct (alignProfiles_run blosum50 x y d Hwx Hwy Hcov)
    as (f & t & xp & yp & _ & _ & _ & Hrun).
  exists (weights blosum50 x y d (width x) (width y)).2, xp, yp.
  split; [done|]. exact (alignProfiles_symbols _ _ _ _ _ _ _ Hgx Hgy Hrun).
Qed.

Ltac solve_wellFormed := split; [done|repeat constructor].
Ltac solve_covers :=
  unfold covers; simpl; repeat constructor;
  vm_compute; intros; (discriminate || by eexists).
Ltac cases_below c := first [lia | destruct c as [|c]; [|cases_below c]].
Ltac solve_symbolAt :=
  first [ apply Exists_cons_hd; eexists; split; reflexivity
        | apply Exists_cons_tl; solve_symbolAt ].
Ltac solve_noGapColumn :=
  let c := fresh "c" in let Hc := fresh "Hc" in
  intros c Hc; unfold width in Hc; simpl in Hc; unfold symbolAt;
  cases_below c; solve_symbolAt.

Lemma alignProfiles_no_gap_column_witness :
  ∃ s xp yp,
    alignProfiles Example.blosum50 [["A"; "W"]; ["A"; "-"]]%char [["W"]]%char 8
      = Some (s, xp, yp) ∧ noGapColumn (xp ++ yp).
Proof.
  apply alignProfiles_no_gap_column.
  - solve_wellFormed.
  - solve_wellFormed.
  - solve_covers.
  - solve_noGapColumn.
  - solve_noGapColumn.
Defined.

Lemma alignProfiles_recurrence_witness :
  ∃ f t s xp yp,
    fill Example.blosum50 [["A"; "W"]; ["A"; "-"]]%char [["W"]]%char 8 2 1
      = Some (f, t) ∧
    alignProfiles Example.blosum50 [["A"; "W"]; ["A"; "-"]]%char [["W"]]%char 8
      = Some (s, xp, yp) ∧
    mget f 2 1 = Some s.
Proof.
  destruct (alignProfiles_recurrence Example.blosum50
    [["A"; "W"]; ["A"; "-"]]%char [["W"]]%char 8)
    as (f & t & s & xp & yp & Hf & Hrun & _ & _ & _ & Hs).
  - solve_wellFormed.
  - solve_wellFormed.
  - solve_covers.
  - by exists f, t, s, xp, yp.
Defined.

Lemma alignProfiles_inserts_gaps_witness :
  ∃ s xp yp w,
    alignProfiles Example.blosum50 [["A"; "W"]; ["A"; "-"]]%char [["W"]]%char 8
      = Some (s, xp, yp) ∧
    Forall (λ row, length row = w) (xp ++ yp) ∧
    Forall2 gapped [["A"; "W"]; ["A"; "-"]]%char xp ∧
    Forall2 gapped [["W"]]%char yp.
Proof.
  apply alignProfiles_inserts_gaps.
  - solve_wellFormed.
  - solve_wellFormed.
  - solve_covers.
Defined.

(** ** The sign of the gap penalty (C9) *)

Lemma flip_opp d : flip (- d) = flip d.
Proof. unfold flip. destruct (Z.ltb_spec (- d) 0), (Z.ltb_spec d 0); lia. Qed.

(** [scoreAlignment] uses the magnitude of a negative gap penalty. *)
Lemma scoreAlignment_opp blosum50 alignment d :
  scoreAlignment blosum50 alignment (- d) = scoreAlignment blosum50 alignment d.
Proof. unfold scoreAlignment. by rewrite flip_opp. Qed.

(** [scoreColumns] uses the magnitude of a negative gap penalty. *)
Lemma scoreColumns_opp blosum50 x y i j d :
  scoreColumns blosum50 x y i j (- d) = scoreColumns blosum50 x y i j d.
Proof. unfold scoreColumns. by rewrite flip_opp. Qed.

(** C9 fails for [alignProfiles], which uses [d] with the sign it is given:
    on [x = ["A"]], [y = ["A"]] the penalty [-8] turns the two gap moves
    into gains and the result differs from that of the penalty [8]. *)
Theorem alignProfiles_negative_penalty :
  alignProfiles Example.blosum50 [["A"]]%char [["A"]]%char (-8)
    = Some (16, [["-"; "A"]]%char, [["A"; "-"]]%char) ∧
  alignProfiles Example.blosum50 [["A"]]%char [["A"]]%char 8
    = Some (5, [["A"]]%char, [["A"]]%char).
Proof. split; by vm_compute. Qed.

(** ** Single-row profiles: classical Needleman-Wunsch (C2) *)

Lemma rev_take_S {A} (l : list A) i c :
  l !! i = Some c → rev (take (S i) l) = c :: rev (take i l).
Proof. intros H. rewrite (take_S_r _ _ _ H), rev_app_distr. done. Qed.

Lemma replicate_snoc {A} n (c : A) : replicate n c ++ [c] = replicate (S n) c.
Proof. induction n as [|n IH]; simpl; [done|]. by rewrite IH. Qed.

Lemma scoreColumns_single blosum50 (a b : sequence) i j g ai bj v :
  a !! i = Some ai → b !! j = Some bj →
  is_gap ai = false → is_gap bj = false → blosum50 ai bj = Some v →
  scoreColumns blosum50 [a] [b] i j g = Some v.
Proof.
  intros Hai Hbj Hga Hgb Hv. unfold scoreColumns, pairTerm. simpl.
  rewrite Hai, Hbj. simpl. rewrite Hga, Hgb. simpl. rewrite Hv. done.
Qed.

Lemma best_choose (r1 r2 r3 : Z * (sequence * sequence)) :
  NW.best r1 r2 r3 =
    match (choose r1.1 r2.1 r3.1).1 with D => r1 | T => r2 | _ => r3 end ∧
  (NW.best r1 r2 r3).1 = (choose r1.1 r2.1 r3.1).2.
Proof.
  unfold NW.best, choose.
  destruct ((r1.1 >=? r2.1) && (r1.1 >=? r3.1)); [done|].
  by destruct ((r2.1 >=? r1.1) && (r2.1 >=? r3.1)).
Qed.

Section SingleRows.

Variable blosum50 : symbol → symbol → option Z.
Variable s : symbol → symbol → Z.
Variable d : Z.
Variables a b : sequence.

Hypothesis table : ∀ ai bj, ai ∈ a → bj ∈ b → blosum50 ai bj = Some (s ai bj).
Hypothesis bare_a : Forall (λ c, is_gap c = false) a.
Hypothesis bare_b : Forall (λ c, is_gap c = false) b.

Local Abbreviation W := (weights blosum50 [a] [b] d).
Local Abbreviation P := (λ i j, NW.cellOf s d (rev (take i a)) (rev (take j b))).

Lemma single_cross i j ai bj :
  a !! i = Some ai → b !! j = Some bj →
  scoreColumns blosum50 [a] [b] i j defaultGapPenalty = Some (s ai bj).
Proof.
  intros Hai Hbj. eapply scoreColumns_single; eauto.
  - rewrite Forall_forall in bare_a. apply bare_a. by eapply list_elem_of_lookup_2.
  - rewrite Forall_forall in bare_b. apply bare_b. by eapply list_elem_of_lookup_2.
  - apply table; by eapply list_elem_of_lookup_2.
Qed.

Lemma cell_0 j : (j ≤ length b)%nat →
  P 0%nat j = (- Z.of_nat j * d, (replicate j gap, take j b)).
Proof.
  intros Hj. simpl. rewrite length_rev, length_take, rev_involutive.
  by replace (j `min` length b)%nat with j by lia.
Qed.

Lemma cell_i_0 i : (i ≤ length a)%nat →
  P i 0%nat = (- Z.of_nat i * d, (take i a, replicate i gap)).
Proof.
  intros Hi. cbn beta. rewrite take_0. simpl rev.
  assert (∀ ra, NW.cellOf s d ra [] =
    (- Z.of_nat (length ra) * d, (rev ra, replicate (length ra) gap))) as ->
    by (by intros [|? ?]).
  rewrite length_rev, length_take, rev_involutive.
  by replace (i `min` length a)%nat with i by lia.
Qed.

Lemma cell_S_S i j ai bj : a !! i = Some ai → b !! j = Some bj →
  P (S i) (S j) =
  NW.best (NW.extend (P i j) (s ai bj) ai bj)
          (NW.extend (P i (S j)) (- d) ai gap)
          (NW.extend (P (S i) j) (- d) gap bj).
Proof.
  intros Hai Hbj. cbn beta.
  by rewrite !(rev_take_S _ _ _ Hai), !(rev_take_S _ _ _ Hbj).
Qed.

(** The scores of the weights loop are those of the classical recurrence. *)
Lemma single_scores i j :
  (i ≤ length a)%nat → (j ≤ length b)%nat → (W i j).2 = (P i j).1.
Proof.
  revert j. induction i as [|i IHi]; intros j Hi Hj.
  - rewrite weights_0, cell_0 by done. simpl. lia.
  - induction j as [|j IHj].
    + rewrite weights_S_0, cell_i_0 by done. simpl. lia.
    + destruct (lookup_lt_is_Some_2 a i) as [ai Hai]; [lia|].
      destruct (lookup_lt_is_Some_2 b j) as [bj Hbj]; [lia|].
      rewrite (weights_S_S _ _ _ _ _ _ _ (single_cross _ _ _ _ Hai Hbj)).
      rewrite (cell_S_S _ _ _ _ Hai Hbj).
      rewrite (proj2 (best_choose _ _ _)). simpl.
      rewrite (IHi j), (IHi (S j)), IHj by lia.
      change (Z.of_nat 1) with 1. by rewrite Z.mul_1_r.
Qed.

Lemma single_col (r : sequence) i c : r !! i = Some c → col [r] i = Some [c].
Proof. intros H. unfold col. simpl. by rewrite H. Qed.

Lemma single_move i j ai bj : a !! i = Some ai → b !! j = Some bj →
  (W (S i) (S j)).1 =
  (choose (NW.extend (P i j) (s ai bj) ai bj).1
          (NW.extend (P i (S j)) (- d) ai gap).1
          (NW.extend (P (S i) j) (- d) gap bj).1).1.
Proof.
  intros Hai Hbj.
  assert (i < length a)%nat by (by eapply lookup_lt_Some).
  assert (j < length b)%nat by (by eapply lookup_lt_Some).
  rewrite (weights_S_S _ _ _ _ _ _ _ (single_cross _ _ _ _ Hai Hbj)).
  rewrite !single_scores by lia. simpl.
  change (Z.of_nat 1) with 1. by rewrite Z.mul_1_r.
Qed.

(** The traceback rebuilds the alignment the classical recurrence keeps
    in the cell it starts from. *)
Lemma single_traceback t n i j xa ya :
  (∀ i j, (i ≤ length a)%nat → (j ≤ length b)%nat → mget t i j = Some (W i j).1) →
  (i ≤ length a)%nat → (j ≤ length b)%nat → (i + j ≤ n)%nat →
  traceback n [a] [b] t i j [xa] [ya] =
    Some ([(P i j).2.1 ++ xa], [(P i j).2.2 ++ ya]).
Proof.
  intros Ht. revert i j xa ya.
  induction n as [|n IH]; intros i j xa ya Hi Hj Hn.
  - assert (i = 0 ∧ j = 0)%nat as [-> ->] by lia. by rewrite cell_0.
  - cbn [traceback]. destruct (i + j =? 0)%nat eqn:E.
    { apply Nat.eqb_eq in E. assert (i = 0 ∧ j = 0)%nat as [-> ->] by lia.
      by rewrite cell_0. }
    apply Nat.eqb_neq in E. rewrite Ht by done. cbn [mbind option_bind].
    destruct i as [|i].
    + destruct j as [|j]; [lia|].
      destruct (lookup_lt_is_Some_2 b j) as [bj Hbj]; [lia|].
      rewrite weights_0. cbn [fst]. rewrite option_guard_True by lia.
      cbn [mbind option_bind]. replace (S j - 1)%nat with j by lia.
      rewrite (single_col _ _ _ Hbj). cbn [mbind option_bind].
      change (push (replicate (length [a]) gap) [xa]) with [gap :: xa].
      change (push [bj] [ya]) with [bj :: ya].
      rewrite IH by lia. rewrite !cell_0 by lia. cbn [fst snd].
      rewrite (take_S_r _ _ _ Hbj), <- replicate_snoc, <- !app_assoc. done.
    + destruct (lookup_lt_is_Some_2 a i) as [ai Hai]; [lia|].
      destruct j as [|j].
      * rewrite weights_S_0. cbn [fst]. rewrite option_guard_True by lia.
        cbn [mbind option_bind]. replace (S i - 1)%nat with i by lia.
        rewrite (single_col _ _ _ Hai). cbn [mbind option_bind].
        change (push (replicate (length [b]) gap) [ya]) with [gap :: ya].
        change (push [ai] [xa]) with [ai :: xa].
        rewrite IH by lia. rewrite !cell_i_0 by lia. cbn [fst snd].
        rewrite (take_S_r _ _ _ Hai), <- replicate_snoc, <- !app_assoc. done.
      * destruct (lookup_lt_is_Some_2 b j) as [bj Hbj]; [lia|].
        rewrite (single_move _ _ _ _ Hai Hbj), (cell_S_S _ _ _ _ Hai Hbj).
        rewrite (proj1 (best_choose _ _ _)).
        replace (S i - 1)%nat with i by lia. replace (S j - 1)%nat with j by lia.
        destruct (choose _ _ _).1; cbn [mbind option_bind];
          rewrite ?option_guard_True by lia; cbn [mbind option_bind];
          rewrite ?(single_col _ _ _ Hai), ?(single_col _ _ _ Hbj);
          cbn [mbind option_bind];
          change (push (replicate (length [a]) gap) [xa]) with [gap :: xa];
          change (push (replicate (length [b]) gap) [ya]) with [gap :: ya];
          change (push [ai] [xa]) with [ai :: xa];
          change (push [bj] [ya]) with [bj :: ya];
          rewrite IH by lia; unfold NW.extend; cbn [fst snd];
          by rewrite <- !app_assoc.
Qed.

End SingleRows.

(** C2. For two single-row profiles without gap symbols and every gap
    penalty [d], [alignProfiles] returns the score and the two gapped
    sequences of classical pairwise Needleman-Wunsch with linear gap
    penalty [d] and the substitution scores [s] of the matrix. *)
Theorem alignProfiles_single_rows blosum50 s (d : Z) (a b : sequence) :
  Forall (λ ai, Forall (λ bj, blosum50 ai bj = Some (s ai bj)) b) a →
  Forall (λ c, is_gap c = false) a → Forall (λ c, is_gap c = false) b →
  alignProfiles blosum50 [a] [b] d =
    Some ((NW.align s d a b).1, [(NW.align s d a b).2.1], [(NW.align s d a b).2.2]).
Proof.
  intros Htable Ha Hb.
  assert (∀ ai bj, ai ∈ a → bj ∈ b → blosum50 ai bj = Some (s ai bj)) as Htable'.
  { intros ai bj Hai Hbj. rewrite Forall_forall in Htable.
    specialize (Htable ai Hai). rewrite Forall_forall in Htable. by apply Htable. }
  assert (wellFormed [a]) as Hwa by (split; [done|by repeat constructor]).
  assert (wellFormed [b]) as Hwb by (split; [done|by repeat constructor]).
  assert (covers blosum50 [a] [b]) as Hcov.
  { unfold covers. simpl. rewrite !app_nil_r.
    eapply Forall_impl; [exact Htable|]. intros ai Hai.
    eapply Forall_impl; [exact Hai|]. intros bj -> _ _. eauto. }
  destruct (alignProfiles_run blosum50 [a] [b] d Hwa Hwb Hcov)
    as (f & t & xp & yp & _ & Hft & Htb & ->).
  change (width [a]) with (length a) in *. change (width [b]) with (length b) in *.
  change (replicate (length [a]) []) with [@nil ascii] in Htb.
  change (replicate (length [b]) []) with [@nil ascii] in Htb.
  rewrite (single_traceback blosum50 s d a b Htable' Ha Hb) in Htb;
    [|intros; by apply Hft|lia..].
  rewrite (single_scores blosum50 s d a b Htable' Ha Hb) by lia.
  rewrite !firstn_all, !app_nil_r in Htb. rewrite !firstn_all.
  injection Htb as <- <-. done.
Qed.

(** The run on ["HEAGAWGHEE"] and ["PAWHEAE"] with gap penalty 8. *)
Lemma alignProfiles_single_rows_witness :
  alignProfiles Example.blosum50
    [Example.seq_of "HEAGAWGHEE"] [Example.seq_of "PAWHEAE"] 8 =
    Some (1, [Example.seq_of "HEAGAWGHE-E"], [Example.seq_of "--P-AW-HEAE"]) ∧
  NW.align (λ a b, default 0 (Example.blosum50 a b)) 8
    (Example.seq_of "HEAGAWGHEE") (Example.seq_of "PAWHEAE") =
    (1, (Example.seq_of "HEAGAWGHE-E", Example.seq_of "--P-AW-HEAE")).
Proof.
  assert (NW.align (λ a b, default 0 (Example.blosum50 a b)) 8
    (Example.seq_of "HEAGAWGHEE") (Example.seq_of "PAWHEAE") =
    (1, (Example.seq_of "HEAGAWGHE-E", Example.seq_of "--P-AW-HEAE"))) as Hnw
    by (by vm_compute).
  split; [|exact Hnw].
  rewrite (alignProfiles_single_rows Example.blosum50
    (λ a b, default 0 (Example.blosum50 a b)) 8
    (Example.seq_of "HEAGAWGHEE") (Example.seq_of "PAWHEAE")).
  - by rewrite Hnw.
  - by repeat constructor.
  - by repeat constructor.
  - by repeat constructor.
Defined.

(** ** Swapping the two profiles (C7) *)

Lemma weights_step blosum50 x y d i j :
  weights blosum50 x y d (S i) (S j) =
  choose ((weights blosum50 x y d i j).2 + crossScore blosum50 x y i j)
         ((weights blosum50 x y d i (S j)).2 - d * Z.of_nat (length y))
         ((weights blosum50 x y d (S i) j).2 - d * Z.of_nat (length x)).
Proof. done. Qed.

Lemma weights_not_Unset blosum50 x y d i j : (weights blosum50 x y d i j).1 ≠ Unset.
Proof.
  destruct i as [|i]; [by rewrite weights_0|].
  destruct j as [|j]; [by rewrite weights_S_0|].
  rewrite weights_step, choose_max. simpl. by repeat case_decide.
Qed.

Lemma choose_swap diag top left :
  (choose diag left top).2 = (choose diag top left).2 ∧
  ((top = left → top ≤ diag) →
   (choose diag left top).1 = mirror (choose diag top left).1).
Proof.
  rewrite !choose_max. simpl. split; [f_equal; lia|].
  intros Htie. repeat case_decide; simpl; try done; lia.
Qed.

Section Swap.

Variable blosum50 : symbol → symbol → option Z.
Variables x y : profile.
Variable d : Z.

Hypothesis table_symmetric : symmetric blosum50.
Hypothesis wf_x : wellFormed x.
Hypothesis wf_y : wellFormed y.
Hypothesis table_covers : covers blosum50 x y.

Lemma pairValue_swap g a b : pairValue blosum50 g b a = pairValue blosum50 g a b.
Proof.
  unfold pairValue. rewrite (table_symmetric b a).
  by destruct (is_gap a), (is_gap b).
Qed.

Lemma crossScore_swap i j : (i < width x)%nat → (j < width y)%nat →
  crossScore blosum50 y x j i = crossScore blosum50 x y i j.
Proof.
  intros Hi Hj.
  destruct (col_is_Some _ _ _ (proj2 wf_x) Hi) as [cx Hcx].
  destruct (col_is_Some _ _ _ (proj2 wf_y) Hj) as [cy Hcy].
  pose proof (covers_cols _ _ _ _ _ _ _ table_covers Hcx Hcy) as Hcov.
  unfold crossScore.
  rewrite (scoreColumns_crossSum _ _ _ _ _ _ _ _ Hcx Hcy Hcov).
  rewrite (scoreColumns_crossSum _ _ _ _ _ _ _ _ Hcy Hcx).
  - simpl. unfold crossSum. rewrite sumZ_swap.
    apply sumZ_ext. intros a _. apply sumZ_ext. intros b _. apply pairValue_swap.
  - rewrite Forall_forall. intros b Hb. rewrite Forall_forall. intros a Ha ? ?.
    rewrite table_symmetric. rewrite Forall_forall in Hcov.
    specialize (Hcov a Ha). rewrite Forall_forall in Hcov. by apply Hcov.
Qed.

Lemma covers_swap : covers blosum50 y x.
Proof.
  unfold covers in *. rewrite Forall_forall. intros b Hb.
  rewrite Forall_forall. intros a Ha ? ?. rewrite table_symmetric.
  rewrite Forall_forall in table_covers. specialize (table_covers a Ha).
  rewrite Forall_forall in table_covers. by apply table_covers.
Qed.

(** The scores of the swapped run are the transposed scores. *)
Lemma weights_swap_score i j : (i ≤ width x)%nat → (j ≤ width y)%nat →
  (weights blosum50 y x d j i).2 = (weights blosum50 x y d i j).2.
Proof.
  revert j. induction i as [|i IHi]; intros j Hi Hj.
  - destruct j as [|j]; [done|]. by rewrite weights_0, weights_S_0.
  - induction j as [|j IHj]; [by rewrite weights_0, weights_S_0|].
    rewrite !weights_step, crossScore_swap by lia.
    rewrite (IHi j), (IHi (S j)), IHj by lia.
    apply choose_swap.
Qed.

(** So are the recorded branches, mirrored, when no tie of top and left
    decides a cell. *)
Lemma weights_swap_move i j :
  tieFree blosum50 x y d →
  (i ≤ width x)%nat → (j ≤ width y)%nat → (0 < i + j)%nat →
  (weights blosum50 y x d j i).1 = mirror (weights blosum50 x y d i j).1.
Proof.
  intros Htie Hi Hj Hij. destruct i as [|i], j as [|j]; try lia.
  - by rewrite weights_0, weights_S_0.
  - by rewrite weights_0, weights_S_0.
  - rewrite !weights_step, crossScore_swap by lia.
    rewrite (weights_swap_score i j), (weights_swap_score i (S j)),
      (weights_swap_score (S i) j) by lia.
    apply choose_swap. apply Htie; lia.
Qed.

End Swap.

(** With mirrored branches the traceback of the swapped run takes the
    mirrored path. *)
Lemma traceback_swap x y t t' lenX lenY n i j xp yp :
  (∀ i j, (i ≤ lenX)%nat → (j ≤ lenY)%nat → (0 < i + j)%nat →
     ∃ m, m ≠ Unset ∧ mget t i j = Some m ∧ mget t' j i = Some (mirror m)) →
  (i ≤ lenX)%nat → (j ≤ lenY)%nat →
  traceback n y x t' j i yp xp = (λ r, (r.2, r.1)) <$> traceback n x y t i j xp yp.
Proof.
  intros Ht. revert i j xp yp. induction n as [|n IH]; intros i j xp yp Hi Hj.
  - simpl. rewrite (Nat.add_comm j i). by destruct (i + j =? 0)%nat.
  - cbn [traceback]. rewrite (Nat.add_comm j i).
    destruct (i + j =? 0)%nat eqn:E; [done|]. apply Nat.eqb_neq in E.
    destruct (Ht i j) as (m & Hm & -> & ->); [lia..|]. cbn [mbind option_bind].
    destruct m; [done|..]; cbn [mirror].
    + destruct (decide (1 ≤ i ∧ 1 ≤ j)%nat) as [Hij|Hij].
      * rewrite !option_guard_True by lia. cbn [mbind option_bind].
        destruct (col x (i - 1)), (col y (j - 1)); cbn [mbind option_bind];
          try done. apply IH; lia.
      * rewrite !option_guard_False by lia. done.
    + destruct (decide (1 ≤ i)%nat) as [Hij|Hij].
      * rewrite !option_guard_True by lia. cbn [mbind option_bind].
        destruct (col x (i - 1)); cbn [mbind option_bind]; [|done].
        apply IH; lia.
      * rewrite !option_guard_False by lia. done.
    + destruct (decide (1 ≤ j)%nat) as [Hij|Hij].
      * rewrite !option_guard_True by lia. cbn [mbind option_bind].
        destruct (col y (j - 1)); cbn [mbind option_bind]; [|done].
        apply IH; lia.
      * rewrite !option_guard_False by lia. done.
Qed.

(** C7, as stated, fails: where the top and the left candidate tie above
    the diagonal one, both runs record ['T'] and put the gap of that cell
    into their own second profile. [x = ["A"]], [y = ["W"]], [d = 1]. *)
Lemma alignProfiles_swap_counterexample :
  alignProfiles Example.blosum50 [["A"]]%char [["W"]]%char 1
    = Some (-2, [["-"; "A"]]%char, [["W"; "-"]]%char) ∧
  alignProfiles Example.blosum50 [["W"]]%char [["A"]]%char 1
    ≠ Some (-2, [["W"; "-"]]%char, [["-"; "A"]]%char).
Proof. split; by vm_compute. Qed.

(** C7, amended. For a symmetric substitution matrix and non-empty
    rectangular profiles whose symbols it knows, [alignProfiles y x d]
    returns the score of [alignProfiles x y d]; it returns the two row
    groups of that run, swapped, when no cell of the weights loop has its
    top and left candidates equal and above the diagonal one. *)
Theorem alignProfiles_swap blosum50 (x y : profile) (d : Z) :
  symmetric blosum50 → wellFormed x → wellFormed y → covers blosum50 x y →
  ∃ s xp yp xp' yp',
    alignProfiles blosum50 x y d = Some (s, xp, yp) ∧
    alignProfiles blosum50 y x d = Some (s, yp', xp') ∧
    (tieFree blosum50 x y d → yp' = yp ∧ xp' = xp).
Proof.
  intros Hsym Hwx Hwy Hcov.
  pose proof (covers_swap blosum50 x y Hsym Hcov) as Hcov'.
  destruct (alignProfiles_run blosum50 x y d Hwx Hwy Hcov)
    as (f & t & xp & yp & _ & Hft & Htb & Hrun).
  destruct (alignProfiles_run blosum50 y x d Hwy Hwx Hcov')
    as (f' & t' & yp' & xp' & _ & Hft' & Htb' & Hrun').
  exists (weights blosum50 x y d (width x) (width y)).2, xp, yp, xp', yp'.
  split; [done|]. split.
  - rewrite Hrun'. by rewrite (weights_swap_score blosum50 x y d Hsym Hwx Hwy Hcov).
  - intros Htie.
    rewrite (traceback_swap x y t t' (width x) (width y) _ (width x) (width y)) in Htb';
      [| |lia..].
    + rewrite (Nat.add_comm (width y)), Htb in Htb'. simpl in Htb'.
      by injection Htb' as <- <-.
    + intros i j Hi Hj Hij. exists (weights blosum50 x y d i j).1.
      split; [apply weights_not_Unset|]. split; [by apply Hft|].
      destruct (Hft' j i) as [_ ->]; [lia..|].
      by rewrite (weights_swap_move blosum50 x y d Hsym Hwx Hwy Hcov i j Htie) by lia.
Qed.

Lemma Example_idx_bound a i : Example.idx a = Some i → (i < 6)%nat.
Proof.
  unfold Example.idx.
  repeat (destruct (Ascii.eqb a _); [intros [= <-]; lia|]). done.
Qed.

Lemma Example_blosum50_symmetric : symmetric Example.blosum50.
Proof.
  intros a b. unfold Example.blosum50.
  destruct (Example.idx a) as [i|] eqn:Hi, (Example.idx b) as [j|] eqn:Hj;
    simpl; try done.
  apply Example_idx_bound in Hi, Hj.
  do 6 (destruct i as [|i]; [do 6 (destruct j as [|j]; [done|]); lia|]). lia.
Qed.

Ltac solve_tieFree :=
  let i := fresh "i" in let j := fresh "j" in
  let Hi := fresh "Hi" in let Hj := fresh "Hj" in
  intros i j Hi Hj; unfold width in Hi, Hj; simpl in Hi, Hj;
  cases_below i; cases_below j; vm_compute; intros; congruence.

Lemma alignProfiles_swap_witness :
  ∃ s xp yp,
    alignProfiles Example.blosum50 [["A"; "W"]; ["A"; "-"]]%char [["W"]]%char 8
      = Some (s, xp, yp) ∧
    alignProfiles Example.blosum50 [["W"]]%char [["A"; "W"]; ["A"; "-"]]%char 8
      = Some (s, yp, xp).
Proof.
  destruct (alignProfiles_swap Example.blosum50
    [["A"; "W"]; ["A"; "-"]]%char [["W"]]%char 8)
    as (s & xp & yp & xp' & yp' & Hxy & Hyx & Hswap).
  - exact Example_blosum50_symmetric.
  - solve_wellFormed.
  - solve_wellFormed.
  - solve_covers.
  - destruct Hswap as [-> ->]; [solve_tieFree|]. by exists s, xp, yp.
Defined.

(** ** The refinement driver: temperature and acceptance (C3, C4, C8) *)

(** The loop that sizes the progress bar leaves a temperature that is not
    above 1: it is the exit condition of the loop. *)
Lemma coolingSteps_cooled fuel t m n n' t' :
  coolingSteps fuel t m n = Some (n', t') → PrimFloat.ltb 1 t' = false.
Proof.
  revert t n. induction fuel as [|fuel IH]; intros t n; simpl;
    destruct (PrimFloat.ltb 1 t) eqn:E; try done.
  - by intros [= <- <-].
  - apply IH.
  - by intros [= <- <-].
Qed.

(** The refinement loop starts from the temperature the sizing loop left,
    for every input: never from a temperature above 1. *)
Lemma start_temperature_cooled rng fuel (alignment0 : profile) t m y (g : rng)
    n k m' st :
  start rng fuel alignment0 t m y g = Some (n, k, m', st) →
  PrimFloat.ltb 1 (temperature st) = false.
Proof.
  unfold start. intros H.
  destruct (numRealignedSequences _ _); [simpl in H|done].
  destruct (coolingSteps _ _ _ _) as [[n1 t1]|] eqn:E; [simpl in H|done].
  injection H as <- <- <- <-. simpl. by eapply coolingSteps_cooled.
Qed.

(** C4 fails on the code: the loop that sizes the progress bar cools the
    variable [t] itself. For [t = 4], [m = 0.5] it counts [n = 2] cycles
    and leaves [t = 1.0]; the first cycle runs at temperature [1.0] and the
    second at [0.5], where the claim has [4] and [2]. *)
Theorem iterate_first_temperature :
  let al := map Example.seq_of ["AA"; "WA"; "AW"]%string in
  let g : Example.rng := ([2; 2]%nat, [0.5; 0.5]%float) in
  ∃ st0 st1,
    start Example.rng 10 al 4 0.5 0 g = Some (2%nat, 1, 0.5%float, st0) ∧
    temperature st0 = 1%float ∧
    cycle Example.blosum50 Example.exp Example.rng Example.randrange
      Example.random 1 8 0.5 st0 = Some st1 ∧
    temperature st1 = 0.5%float.
Proof. simpl. eexists _, _. repeat split; by vm_compute. Qed.

(** C3 fails on the code: a rejected candidate stays in the loop variable.
    On ["AA", "WA", "AW"] with [t = 2], [m = 0.5], [y = 0.5], [d = 8], the
    rows drawn being 1 and then 0 and the uniform draw 0.5, the single
    cycle lowers the score from -2 to -23; the acceptance probability is
    [exp(-21 / 1.0)], below the draw, so [prevProfile] and [prevScore] keep
    the snapshot; yet the candidate is what the next cycle would start from
    and what [iterate] returns. *)
Theorem iterate_returns_rejected_candidate :
  let al := map Example.seq_of ["AA"; "WA"; "AW"]%string in
  let candidate := map Example.seq_of ["AW-"; "-WA"; "A-A"]%string in
  let g : Example.rng := ([1; 0]%nat, [0.5]%float) in
  ∃ st0 st1 p,
    start Example.rng 10 al 2 0.5 0.5 g = Some (1%nat, 2, 0.5%float, st0) ∧
    alignment st0 = al ∧
    scoreAlignment Example.blosum50 al 8 = Some (-2) ∧
    scoreAlignment Example.blosum50 candidate 8 = Some (-23) ∧
    Example.exp (PrimFloat.div (Z2float (-23 - -2)) (temperature st0)) = Some p ∧
    PrimFloat.leb 0.5 p = false ∧
    cycle Example.blosum50 Example.exp Example.rng Example.randrange
      Example.random 2 8 0.5 st0 = Some st1 ∧
    prev st1 = Some (al, -2) ∧
    alignment st1 = candidate ∧
    Example.iterate 10 al 2 0.5 0.5 8 g = Some (-23, candidate).
Proof. simpl. eexists _, _, _. repeat split; by vm_compute. Qed.

(** C8, as stated, fails for a cooling factor that is not positive: it is
    used as given. With [m = 0] the temperature of the first cycle is [0.0]
    and the acceptance rule divides by it (ZeroDivisionError); with
    [m = -1] the loop runs one cycle instead of the seven that [m = 0.95]
    gives it on the same draws, and returns another alignment. *)
Lemma iterate_cooling_factor_counterexample :
  let al := map Example.seq_of ["AW"; "A-"; "-W"]%string in
  let g : Example.rng :=
    ([0; 0; 2; 2; 2; 2; 2; 2; 2; 2]%nat,
     [0.5; 0.5; 0.5; 0.5; 0.5; 0.5; 0.5; 0.5; 0.5; 0.5]%float) in
  Example.iterate 100 al 10 defaultCooling 0 8 g
    = Some (-12, map Example.seq_of ["-W"; "AW"; "A-"]%string) ∧
  Example.iterate 100 al 10 0 0 8 g = None ∧
  Example.iterate 100 al 10 (-1) 0 8 g
    = Some (-12, map Example.seq_of ["A-"; "-W"; "AW"]%string).
Proof. simpl. repeat split; by vm_compute. Qed.

(** C8, amended. For every cooling factor [m >= 1], [iterate] behaves
    exactly as if called with [m = 0.95]. *)
Theorem iterate_cooling_factor_default blosum50 exp rng randrange random
    fuel (alignment0 : profile) t m y d (g : rng) :
  PrimFloat.leb 1 m = true →
  iterate blosum50 exp rng randrange random fuel alignment0 t m y d g =
  iterate blosum50 exp rng randrange random fuel alignment0 t defaultCooling y d g.
Proof. intros Hm. unfold iterate, start. by rewrite Hm. Qed.

Lemma iterate_cooling_factor_default_witness :
  PrimFloat.leb 1 2 = true ∧
  Example.iterate 100 (map Example.seq_of ["AW"; "A-"; "-W"]%string) 10 2 0 8
    ([0; 0; 2; 2; 2; 2; 2; 2; 2; 2]%nat, []) =
  Example.iterate 100 (map Example.seq_of ["AW"; "A-"; "-W"]%string) 10
    defaultCooling 0 8 ([0; 0; 2; 2; 2; 2; 2; 2; 2; 2]%nat, []).
Proof.
  split; [reflexivity|].
  apply (iterate_cooling_factor_default Example.blosum50 Example.exp Example.rng
    Example.randrange Example.random). reflexivity.
Defined.

(** ** The refinement driver keeps the sequences (C10) *)

Lemma strip_app r1 r2 : strip (r1 ++ r2) = strip r1 ++ strip r2.
Proof. unfold strip. apply List.filter_app. Qed.

Lemma strip_idem row : strip (strip row) = strip row.
Proof.
  induction row as [|a row IH]; [done|]. simpl.
  destruct (is_gap a) eqn:E; simpl; [done|]. by rewrite E, IH.
Qed.

Lemma strip_gapped row out : gapped row out → strip out = strip row.
Proof.
  induction 1 as [|a row out _ IH|row out _ IH]; simpl; [done| |done].
  by rewrite IH.
Qed.

Lemma strip_delete (row : sequence) i a :
  row !! i = Some a → is_gap a = true → strip (delete i row) = strip row.
Proof.
  intros Ha Hgap. rewrite delete_take_drop.
  rewrite <- (take_drop_middle _ _ _ Ha) at 3.
  rewrite !strip_app. simpl. by rewrite Hgap.
Qed.

(** The partial-correctness form of the loop invariant rule. *)
Lemma forM_seq_inv_Some {A} (P : nat → A → Prop) body (s n : nat) (a a' : A) :
  P s a →
  (∀ i a a', (s ≤ i < s + n)%nat → P i a → body a i = Some a' → P (S i) a') →
  forM (seq s n) a body = Some a' → P (s + n)%nat a'.
Proof.
  revert s a. induction n as [|n IH]; intros s a Ha Hstep; simpl.
  - intros [= <-]. by rewrite Nat.add_0_r.
  - destruct (body a s) as [a1|] eqn:E; [simpl|done]. intros Hrun.
    rewrite <- Nat.add_succ_comm. eapply IH; [|intros i b b' ? ? ?|exact Hrun].
    + eapply Hstep; [|exact Ha|exact E]. lia.
    + eapply Hstep; eauto. lia.
Qed.

Section RemoveRows.

Variable rng : Type.
Variable randrange : rng → nat → nat * rng.

(** The rows removed and the rows left are the rows of the alignment. *)
Lemma removeRows_rows k (al : profile) g rest live seqs g' :
  removeRows rng randrange k al g = Some (rest, live, seqs, g') →
  map strip rest ++ seqs ≡ₚ map strip al ∧
  Forall (λ s, strip s = s) seqs ∧
  (length rest + length seqs = length al)%nat ∧
  (∀ w, Forall (λ row, length row = w) al → Forall (λ row, length row = w) rest).
Proof.
  unfold removeRows.
  apply (forM_inv (λ a : list (list ascii) * list nat * list (list ascii) * rng,
    map strip a.1.1.1 ++ a.1.2 ≡ₚ map strip al ∧
    Forall (λ s, strip s = s) a.1.2 ∧
    (length a.1.1.1 + length a.1.2 = length al)%nat ∧
    (∀ w, Forall (λ row, length row = w) al →
          Forall (λ row, length row = w) a.1.1.1))).
  - simpl. rewrite app_nil_r. repeat split; auto.
  - intros [[[al1 live1] seqs1] g1] _ a' _ (Hperm & Hstrip & Hlen & Hrect). simpl in *.
    case_guard as Hne; [simpl|done].
    destruct (randrange g1 (length al1)) as [index g2].
    unfold pop. destruct (al1 !! index) as [row|] eqn:Hrow; [simpl|done].
    intros [= <-]. simpl. repeat split.
    + rewrite <- Hperm.
      assert (map strip al1 ≡ₚ strip row :: map strip (delete index al1)) as ->
        by apply (Permutation_map strip (delete_Permutation _ _ _ Hrow)).
      rewrite app_assoc. simpl. symmetry. apply Permutation_cons_append.
    + apply Forall_app. split; [done|]. constructor; [apply strip_idem|done].
    + rewrite length_delete by eauto. rewrite length_app. simpl.
      apply lookup_lt_Some in Hrow. lia.
    + intros w Hw. apply Forall_delete. auto.
Qed.

End RemoveRows.

Lemma columnHasSymbol_false (al : profile) i :
  columnHasSymbol al i = Some false → gapAt al i.
Proof.
  unfold gapAt. induction al as [|row al IH]; simpl; [by constructor|].
  destruct (row !! i) as [a|] eqn:Ha; [simpl|done].
  destruct (is_gap a) eqn:Hgap; simpl; [|done].
  intros H. constructor; [eauto|auto].
Qed.

(** The null columns are found last column first. *)
Lemma nullColumnIndexes_nulls (al : profile) nulls :
  nullColumnIndexes al = Some nulls →
  Forall (gapAt al) nulls ∧ descending nulls.
Proof.
  unfold nullColumnIndexes. destruct (al !! 0%nat) as [row0|]; [simpl|done].
  intros Hrun.
  apply (forM_seq_inv_Some (λ i acc,
    Forall (λ j, (j < i)%nat) acc ∧ Forall (gapAt al) acc ∧ descending acc))
    in Hrun; [tauto|by repeat constructor|].
  intros i acc acc' _ (Hlt & Hgaps & Hdesc).
  destruct (columnHasSymbol al i) as [[|]|] eqn:E; simpl; [|intros [= <-]|done].
  - intros [= <-]. split; [|done].
    eapply Forall_impl; [exact Hlt|]. intros; simpl in *; lia.
  - split; [|split].
    + constructor; [lia|]. eapply Forall_impl; [exact Hlt|]. intros; simpl in *; lia.
    + constructor; [by apply columnHasSymbol_false|done].
    + simpl. done.
Qed.

(** Deleting the null columns keeps the symbols of every row and takes the
    same number of columns from each. *)
Lemma dropColumns_rows nulls (al al' : profile) :
  Forall (gapAt al) nulls → descending nulls →
  dropColumns nulls al = Some al' →
  Forall2 (λ row row', strip row' = strip row ∧
                       length row = (length row' + length nulls)%nat) al al'.
Proof.
  unfold dropColumns. revert al.
  induction nulls as [|i nulls IH]; intros al Hgaps Hdesc; simpl.
  - intros [= <-]. apply Forall_Forall2_diag, Forall_true. intros; split; [done|lia].
  - apply Forall_cons in Hgaps as [Hi Hgaps]. destruct Hdesc as [Hlt Hdesc].
    destruct (mapM _ al) as [al1|] eqn:Hmap; [simpl|done].
    apply mapM_Some in Hmap.
    assert (Forall2 (λ (row row1 : sequence), row1 = delete i row ∧
      ∃ a, row !! i = Some a ∧ is_gap a = true) al al1) as Hdel.
    { unfold gapAt in Hi. clear -Hi Hmap. induction Hmap as [|row row1 al al1 H _ IH'];
        [constructor|]. apply Forall_cons in Hi as [(a & Ha & Hgap) Hi].
      constructor; [|auto]. unfold pop in H. rewrite Ha in H. simpl in H.
      injection H as <-. eauto. }
    intros Hrun. apply IH in Hrun; [|clear Hrun|done].
    + eapply Forall2_trans; [|exact Hdel|exact Hrun].
      intros row row1 row' (-> & a & Ha & Hgap) (Hs & Hl). split.
      * rewrite Hs. by eapply strip_delete.
      * rewrite length_delete in Hl by eauto.
        apply lookup_lt_Some in Ha. simpl. lia.
    + rewrite Forall_forall in Hgaps, Hlt. apply Forall_forall. intros j Hj.
      specialize (Hgaps j Hj). specialize (Hlt j Hj). unfold gapAt in *.
      clear -Hdel Hgaps Hlt. induction Hdel as [|row row1 al al1 [-> _] _ IH'];
        [constructor|]. apply Forall_cons in Hgaps as [Hrow Hgaps].
      constructor; [|auto]. by rewrite list_lookup_delete_lt.
Qed.

Lemma rectangular_width (p : profile) w :
  Forall (λ row, length row = w) p → Forall (λ row, length row = width p) p.
Proof.
  intros Hp. destruct p as [|row p]; [constructor|].
  unfold width. simpl. pose proof Hp as Hp'. apply Forall_cons in Hp' as [-> _]. done.
Qed.

Section Reinsert.

Variable blosum50 : symbol → symbol → option Z.

(** Re-insertion appends the sequences, gapped, to the gapped rows. *)
Lemma reinsert_rows d seqs (al al' : profile) :
  rectangular al → reinsert blosum50 d seqs al = Some al' →
  rectangular al' ∧ map strip al' = map strip al ++ map strip seqs.
Proof.
  unfold reinsert. revert al. induction seqs as [|sq seqs IH]; intros al Hrect; simpl.
  - intros [= <-]. by rewrite app_nil_r.
  - destruct (alignProfiles blosum50 al [sq] d) as [[[s xp] yp]|] eqn:Hal;
      [simpl|done].
    destruct (yp !! 0%nat) as [y0|] eqn:Hy0; [simpl|done].
    destruct Hrect as [w Hw].
    assert (Forall (λ row, length row = width [sq]) [sq]) as Hsq
      by (by repeat constructor).
    destruct (alignProfiles_gapped blosum50 al [sq] d s xp yp
      (rectangular_width _ _ Hw) Hsq Hal) as (Hgx & Hgy & w' & Hw').
    inversion Hgy as [|? y0' ? yp' Hg0 Hnil]; subst. inversion Hnil; subst.
    simpl in Hy0. injection Hy0 as ->.
    intros Hrun. apply IH in Hrun; [|by exists w'].
    destruct Hrun as [Hrect' ->]. split; [done|].
    rewrite map_app. simpl. rewrite (strip_gapped _ _ Hg0), <- app_assoc. simpl.
    f_equal. clear -Hgx. induction Hgx as [|row out al xp Hg _ IH]; [done|].
    simpl. by rewrite (strip_gapped _ _ Hg), IH.
Qed.

End Reinsert.

Lemma map_strip_fixed seqs : Forall (λ s, strip s = s) seqs → map strip seqs = seqs.
Proof. induction 1 as [|s seqs Hs _ IH]; simpl; [done|]. by rewrite Hs, IH. Qed.

Section Driver.

Variable blosum50 : symbol → symbol → option Z.
Variable exp : float → option float.
Variable rng : Type.
Variable randrange : rng → nat → nat * rng.
Variable random : rng → float * rng.

(** One cycle keeps the alignment rectangular, with the same number of
    rows and the same sequences. *)
Lemma cycle_rows k d m (st st' : state rng) :
  cycle blosum50 exp rng randrange random k d m st = Some st' →
  rectangular (alignment st) →
  rectangular (alignment st') ∧
  length (alignment st') = length (alignment st) ∧
  map strip (alignment st') ≡ₚ map strip (alignment st).
Proof.
  unfold cycle. intros Hrun [w Hw].
  destruct (scoreAlignment blosum50 (alignment st) d) as [prevScore|];
    [simpl in Hrun|done].
  destruct (removeRows _ _ _ _ _) as [[[[rest live] seqs] g]|] eqn:Hrem;
    [simpl in Hrun|done].
  destruct (nullColumnIndexes rest) as [nulls|] eqn:Hnulls; [simpl in Hrun|done].
  destruct (dropColumns nulls rest) as [rest'|] eqn:Hdrop; [simpl in Hrun|done].
  destruct (reinsert blosum50 d seqs rest') as [candidate|] eqn:Hre;
    [simpl in Hrun|done].
  destruct (scoreAlignment blosum50 candidate d) as [newScore|];
    [simpl in Hrun|done].
  destruct (if newScore <=? prevScore then _ else _) as [[[pp ps] g2]|];
    [simpl in Hrun|done].
  injection Hrun as <-. simpl.
  destruct (removeRows_rows _ _ _ _ _ _ _ _ _ Hrem) as (Hperm & Hstrip & Hlen & Hrect).
  destruct (nullColumnIndexes_nulls _ _ Hnulls) as [Hgaps Hdesc].
  pose proof (dropColumns_rows _ _ _ Hgaps Hdesc Hdrop) as Hrows.
  assert (map strip rest' = map strip rest) as Hsame.
  { clear -Hrows. induction Hrows as [|row row' ? ? [Hs _] _ IH]; [done|].
    simpl. by rewrite Hs, IH. }
  assert (rectangular rest') as Hrect'.
  { exists (w - length nulls)%nat. specialize (Hrect w Hw).
    eapply Forall2_Forall_r; [exact Hrows|].
    eapply Forall_impl; [exact Hrect|]. intros row Hrow row' [_ Hl].
    simpl in *. lia. }
  destruct (reinsert_rows blosum50 d seqs rest' candidate Hrect' Hre) as [Hrc Hmap].
  rewrite (map_strip_fixed _ Hstrip), Hsame in Hmap.
  split; [done|]. split.
  - rewrite <- (length_map strip candidate), Hmap, length_app, length_map. done.
  - by rewrite Hmap.
Qed.

Lemma refine_rows n k d m (st st' : state rng) :
  refine blosum50 exp rng randrange random n k d m st = Some st' →
  rectangular (alignment st) →
  rectangular (alignment st') ∧
  length (alignment st') = length (alignment st) ∧
  map strip (alignment st') ≡ₚ map strip (alignment st).
Proof.
  revert st. induction n as [|n IH]; intros st; cbn [refine].
  - intros ? ?. by simplify_eq.
  - destruct (7 <=? counter st)%nat; [intros ? ?; by simplify_eq|].
    destruct (cycle _ _ _ _ _ _ _ _ st) as [st1|] eqn:Hcycle; [simpl|done].
    intros Hrun Hrect.
    destruct (cycle_rows _ _ _ _ _ Hcycle Hrect) as (Hrect1 & Hlen1 & Hperm1).
    destruct (IH _ Hrun Hrect1) as (Hrect' & Hlen' & Hperm').
    split; [done|]. split; [congruence|]. by rewrite Hperm'.
Qed.

End Driver.

(** X20. What a cycle hands to the next one does not depend on the
    acceptance rule: with any two exponentials and any two sources of
    uniform draws the alignment after the cycle is the same. The draws of
    [randrange] decide it alone. *)
Lemma cycle_alignment_ignores_acceptance blosum50 rng randrange
    exp1 exp2 random1 random2 k d m (st st1 st2 : state rng) :
  cycle blosum50 exp1 rng randrange random1 k d m st = Some st1 →
  cycle blosum50 exp2 rng randrange random2 k d m st = Some st2 →
  alignment st1 = alignment st2.
Proof.
  unfold cycle. intros H1 H2.
  destruct (scoreAlignment blosum50 (alignment st) d) as [prevScore|];
    [simpl in H1, H2|done].
  destruct (removeRows _ _ _ _ _) as [[[[rest live] seqs] g]|];
    [simpl in H1, H2|done].
  destruct (nullColumnIndexes rest) as [nulls|]; [simpl in H1, H2|done].
  destruct (dropColumns nulls rest) as [rest'|]; [simpl in H1, H2|done].
  destruct (reinsert blosum50 d seqs rest') as [candidate|]; [simpl in H1, H2|done].
  destruct (scoreAlignment blosum50 candidate d) as [newScore|];
    [simpl in H1, H2|done].
  destruct (if newScore <=? prevScore then _ else _) as [[[pp1 ps1] g1]|] in H1;
    [simpl in H1|done].
  destruct (if newScore <=? prevScore then _ else _) as [[[pp2 ps2] g2]|] in H2;
    [simpl in H2|done].
  by simplify_eq.
Qed.

(** C10. For every rectangular input alignment and all parameters, an
    alignment returned by [iterate] has as many rows as the input, and its
    rows, stripped of gap symbols, are those of the input, stripped, up to
    their order. *)
Theorem iterate_keeps_sequences blosum50 exp rng randrange random
    fuel (alignment0 : profile) t m y d (g : rng) s alignment' :
  rectangular alignment0 →
  iterate blosum50 exp rng randrange random fuel alignment0 t m y d g
    = Some (s, alignment') →
  length alignment' = length alignment0 ∧
  map strip alignment' ≡ₚ map strip alignment0.
Proof.
  intros Hrect. unfold iterate, start.
  destruct (numRealignedSequences _ _) as [k|]; [simpl|done].
  destruct (coolingSteps _ _ _ _) as [[n t']|]; [simpl|done].
  destruct (refine _ _ _ _ _ _ _ _ _ _) as [st|] eqn:Hrun; [simpl|done].
  destruct (scoreAlignment _ _ _); [simpl|done]. intros [= <- <-].
  by destruct (refine_rows _ _ _ _ _ _ _ _ _ _ _ Hrun Hrect) as (_ & ? & ?).
Qed.

Lemma iterate_keeps_sequences_witness :
  rectangular (map Example.seq_of ["AA"; "WA"; "AW"]%string) ∧
  Example.iterate 10 (map Example.seq_of ["AA"; "WA"; "AW"]%string) 2 0.5 0.5 8
    ([1; 0]%nat, [0.5]%float)
    = Some (-23, map Example.seq_of ["AW-"; "-WA"; "A-A"]%string) ∧
  length (map Example.seq_of ["AW-"; "-WA"; "A-A"]%string) = 3%nat ∧
  map strip (map Example.seq_of ["AW-"; "-WA"; "A-A"]%string) ≡ₚ
    map strip (map Example.seq_of ["AA"; "WA"; "AW"]%string).
Proof.
  assert (rectangular (map Example.seq_of ["AA"; "WA"; "AW"]%string)) as Hrect
    by (exists 2%nat; by repeat constructor).
  assert (Example.iterate 10 (map Example.seq_of ["AA"; "WA"; "AW"]%string)
    2 0.5 0.5 8 ([1; 0]%nat, [0.5]%float)
    = Some (-23, map Example.seq_of ["AW-"; "-WA"; "A-A"]%string)) as Hrun
    by (by vm_compute).
  split; [exact Hrect|]. split; [exact Hrun|].
  exact (iterate_keeps_sequences Example.blosum50 Example.exp Example.rng
    Example.randrange Example.random _ _ _ _ _ _ _ _ _ Hrect Hrun).
Defined.

(** ** The refinement driver returns *)

Lemma elem_of_concat {A} (a : A) (p : list (list A)) :
  a ∈ concat p ↔ ∃ row, row ∈ p ∧ a ∈ row.
Proof.
  induction p as [|r p IH]; simpl.
  - split; [by intros ?%elem_of_nil|by intros (? & ?%elem_of_nil & _)].
  - rewrite elem_of_app, IH. split.
    + intros [Ha|(row & Hrow & Ha)]; [exists r|exists row]; split; auto; by constructor.
    + intros (row & [->|Hrow]%elem_of_cons & Ha); eauto.
Qed.

Lemma elem_of_strip a row : a ∈ strip row ↔ a ∈ row ∧ is_gap a = false.
Proof.
  unfold strip. rewrite !list_elem_of_In, List.filter_In.
  by destruct (is_gap a); intuition.
Qed.

Lemma within_refl al0 : within al0 al0.
Proof.
  unfold within. apply Forall_forall. intros s (row & <- & Hrow)%list_elem_of_In%in_map_iff.
  apply Forall_forall. intros a [Ha _]%elem_of_strip.
  apply elem_of_concat. exists row. split; [by apply list_elem_of_In|done].
Qed.

Lemma within_elem al0 p a :
  within al0 p → a ∈ concat p → is_gap a = false → a ∈ concat al0.
Proof.
  unfold within. rewrite Forall_forall. intros Hp (row & Hrow & Ha)%elem_of_concat Hgap.
  specialize (Hp (strip row)). rewrite Forall_forall in Hp. apply Hp.
  - apply list_elem_of_In, in_map, list_elem_of_In, Hrow.
  - by apply elem_of_strip.
Qed.

Lemma covers_within blosum50 al0 p q :
  covers blosum50 al0 al0 → within al0 p → within al0 q → covers blosum50 p q.
Proof.
  unfold covers. rewrite !Forall_forall. intros Hcov Hp Hq a Ha.
  apply Forall_forall. intros b Hb Hga Hgb.
  specialize (Hcov a (within_elem _ _ _ Hp Ha Hga)).
  rewrite Forall_forall in Hcov. apply Hcov; [|done..].
  by eapply within_elem.
Qed.

Lemma lookup_elem_of_concat (p : profile) j row i a :
  p !! j = Some row → row !! i = Some a → a ∈ concat p.
Proof.
  intros Hrow Ha. apply elem_of_concat. exists row.
  split; by eapply list_elem_of_lookup_2.
Qed.

(** [scoreAlignment] returns on a non-empty rectangular alignment whose
    symbols the substitution matrix knows. *)
Lemma scoreAlignment_is_Some blosum50 (al : profile) d :
  wellFormed al → covers blosum50 al al → is_Some (scoreAlignment blosum50 al d).
Proof.
  intros Hwf Hcov. unfold scoreAlignment.
  destruct (wellFormed_first _ Hwf) as (row0 & -> & Hrow0). simpl.
  destruct Hwf as [_ Hrect]. rewrite Forall_forall in Hrect.
  unfold range.
  edestruct (forM_seq_inv (λ _ (_ : Z), True)) as (v & -> & _); [done| |by eauto].
  intros i total Hi _.
  edestruct (forM_seq_inv (λ _ (_ : Z), True)) as (v & -> & _); [done| |by eauto].
  intros j total' Hj _.
  edestruct (forM_seq_inv (λ _ (_ : Z), True)) as (v & -> & _); [done| |by eauto].
  intros k total'' Hk _.
  destruct (lookup_lt_is_Some_2 al j) as [rj Hrj]; [lia|].
  destruct (lookup_lt_is_Some_2 al k) as [rk Hrk]; [lia|].
  destruct (lookup_lt_is_Some_2 rj i) as [a Ha].
  { rewrite (Hrect rj) by (by eapply list_elem_of_lookup_2). lia. }
  destruct (lookup_lt_is_Some_2 rk i) as [b Hb].
  { rewrite (Hrect rk) by (by eapply list_elem_of_lookup_2). lia. }
  rewrite Hrj. simpl. rewrite Ha. simpl. rewrite Hrk. simpl. rewrite Hb. simpl.
  rewrite pairTerm_value; [by eauto|].
  unfold covers in Hcov. rewrite Forall_forall in Hcov.
  specialize (Hcov a (lookup_elem_of_concat _ _ _ _ _ Hrj Ha)).
  rewrite Forall_forall in Hcov. apply Hcov. by eapply lookup_elem_of_concat.
Qed.

Lemma removeRows_is_Some rng (randrange : rng → nat → nat * rng) k (al : profile) g :
  inRange randrange → (Z.to_nat k < length al)%nat →
  is_Some (removeRows rng randrange k al g).
Proof.
  intros Hrange Hk. unfold removeRows, range.
  edestruct (forM_seq_inv
    (λ i (a : list (list ascii) * list nat * list (list ascii) * rng),
       (length a.1.1.1 + i = length al)%nat)) as (a & -> & _); [done| |by eauto].
  intros i [[[al1 live1] seqs1] g1] Hi Hlen. simpl in *.
  rewrite option_guard_True by lia. simpl.
  pose proof (Hrange g1 (length al1) ltac:(lia)) as Hindex.
  destruct (randrange g1 (length al1)) as [index g2]. simpl in Hindex.
  unfold pop. destruct (lookup_lt_is_Some_2 al1 index Hindex) as [row Hrow].
  rewrite Hrow. simpl. eexists. split; [done|]. simpl.
  rewrite length_delete by eauto. lia.
Qed.

Lemma columnHasSymbol_is_Some (al : profile) i :
  Forall (λ row, (i < length row)%nat) al → is_Some (columnHasSymbol al i).
Proof.
  induction 1 as [|row al Hrow _ IH]; simpl; [by eauto|].
  destruct (lookup_lt_is_Some_2 row i Hrow) as [a ->]. simpl.
  by destruct (is_gap a); simpl; eauto.
Qed.

Lemma nullColumnIndexes_is_Some (al : profile) :
  wellFormed al → is_Some (nullColumnIndexes al).
Proof.
  intros Hwf. unfold nullColumnIndexes, range.
  destruct (wellFormed_first _ Hwf) as (row0 & -> & Hrow0). simpl.
  destruct Hwf as [_ Hrect].
  edestruct (forM_seq_inv (λ _ (_ : list nat), True)) as (v & -> & _);
    [done| |by eauto].
  intros i acc Hi _.
  destruct (columnHasSymbol_is_Some al i) as [b ->]; [|simpl; by eauto].
  eapply Forall_impl; [exact Hrect|]. intros row Hrow. simpl in *. lia.
Qed.

(** Deleting null columns, last one first, never runs out of range. *)
Lemma dropColumns_is_Some nulls (al : profile) :
  Forall (gapAt al) nulls → descending nulls → is_Some (dropColumns nulls al).
Proof.
  unfold dropColumns. revert al.
  induction nulls as [|i nulls IH]; intros al Hgaps Hdesc; simpl; [by eauto|].
  apply Forall_cons in Hgaps as [Hi Hgaps]. destruct Hdesc as [Hlt Hdesc].
  assert (mapM (λ row : list ascii, pop row i ≫= λ '(_, row0), Some row0) al
          = Some (map (delete i) al)) as ->.
  { apply mapM_Some. unfold gapAt in Hi. clear -Hi.
    induction Hi as [|row al (a & Ha & _) _ IH']; simpl; constructor; [|done].
    unfold pop. by rewrite Ha. }
  simpl. apply IH; [|done].
  rewrite Forall_forall in Hgaps, Hlt. apply Forall_forall. intros j Hj.
  specialize (Hgaps j Hj). specialize (Hlt j Hj). unfold gapAt in *.
  apply Forall_forall. intros row' (row & <- & Hrow)%list_elem_of_In%in_map_iff.
  rewrite Forall_forall in Hgaps. rewrite list_lookup_delete_lt by done.
  apply Hgaps. by apply list_elem_of_In.
Qed.

Lemma wellFormed_intro (p : profile) : p ≠ [] → rectangular p → wellFormed p.
Proof. intros Hne [w Hw]. split; [done|]. by eapply rectangular_width. Qed.

Lemma removeRows_count rng (randrange : rng → nat → nat * rng) k (al : profile) g
    rest live seqs g' :
  removeRows rng randrange k al g = Some (rest, live, seqs, g') →
  length seqs = Z.to_nat k.
Proof.
  unfold removeRows, range. intros Hrun.
  apply (forM_seq_inv_Some
    (λ i (a : list (list ascii) * list nat * list (list ascii) * rng),
       length a.1.2 = i)) in Hrun; [done..|].
  intros i [[[al1 live1] seqs1] g1] a' _ Hlen. simpl in *.
  case_guard; [simpl|done]. destruct (randrange g1 (length al1)) as [index g2].
  destruct (pop al1 index) as [[row al2]|]; [simpl|done].
  intros [= <-]. simpl. rewrite length_app. simpl. lia.
Qed.

Section Reinserted.

Variable blosum50 : symbol → symbol → option Z.
Variable al0 : profile.
Hypothesis known : covers blosum50 al0 al0.

(** Re-insertion returns: every call of [alignProfiles] gets a non-empty
    rectangular profile and a bare sequence of known symbols. *)
Lemma reinsert_is_Some d seqs (al : profile) :
  al ≠ [] → rectangular al → within al0 al → within al0 seqs →
  is_Some (reinsert blosum50 d seqs al).
Proof.
  unfold reinsert. revert al.
  induction seqs as [|sq seqs IH]; intros al Hne Hrect Hal Hseqs; simpl; [by eauto|].
  unfold within in Hseqs. simpl in Hseqs. apply Forall_cons in Hseqs as [Hsq Hseqs].
  assert (within al0 [sq]) as Hsq' by (by repeat constructor).
  assert (wellFormed [sq]) as Hwsq by (split; [done|by repeat constructor]).
  pose proof (wellFormed_intro _ Hne Hrect) as Hwal.
  destruct (alignProfiles_run blosum50 al [sq] d Hwal Hwsq
    (covers_within _ _ _ _ known Hal Hsq')) as (f & t & xp & yp & _ & _ & _ & Hrun).
  rewrite Hrun. simpl.
  destruct (alignProfiles_gapped _ _ _ _ _ _ _ (proj2 Hwal) (proj2 Hwsq) Hrun)
    as (Hgx & Hgy & w & Hw).
  inversion Hgy as [|? y0 ? yp' Hg0 Hnil]; subst. inversion Hnil; subst. simpl.
  apply IH; [by destruct xp|by exists w| |done].
  unfold within. rewrite map_app. apply Forall_app. split.
  - replace (map strip xp) with (map strip al); [done|].
    clear -Hgx. induction Hgx as [|row out al xp Hg _ IH']; [done|].
    simpl. by rewrite (strip_gapped _ _ Hg), IH'.
  - simpl. rewrite (strip_gapped _ _ Hg0). by repeat constructor.
Qed.

End Reinserted.

Section Returns.

Variable blosum50 : symbol → symbol → option Z.
Variable exp : float → option float.
Variable rng : Type.
Variable randrange : rng → nat → nat * rng.
Variable random : rng → float * rng.
Variable al0 : profile.

Hypothesis known : covers blosum50 al0 al0.
Hypothesis in_range : inRange randrange.
Hypothesis exp_total : ∀ v, is_Some (exp v).

Lemma within_Permutation (p q : profile) :
  map strip p ≡ₚ map strip q → within al0 q → within al0 p.
Proof. unfold within. by intros ->. Qed.

(** One cycle returns when fewer rows are removed than the alignment has
    and the temperature is not zero. *)
Lemma cycle_is_Some k d m (st : state rng) :
  alignment st ≠ [] → rectangular (alignment st) → within al0 (alignment st) →
  (Z.to_nat k < length (alignment st))%nat →
  PrimFloat.eqb (temperature st) 0 = false →
  is_Some (cycle blosum50 exp rng randrange random k d m st).
Proof.
  intros Hne Hrect Hin Hk Ht. unfold cycle.
  destruct (scoreAlignment_is_Some blosum50 (alignment st) d) as [prevScore ->];
    [by apply wellFormed_intro|by apply (covers_within _ al0)|]. simpl.
  destruct (removeRows_is_Some rng randrange k (alignment st) (gen st) in_range Hk)
    as [[[[rest live] seqs] g] Hrem]. rewrite Hrem. simpl.
  destruct (removeRows_rows _ _ _ _ _ _ _ _ _ Hrem) as (Hperm & Hstrip & Hlen & Hrows).
  pose proof (removeRows_count _ _ _ _ _ _ _ _ _ Hrem) as Hcount.
  assert (rest ≠ []) as Hrest by (intros ->; simpl in Hlen; lia).
  assert (rectangular rest) as Hrrest by (destruct Hrect as [w Hw]; exists w; auto).
  assert (within al0 rest ∧ within al0 seqs) as [Hinr Hins].
  { unfold within in *. rewrite <- Hperm in Hin. apply Forall_app in Hin as [? ?].
    by rewrite (map_strip_fixed _ Hstrip). }
  destruct (nullColumnIndexes_is_Some rest) as [nulls Hnulls];
    [by apply wellFormed_intro|]. rewrite Hnulls. simpl.
  destruct (nullColumnIndexes_nulls _ _ Hnulls) as [Hgaps Hdesc].
  destruct (dropColumns_is_Some nulls rest Hgaps Hdesc) as [rest' Hdrop].
  rewrite Hdrop. simpl.
  pose proof (dropColumns_rows _ _ _ Hgaps Hdesc Hdrop) as Hdropped.
  assert (map strip rest' = map strip rest) as Hsame.
  { clear -Hdropped. induction Hdropped as [|row row' ? ? [Hs _] _ IH]; [done|].
    simpl. by rewrite Hs, IH. }
  assert (rest' ≠ []) as Hrest'.
  { apply Forall2_length in Hdropped. intros ->. by destruct rest. }
  assert (rectangular rest') as Hrrest'.
  { destruct Hrrest as [w Hw]. exists (w - length nulls)%nat.
    eapply Forall2_Forall_r; [exact Hdropped|].
    eapply Forall_impl; [exact Hw|]. intros row Hrow row' [_ Hl]. simpl in *. lia. }
  destruct (reinsert_is_Some blosum50 al0 known d seqs rest') as [candidate Hre];
    [done..| |done|].
  { unfold within. by rewrite Hsame. }
  rewrite Hre. simpl.
  destruct (reinsert_rows blosum50 d seqs rest' candidate Hrrest' Hre) as [Hrc Hmap].
  assert (candidate ≠ []) as Hcand.
  { intros ->. simpl in Hmap. destruct rest'; [done|]. discriminate. }
  assert (within al0 candidate) as Hinc.
  { unfold within. rewrite Hmap, Hsame. apply Forall_app. split; [done|].
    exact Hins. }
  destruct (scoreAlignment_is_Some blosum50 candidate d) as [newScore ->];
    [by apply wellFormed_intro|by apply (covers_within _ al0)|]. simpl.
  destruct (newScore <=? prevScore); simpl; [|by eauto].
  rewrite option_guard_True by done. simpl.
  destruct (exp_total (PrimFloat.div (Z2float (newScore - prevScore)) (temperature st)))
    as [p ->]. simpl.
  destruct (random g) as [u g2]. by destruct (PrimFloat.leb u p); simpl; eauto.
Qed.

Lemma cycle_temperature k d m (st st' : state rng) :
  cycle blosum50 exp rng randrange random k d m st = Some st' →
  temperature st' = PrimFloat.mul (temperature st) m.
Proof.
  unfold cycle. intros H.
  destruct (scoreAlignment blosum50 (alignment st) d); [simpl in H|done].
  destruct (removeRows _ _ _ _ _) as [[[[rest live] seqs] g]|]; [simpl in H|done].
  destruct (nullColumnIndexes rest) as [nulls|]; [simpl in H|done].
  destruct (dropColumns nulls rest) as [rest'|]; [simpl in H|done].
  destruct (reinsert blosum50 _ seqs rest') as [candidate|]; [simpl in H|done].
  destruct (scoreAlignment blosum50 candidate _); [simpl in H|done].
  destruct (if _ <=? _ then _ else _) as [[[pp ps] g2]|]; [simpl in H|done].
  by simplify_eq.
Qed.

Lemma cooled_S t m c : cooled (PrimFloat.mul t m) m c = cooled t m (S c).
Proof. unfold cooled. by rewrite Nat.iter_succ_r. Qed.

(** The refinement loop returns when none of its temperatures is zero. *)
Lemma refine_is_Some n k d m (st : state rng) :
  alignment st ≠ [] → rectangular (alignment st) → within al0 (alignment st) →
  (Z.to_nat k < length (alignment st))%nat →
  (∀ c, (c < n)%nat → PrimFloat.eqb (cooled (temperature st) m c) 0 = false) →
  ∃ st', refine blosum50 exp rng randrange random n k d m st = Some st' ∧
         alignment st' ≠ [] ∧ rectangular (alignment st') ∧
         within al0 (alignment st').
Proof.
  revert st. induction n as [|n IH]; intros st Hne Hrect Hin Hk Ht; cbn [refine].
  - by exists st.
  - destruct (7 <=? counter st)%nat; [by exists st|].
    destruct (cycle_is_Some k d m st Hne Hrect Hin Hk (Ht 0%nat ltac:(lia)))
      as [st1 Hcycle]. rewrite Hcycle. simpl.
    destruct (cycle_rows _ _ _ _ _ _ _ _ _ _ Hcycle Hrect) as (Hrect1 & Hlen1 & Hperm1).
    pose proof (cycle_temperature _ _ _ _ _ Hcycle) as Ht1.
    apply IH; [|done| |congruence|].
    + intros Hnil. rewrite Hnil in Hlen1. by destruct (alignment st).
    + by eapply within_Permutation.
    + intros c Hc. rewrite Ht1, cooled_S. apply Ht. lia.
Qed.

End Returns.

(** [iterate] returns, with the rows of its input, when one row is
    realigned per cycle ([y = 0]) on a non-empty rectangular alignment of
    at least two rows whose symbols the substitution matrix knows, the
    generator answers in range, [math.exp] does not overflow, the sizing
    loop ends after [n] steps and none of the [n] cycle temperatures is
    zero. *)
Lemma iterate_returns blosum50 exp rng randrange random
    fuel (al : profile) t m d (g : rng) n t1 :
  wellFormed al → (2 ≤ length al)%nat → covers blosum50 al al →
  inRange randrange → (∀ v, is_Some (exp v)) →
  coolingSteps fuel t (if PrimFloat.leb 1 m then defaultCooling else m) 0
    = Some (n, t1) →
  (∀ c, (c < n)%nat →
     PrimFloat.eqb
       (cooled t1 (if PrimFloat.leb 1 m then defaultCooling else m) c) 0 = false) →
  ∃ s al',
    iterate blosum50 exp rng randrange random fuel al t m 0 d g = Some (s, al') ∧
    length al' = length al ∧ map strip al' ≡ₚ map strip al.
Proof.
  intros Hwf Hlen Hcov Hrange Hexp Hcool Htemp. unfold iterate, start.
  assert (numRealignedSequences (length al) 0 = Some 1) as -> by reflexivity.
  simpl. rewrite Hcool. simpl.
  assert (rectangular al) as Hrect by (destruct Hwf as [_ ?]; by eexists).
  destruct (refine_is_Some blosum50 exp rng randrange random al Hcov Hrange Hexp
    n 1 d (if PrimFloat.leb 1 m then defaultCooling else m) (State al 0 t1 None g))
    as (st & Hrun & Hne & Hrect' & Hin); simpl; try done.
  - by destruct Hwf.
  - apply within_refl.
  - rewrite Hrun. simpl.
    destruct (scoreAlignment_is_Some blosum50 (alignment st) d) as [s ->];
      [by apply wellFormed_intro|by apply (covers_within _ al)|]. simpl.
    destruct (refine_rows _ _ _ _ _ _ _ _ _ _ _ Hrun Hrect) as (_ & ? & ?).
    by exists s, (alignment st).
Qed.

Lemma Example_randrange_inRange : inRange Example.randrange.
Proof. intros g n Hn. simpl. apply Nat.mod_upper_bound. lia. Qed.

(** The conditions of [iterate_returns] hold for the scripted generator
    and the alignment ["AW", "A-", "-W"] cooled from 4 by 0.5. *)
Example iterate_returns_example g :
  ∃ s al',
    Example.iterate 10 (map Example.seq_of ["AW"; "A-"; "-W"]%string) 4 0.5 0 8 g
      = Some (s, al') ∧
    length al' = 3%nat ∧
    map strip al' ≡ₚ map strip (map Example.seq_of ["AW"; "A-"; "-W"]%string).
Proof.
  unfold Example.iterate.
  change 3%nat with (length (map Example.seq_of ["AW"; "A-"; "-W"]%string)).
  apply (iterate_returns Example.blosum50 Example.exp Example.rng
    Example.randrange Example.random 10
    (map Example.seq_of ["AW"; "A-"; "-W"]%string) 4 0.5 8 g 2 1).
  - solve_wellFormed.
  - simpl. lia.
  - solve_covers.
  - exact Example_randrange_inRange.
  - intros v. unfold Example.exp. eauto.
  - reflexivity.
  - intros c Hc. cases_below c; reflexivity.
Qed.

(** * Further properties of the code *)

(** ** The shape of what [alignProfiles] returns *)

(** The traceback adds between [max i j] and [i + j] columns. *)
Lemma traceback_columns n x y t i j xp yp xp' yp' w :
  traceback n x y t i j xp yp = Some (xp', yp') →
  Forall (λ row, length row = w) (xp ++ yp) →
  ∃ w', Forall (λ row, length row = w') (xp' ++ yp') ∧
        (w + i `max` j ≤ w' ≤ w + i + j)%nat.
Proof.
  revert i j xp yp w. induction n as [|n IH]; intros i j xp yp w; simpl.
  - destruct (i + j =? 0)%nat eqn:E; [|done]. apply Nat.eqb_eq in E.
    intros [= <- <-] Hw. exists w. split; [done|lia].
  - destruct (i + j =? 0)%nat eqn:E.
    { apply Nat.eqb_eq in E. intros [= <- <-] Hw. exists w. split; [done|lia]. }
    intros Hrun Hw. apply Forall_app in Hw as [Hwx Hwy].
    destruct (mget t i j) as [[| | |]|]; simplify_option_eq;
      (eapply (IH _ _ _ _ (S w)) in Hrun;
        [|apply Forall_app; split; by apply Forall_push]);
      destruct Hrun as (w' & Hw' & Hb); exists w'; (split; [done|lia]).
Qed.

(** X1. Whatever [alignProfiles] returns has one column count [w] for all
    rows, at least the larger of the two input column counts and at most
    their sum. *)
Theorem alignProfiles_column_count blosum50 (x y : profile) (d : Z) s xp yp :
  alignProfiles blosum50 x y d = Some (s, xp, yp) →
  ∃ w, Forall (λ row, length row = w) (xp ++ yp) ∧
       (width x `max` width y ≤ w ≤ width x + width y)%nat.
Proof.
  intros (x0 & y0 & f & t & Hx0 & Hy0 & _ & Htb & _)%alignProfiles_Some.
  assert (width x = length x0) as -> by (unfold width; by rewrite Hx0).
  assert (width y = length y0) as -> by (unfold width; by rewrite Hy0).
  destruct (traceback_columns _ _ _ _ _ _ _ _ _ _ 0%nat Htb) as (w & Hw & Hb).
  - apply Forall_app. split; by apply Forall_replicate.
  - exists w. split; [done|lia].
Qed.

Lemma alignProfiles_column_count_witness :
  alignProfiles Example.blosum50 [["A"; "W"]; ["A"; "-"]]%char [["W"]]%char 8
    = Some (-1, [["A"; "W"]; ["A"; "-"]]%char, [["-"; "W"]]%char) ∧
  ∃ w, Forall (λ row, length row = w)
         ([["A"; "W"]; ["A"; "-"]] ++ [["-"; "W"]])%char ∧
       (2 `max` 1 ≤ w ≤ 2 + 1)%nat.
Proof.
  assert (alignProfiles Example.blosum50 [["A"; "W"]; ["A"; "-"]]%char
    [["W"]]%char 8 = Some (-1, [["A"; "W"]; ["A"; "-"]]%char, [["-"; "W"]]%char))
    as Hrun by (by vm_compute).
  split; [exact Hrun|].
  exact (alignProfiles_column_count _ _ _ _ _ _ _ Hrun).
Defined.

(** The traceback reads every column below [i] of [x] and below [j] of [y]. *)
Lemma traceback_reads n x y t i j xp yp r :
  traceback n x y t i j xp yp = Some r →
  (∀ c, (c < i)%nat → is_Some (col x c)) ∧ (∀ c, (c < j)%nat → is_Some (col y c)).
Proof.
  revert i j xp yp. induction n as [|n IH]; intros i j xp yp; simpl.
  - destruct (i + j =? 0)%nat eqn:E; [|done]. apply Nat.eqb_eq in E.
    intros _. split; intros; lia.
  - destruct (i + j =? 0)%nat eqn:E.
    { apply Nat.eqb_eq in E. intros _. split; intros; lia. }
    intros Hrun.
    destruct (mget t i j) as [[| | |]|]; simplify_option_eq;
      apply IH in Hrun as [Hx Hy]; split; intros c Hc;
      try (destruct (decide (c = i - 1)%nat) as [->|]; [by eauto|apply Hx; lia]);
      try (destruct (decide (c = j - 1)%nat) as [->|]; [by eauto|apply Hy; lia]);
      (apply Hx || apply Hy); lia.
Qed.

Lemma col_lengths (p : profile) c : is_Some (col p c) → Forall (λ row, (c < length row)%nat) p.
Proof.
  intros [v Hv%col_Some]. induction Hv as [|row a p v Ha _ IH]; constructor; [|done].
  by eapply lookup_lt_Some.
Qed.

Lemma alignProfiles_row_lengths blosum50 (x y : profile) (d : Z) r :
  alignProfiles blosum50 x y d = Some r →
  Forall (λ row, (width x ≤ length row)%nat) x ∧
  Forall (λ row, (width y ≤ length row)%nat) y.
Proof.
  destruct r as [[s xp] yp].
  intros (x0 & y0 & f & t & Hx0 & Hy0 & _ & Htb & _)%alignProfiles_Some.
  assert (width x = length x0) as -> by (unfold width; by rewrite Hx0).
  assert (width y = length y0) as -> by (unfold width; by rewrite Hy0).
  destruct (traceback_reads _ _ _ _ _ _ _ _ _ Htb) as [Hx Hy]. split.
  - destruct (length x0) as [|w]; [apply Forall_true; intros; lia|].
    eapply Forall_impl; [apply (col_lengths x w), Hx; lia|]. intros; simpl in *; lia.
  - destruct (length y0) as [|w]; [apply Forall_true; intros; lia|].
    eapply Forall_impl; [apply (col_lengths y w), Hy; lia|]. intros; simpl in *; lia.
Qed.

(** X2. [alignProfiles] returns only for two profiles that have a row each
    and no row shorter than their first row: an empty profile and a short
    row raise IndexError. *)
Theorem alignProfiles_returns_only_if blosum50 (x y : profile) (d : Z) r :
  alignProfiles blosum50 x y d = Some r →
  x ≠ [] ∧ y ≠ [] ∧
  Forall (λ row, (width x ≤ length row)%nat) x ∧
  Forall (λ row, (width y ≤ length row)%nat) y.
Proof.
  intros Hrun. pose proof (alignProfiles_row_lengths _ _ _ _ _ Hrun) as [Hx Hy].
  destruct r as [[s xp] yp].
  destruct (alignProfiles_Some _ _ _ _ _ _ _ Hrun) as (x0 & y0 & _ & _ & Hx0 & Hy0 & _).
  split; [by intros ->|]. split; [by intros ->|]. done.
Qed.

Lemma alignProfiles_returns_only_if_witness :
  alignProfiles Example.blosum50 [["A"; "W"]; ["A"; "-"]]%char [["W"]]%char 8
    = Some (-1, [["A"; "W"]; ["A"; "-"]]%char, [["-"; "W"]]%char) ∧
  alignProfiles Example.blosum50 [["A"; "W"]; ["A"]]%char [["W"]]%char 8 = None ∧
  ([["A"; "W"]; ["A"; "-"]]%char ≠ [] ∧ [["W"]]%char ≠ [] ∧
   Forall (λ row, (width [["A"; "W"]; ["A"; "-"]]%char ≤ length row)%nat)
     [["A"; "W"]; ["A"; "-"]]%char ∧
   Forall (λ row, (width [["W"]]%char ≤ length row)%nat) [["W"]]%char).
Proof.
  split; [by vm_compute|]. split; [by vm_compute|].
  apply (alignProfiles_returns_only_if Example.blosum50 _ _ 8
    (-1, [["A"; "W"]; ["A"; "-"]]%char, [["-"; "W"]]%char)).
  by vm_compute.
Defined.

Lemma col_take (p : profile) w c :
  (c < w)%nat → col (map (take w) p) c = col p c.
Proof.
  intros Hc. unfold col. induction p as [|row p IH]; [done|].
  simpl. rewrite lookup_take_lt by done. by rewrite IH.
Qed.

(** The traceback looks at the first [i] columns of [x] and the first [j]
    columns of [y] only. *)
Lemma traceback_take n x y t wx wy i j xp yp :
  (i ≤ wx)%nat → (j ≤ wy)%nat →
  traceback n (map (take wx) x) (map (take wy) y) t i j xp yp =
  traceback n x y t i j xp yp.
Proof.
  revert i j xp yp. induction n as [|n IH]; intros i j xp yp Hi Hj; simpl; [done|].
  destruct (i + j =? 0)%nat; [done|].
  destruct (mget t i j) as [[| | |]|]; simpl; try done.
  - destruct (decide (1 ≤ j)%nat); [|by rewrite !option_guard_False].
    rewrite !option_guard_True by done. simpl.
    rewrite col_take by lia. destruct (col y (j - 1)); simpl; [|done].
    rewrite length_map. apply IH; lia.
  - destruct (decide (1 ≤ i ∧ 1 ≤ j)%nat); [|by rewrite !option_guard_False].
    rewrite !option_guard_True by done. simpl.
    rewrite !col_take by lia.
    destruct (col x (i - 1)); simpl; [|done].
    destruct (col y (j - 1)); simpl; [|done]. apply IH; lia.
  - destruct (decide (1 ≤ i)%nat); [|by rewrite !option_guard_False].
    rewrite !option_guard_True by done. simpl.
    rewrite col_take by lia. destruct (col x (i - 1)); simpl; [|done].
    rewrite length_map. apply IH; lia.
  - destruct (decide (1 ≤ j)%nat); [|by rewrite !option_guard_False].
    rewrite !option_guard_True by done. simpl.
    rewrite col_take by lia. destruct (col y (j - 1)); simpl; [|done].
    rewrite length_map. apply IH; lia.
Qed.

Lemma Forall2_map_l {A B C} (f : A → B) (P : B → C → Prop) l k :
  Forall2 P (map f l) k → Forall2 (λ a c, P (f a) c) l k.
Proof.
  revert k. induction l as [|a l IH]; intros k H; inversion H; subst;
    constructor; auto.
Qed.

(** X3. Every row that [alignProfiles] returns is the input row at the same
    position, cut to the length of the first row of its profile, with gap
    symbols inserted: what a row holds beyond the length of the first row
    is dropped without an error. *)
Theorem alignProfiles_cuts_rows blosum50 (x y : profile) (d : Z) s xp yp :
  alignProfiles blosum50 x y d = Some (s, xp, yp) →
  Forall2 (λ row out, gapped (take (width x) row) out) x xp ∧
  Forall2 (λ row out, gapped (take (width y) row) out) y yp.
Proof.
  intros Hrun.
  destruct (alignProfiles_row_lengths blosum50 x y d _ Hrun) as [Hlx Hly].
  destruct (alignProfiles_Some _ _ _ _ _ _ _ Hrun)
    as (x0 & y0 & f & t & Hx0 & Hy0 & _ & Htb & _).
  assert (width x = length x0) as Hwx by (unfold width; by rewrite Hx0).
  assert (width y = length y0) as Hwy by (unfold width; by rewrite Hy0).
  rewrite <- Hwx, <- Hwy in Htb.
  rewrite <- (traceback_take _ _ _ _ (width x) (width y)) in Htb by done.
  destruct (traceback_gapped _ _ _ _ _ _ _ _ _ _ Htb) as [Hgx Hgy].
  - rewrite <- (length_map (take (width x)) x). apply gapped_start.
    apply Forall_forall. intros row' (row & <- & Hrow)%list_elem_of_In%in_map_iff.
    rewrite Forall_forall in Hlx. specialize (Hlx row (proj2 (list_elem_of_In _ _) Hrow)).
    rewrite length_take. simpl in Hlx. lia.
  - rewrite <- (length_map (take (width y)) y). apply gapped_start.
    apply Forall_forall. intros row' (row & <- & Hrow)%list_elem_of_In%in_map_iff.
    rewrite Forall_forall in Hly. specialize (Hly row (proj2 (list_elem_of_In _ _) Hrow)).
    rewrite length_take. simpl in Hly. lia.
  - split; by apply Forall2_map_l.
Qed.

Lemma alignProfiles_cuts_rows_witness :
  alignProfiles Example.blosum50 [["A"]; ["A"; "W"]]%char [["A"]]%char 8
    = Some (10, [["A"]; ["A"]]%char, [["A"]]%char) ∧
  Forall2 (λ row out, gapped (take 1 row) out)
    [["A"]; ["A"; "W"]]%char [["A"]; ["A"]]%char ∧
  Forall2 (λ row out, gapped (take 1 row) out) [["A"]]%char [["A"]]%char.
Proof.
  assert (alignProfiles Example.blosum50 [["A"]; ["A"; "W"]]%char [["A"]]%char 8
    = Some (10, [["A"]; ["A"]]%char, [["A"]]%char)) as Hrun by (by vm_compute).
  split; [exact Hrun|].
  exact (alignProfiles_cuts_rows _ _ _ _ _ _ _ Hrun).
Defined.

(** ** A profile without columns *)

Lemma push_gaps (yp : profile) n :
  n = length yp → push (replicate n gap) yp = map (cons gap) yp.
Proof. intros ->. induction yp as [|row yp IH]; simpl; [done|]. by rewrite <- IH. Qed.

Lemma push_take (x xp : profile) i cx :
  col x i = Some cx → length xp = length x →
  zip_with app (map (take i) x) (push cx xp) = zip_with app (map (take (S i)) x) xp.
Proof.
  rewrite col_Some. intros Hcx. revert xp.
  induction Hcx as [|row a x cx Ha _ IH]; intros [|out xp]; simpl; try done.
  intros [= Hlen]. rewrite IH by done. f_equal.
  rewrite (take_S_r _ _ _ Ha), <- app_assoc. done.
Qed.

(** With no column left in [y] the traceback moves up the first column of
    the matrix: it copies the columns of [x] and fills [y] with gaps. *)
Lemma traceback_up blosum50 d x y t n i xp yp :
  (∀ i', (i' ≤ width x)%nat → mget t i' 0 = Some (weights blosum50 x y d i' 0).1) →
  Forall (λ row, length row = width x) x →
  length xp = length x → length yp = length y →
  (i ≤ width x)%nat → (i ≤ n)%nat →
  traceback n x y t i 0 xp yp =
    Some (zip_with app (map (take i) x) xp, map (app (replicate i gap)) yp).
Proof.
  intros Ht Hrect. revert n xp yp.
  induction i as [|i IH]; intros n xp yp Hlx Hly Hi Hn.
  - destruct n; simpl; f_equal; f_equal.
    + clear -Hlx. revert xp Hlx. induction x as [|row x IH]; intros [|out xp]; try done.
      simpl. intros [= Hl]. by rewrite <- IH.
    + by rewrite map_id.
    + clear -Hlx. revert xp Hlx. induction x as [|row x IH]; intros [|out xp]; try done.
      simpl. intros [= Hl]. by rewrite <- IH.
    + by rewrite map_id.
  - destruct n as [|n]; [lia|]. cbn [traceback].
    replace (S i + 0 =? 0)%nat with false by done.
    rewrite Ht by lia. rewrite weights_S_0. cbn [fst mbind option_bind].
    rewrite option_guard_True by lia. cbn [mbind option_bind].
    replace (S i - 1)%nat with i by lia.
    destruct (col_is_Some x (width x) i Hrect ltac:(lia)) as [cx Hcx].
    rewrite Hcx. cbn [mbind option_bind].
    assert (length (push cx xp) = length x) as Hlx'.
    { rewrite length_push; [done|]. rewrite (length_col _ _ _ Hcx). done. }
    assert (length (push (replicate (length y) gap) yp) = length y) as Hly'.
    { rewrite length_push; [done|]. by rewrite length_replicate. }
    rewrite (IH n _ _ Hlx' Hly') by lia.
    rewrite (push_take _ _ _ _ Hcx Hlx), push_gaps by done.
    rewrite map_map. do 2 f_equal. apply map_ext. intros row.
    by rewrite <- replicate_snoc, <- app_assoc.
Qed.

(** X4. Aligning a non-empty rectangular profile [x] with a profile [y]
    whose rows are empty returns [x] unchanged, every row of [y] as a row
    of gaps, and the score [-lenX * d * len(y)]; no substitution score is
    looked up. *)
Theorem alignProfiles_no_columns blosum50 (x y : profile) (d : Z) :
  wellFormed x → y ≠ [] → width y = 0%nat →
  alignProfiles blosum50 x y d =
    Some (- Z.of_nat (width x) * d * Z.of_nat (length y), x,
          replicate (length y) (replicate (width x) gap)).
Proof.
  intros Hwx Hy Hwy.
  destruct (fill_weights blosum50 x y d (width x) 0) as (f & t & Hfill & Hft);
    [intros; lia|].
  destruct (wellFormed_first _ Hwx) as (x0 & Hx0 & Hlx0).
  destruct y as [|y0 y']; [done|]. unfold width in Hwy. simpl in Hwy.
  unfold alignProfiles. rewrite Hx0. simpl. rewrite Hwy, <- Hlx0, Hfill. simpl.
  rewrite (traceback_up blosum50 d x (y0 :: y') t);
    [|intros; by apply Hft|by apply Hwx|simpl; by rewrite ?length_replicate
     |simpl; by rewrite ?length_replicate|lia|lia].
  simpl. destruct (Hft (width x) 0%nat) as [-> _]; [lia..|]. simpl.
  f_equal. f_equal; [f_equal|].
  - destruct (width x); [by rewrite weights_0|by rewrite weights_S_0].
  - destruct Hwx as [_ Hrect]. clear -Hrect. generalize dependent (width x).
    intros w Hrect. induction Hrect as [|row x Hrow _ IH]; simpl; [done|].
    rewrite IH, app_nil_r, take_ge by lia. done.
  - rewrite app_nil_r. f_equal.
    clear. induction y' as [|? ? IH]; simpl; [done|]. by rewrite IH, app_nil_r.
Qed.

Lemma alignProfiles_no_columns_witness :
  alignProfiles Example.blosum50 [["A"; "W"]; ["A"; "-"]]%char [[]] 8 =
    Some (-16, [["A"; "W"]; ["A"; "-"]]%char, [["-"; "-"]]%char).
Proof.
  apply (alignProfiles_no_columns Example.blosum50
    [["A"; "W"]; ["A"; "-"]]%char [[]] 8); [solve_wellFormed|done|done].
Defined.

(** ** The scoring functions as sums of pairs *)

(** A loop that adds a value per element adds their sum. *)
Lemma forM_sum {B} (l : list B) (val : B → Z) body total :
  (∀ total b, b ∈ l → body total b = Some (total + val b)) →
  forM l total body = Some (total + sumZ val l).
Proof.
  revert total. induction l as [|b l IH]; intros total Hbody; simpl.
  - f_equal. lia.
  - rewrite Hbody by left. simpl. rewrite IH by (intros; apply Hbody; by right).
    f_equal. lia.
Qed.

Lemma sumZ_seq_shift (g : nat → Z) s n :
  sumZ g (seq (S s) n) = sumZ (λ i, g (S i)) (seq s n).
Proof.
  revert s. induction n as [|n IH]; intros s; simpl; [done|]. by rewrite IH.
Qed.

Lemma sumZ_get (g : symbol → Z) (c : list symbol) :
  sumZ (λ k, g (get c k)) (seq 0 (length c)) = sumZ g c.
Proof.
  induction c as [|a c IH]; simpl; [done|].
  rewrite sumZ_seq_shift. unfold get in *. simpl. by rewrite IH.
Qed.

Lemma sumZ_cons {A} (g : A → Z) a l : sumZ g (a :: l) = g a + sumZ g l.
Proof. done. Qed.

(** The loops over [j < k] of [scoreAlignment] visit the pairs of a column. *)
Lemma pairs_index (f : symbol → symbol → Z) (c : list symbol) :
  sumZ (λ j, sumZ (λ k, f (get c j) (get c k))
                  (seq (j + 1) (length c - (j + 1))))
       (seq 0 (length c - 1)) = pairsSum f c.
Proof.
  induction c as [|a c IH]; [done|].
  destruct c as [|b c]; [done|].
  change (seq 0 (length (a :: b :: c) - 1)) with (0%nat :: seq 1 (length c)).
  change (pairsSum f (a :: b :: c))
    with (sumZ (f a) (b :: c) + pairsSum f (b :: c)).
  rewrite sumZ_cons. f_equal.
  - rewrite <- (sumZ_get (f a) (b :: c)).
    change (seq (0 + 1) (length (a :: b :: c) - (0 + 1)))
      with (seq 1 (length (b :: c))).
    by rewrite sumZ_seq_shift.
  - rewrite <- IH.
    replace (length (b :: c) - 1)%nat with (length c) by (simpl; lia).
    rewrite sumZ_seq_shift. apply sumZ_ext. intros j _.
    change (seq (S j + 1) (length (a :: b :: c) - (S j + 1)))
      with (seq (S (j + 1)) (length (b :: c) - (j + 1))).
    by rewrite sumZ_seq_shift.
Qed.

Lemma length_column al i : length (column al i) = length al.
Proof. unfold column. apply length_map. Qed.

Lemma get_column (al : profile) i j row a :
  al !! j = Some row → row !! i = Some a → get (column al i) j = a.
Proof.
  intros Hrow Ha. revert j Hrow.
  induction al as [|r al IH]; intros [|j] Hrow; simplify_eq/=.
  - unfold get. simpl. unfold get. by rewrite Ha.
  - by apply IH.
Qed.

(** [scoreAlignment] adds the sums of pairs of the columns. *)
Lemma scoreAlignment_pairs blosum50 (al : profile) g :
  wellFormed al → covers blosum50 al al →
  scoreAlignment blosum50 al g =
    Some (sumZ (λ i, pairsSum (pairValue blosum50 (flip g)) (column al i))
               (range (width al))).
Proof.
  intros Hwf Hcov. unfold scoreAlignment.
  destruct (wellFormed_first _ Hwf) as (row0 & -> & Hrow0). simpl.
  destruct Hwf as [_ Hrect]. rewrite Forall_forall in Hrect.
  rewrite <- Hrow0.
  rewrite (forM_sum _ (λ i, pairsSum (pairValue blosum50 (flip g)) (column al i)));
    [done|].
  intros total i Hi%elem_of_seq.
  rewrite <- pairs_index, length_column.
  apply forM_sum. intros total' j Hj%elem_of_seq.
  apply forM_sum. intros total'' k Hk%elem_of_seq.
  destruct (lookup_lt_is_Some_2 al j) as [rj Hrj]; [lia|].
  destruct (lookup_lt_is_Some_2 al k) as [rk Hrk]; [lia|].
  destruct (lookup_lt_is_Some_2 rj i) as [a Ha].
  { rewrite (Hrect rj) by (by eapply list_elem_of_lookup_2). lia. }
  destruct (lookup_lt_is_Some_2 rk i) as [b Hb].
  { rewrite (Hrect rk) by (by eapply list_elem_of_lookup_2). lia. }
  rewrite Hrj. simpl. rewrite Ha. simpl. rewrite Hrk. simpl. rewrite Hb. simpl.
  rewrite (get_column _ _ _ _ _ Hrj Ha), (get_column _ _ _ _ _ Hrk Hb).
  apply pairTerm_value.
  unfold covers in Hcov. rewrite Forall_forall in Hcov.
  specialize (Hcov a (lookup_elem_of_concat _ _ _ _ _ Hrj Ha)).
  rewrite Forall_forall in Hcov. apply Hcov. by eapply lookup_elem_of_concat.
Qed.

Lemma sumZ_Permutation {A} (g : A → Z) l l' : l ≡ₚ l' → sumZ g l = sumZ g l'.
Proof.
  induction 1 as [|a l l' _ IH|a b l|l l' l'' _ IH1 _ IH2]; simpl;
    [done|by rewrite IH|lia|congruence].
Qed.

Lemma pairsSum_Permutation {A} (f : A → A → Z) l l' :
  (∀ a b, f a b = f b a) → l ≡ₚ l' → pairsSum f l = pairsSum f l'.
Proof.
  intros Hf. induction 1 as [|a l l' Hl IH|a b l|l l' l'' _ IH1 _ IH2]; simpl.
  - done.
  - by rewrite IH, (sumZ_Permutation _ _ _ Hl).
  - rewrite (Hf b a). lia.
  - congruence.
Qed.

Lemma pairsSum_app {A} (f : A → A → Z) l1 l2 :
  pairsSum f (l1 ++ l2) =
  pairsSum f l1 + pairsSum f l2 + sumZ (λ a, sumZ (f a) l2) l1.
Proof.
  induction l1 as [|a l1 IH]; simpl; [lia|]. rewrite IH, sumZ_app. lia.
Qed.

Lemma wellFormed_Permutation (al al' : profile) :
  wellFormed al → al' ≡ₚ al → wellFormed al' ∧ width al' = width al.
Proof.
  intros [Hne Hrect] Hperm.
  assert (Forall (λ row, length row = width al) al') as Hrect' by (by rewrite Hperm).
  assert (al' ≠ []) as Hne'.
  { intros ->. by apply Permutation_nil_l in Hperm. }
  assert (width al' = width al) as Hw.
  { destruct al' as [|row al']; [done|]. by apply Forall_cons in Hrect' as [? _]. }
  split; [|done]. split; [done|]. by rewrite Hw.
Qed.

Lemma covers_Permutation blosum50 (al al' : profile) :
  covers blosum50 al al → al' ≡ₚ al → covers blosum50 al' al'.
Proof.
  intros Hcov Hperm. apply (covers_within _ al); [done|..];
    (eapply within_Permutation; [by rewrite Hperm|apply within_refl]).
Qed.

(** X5. The score of an alignment does not depend on the order of its
    rows, for a symmetric substitution matrix that knows the symbols of a
    non-empty rectangular alignment. *)
Theorem scoreAlignment_row_order blosum50 (al al' : profile) (g : Z) :
  symmetric blosum50 → wellFormed al → covers blosum50 al al → al' ≡ₚ al →
  scoreAlignment blosum50 al' g = scoreAlignment blosum50 al g.
Proof.
  intros Hsym Hwf Hcov Hperm.
  destruct (wellFormed_Permutation _ _ Hwf Hperm) as [Hwf' Hw].
  rewrite !scoreAlignment_pairs by eauto using covers_Permutation.
  rewrite Hw. f_equal. apply sumZ_ext. intros i _.
  apply pairsSum_Permutation; [intros a b; by apply pairValue_swap|].
  unfold column. by apply Permutation_map.
Qed.

Lemma scoreAlignment_row_order_witness :
  scoreAlignment Example.blosum50 [["A"; "-"]; ["-"; "W"]; ["A"; "W"]]%char 8 =
  scoreAlignment Example.blosum50 [["A"; "W"]; ["A"; "-"]; ["-"; "W"]]%char 8.
Proof.
  apply scoreAlignment_row_order.
  - exact Example_blosum50_symmetric.
  - solve_wellFormed.
  - solve_covers.
  - symmetry. apply (Permutation_cons_append [_; _]).
Defined.

Lemma col_column p i c : col p i = Some c → column p i = c.
Proof.
  rewrite col_Some. unfold column, get.
  induction 1 as [|row a p c Ha _ IH]; simpl; [done|]. by rewrite Ha, IH.
Qed.

Lemma covers_app_inv blosum50 (x y : profile) :
  covers blosum50 (x ++ y) (x ++ y) →
  covers blosum50 x x ∧ covers blosum50 y y ∧ covers blosum50 x y.
Proof.
  unfold covers. rewrite concat_app, Forall_app. intros [Hx Hy].
  split_and!; (eapply Forall_impl; [eassumption|]); intros a Ha;
    apply Forall_app in Ha; tauto.
Qed.

Lemma wellFormed_app (x y : profile) :
  wellFormed x → wellFormed y → width x = width y →
  wellFormed (x ++ y) ∧ width (x ++ y) = width x.
Proof.
  intros [Hne Hx] [_ Hy] Hw.
  assert (width (x ++ y) = width x) as Hwxy by (by destruct x).
  split; [|done]. split; [by destruct x|].
  rewrite Hwxy. apply Forall_app. split; [done|]. by rewrite Hw.
Qed.

(** X6. Merging two alignments of one width adds up their scores and the
    cross scores of their columns: the score of [x + y] is the score of
    [x], plus the score of [y], plus [scoreColumns(x, y, i, i)] summed over
    the columns [i]. *)
Theorem scoreAlignment_merge blosum50 (x y : profile) (g : Z) :
  wellFormed x → wellFormed y → width x = width y →
  covers blosum50 (x ++ y) (x ++ y) →
  ∃ (sx sy : Z) (cross : nat → Z),
    scoreAlignment blosum50 x g = Some sx ∧
    scoreAlignment blosum50 y g = Some sy ∧
    (∀ i, (i < width x)%nat → scoreColumns blosum50 x y i i g = Some (cross i)) ∧
    scoreAlignment blosum50 (x ++ y) g =
      Some (sx + sy + sumZ cross (range (width x))).
Proof.
  intros Hx Hy Hw Hcov.
  destruct (covers_app_inv _ _ _ Hcov) as (Hcx & Hcy & Hcxy).
  destruct (wellFormed_app _ _ Hx Hy Hw) as [Hxy Hwxy].
  eexists _, _, (λ i, crossSum blosum50 (flip g) (column x i) (column y i)).
  split; [by apply scoreAlignment_pairs|].
  split; [by apply scoreAlignment_pairs|].
  split.
  - intros i Hi.
    destruct (col_is_Some _ _ _ (proj2 Hx) Hi) as [cx Hcolx].
    destruct (col_is_Some y (width x) i) as [cy Hcoly]; [rewrite Hw; apply Hy|done|].
    rewrite (col_column _ _ _ Hcolx), (col_column _ _ _ Hcoly).
    eapply scoreColumns_crossSum; eauto using covers_cols.
  - rewrite scoreAlignment_pairs by done. rewrite Hwxy, <- Hw, <- !sumZ_plus.
    f_equal. apply sumZ_ext. intros i _. unfold column at 1.
    rewrite map_app. fold (column x i). fold (column y i).
    by rewrite pairsSum_app.
Qed.

Lemma scoreAlignment_merge_witness :
  ∃ (sx sy : Z) (cross : nat → Z),
    scoreAlignment Example.blosum50 [["A"; "W"]; ["A"; "-"]]%char 8 = Some sx ∧
    scoreAlignment Example.blosum50 [["-"; "W"]]%char 8 = Some sy ∧
    (∀ i, (i < 2)%nat →
      scoreColumns Example.blosum50 [["A"; "W"]; ["A"; "-"]]%char [["-"; "W"]]%char
        i i 8 = Some (cross i)) ∧
    scoreAlignment Example.blosum50 [["A"; "W"]; ["A"; "-"]; ["-"; "W"]]%char 8 =
      Some (sx + sy + sumZ cross (range 2)).
Proof.
  apply (scoreAlignment_merge Example.blosum50 [["A"; "W"]; ["A"; "-"]]%char
           [["-"; "W"]]%char 8).
  - solve_wellFormed.
  - solve_wellFormed.
  - reflexivity.
  - solve_covers.
Defined.

Lemma forM_pass {A B} (l : list B) (acc : A) : forM l acc (λ acc _, Some acc) = Some acc.
Proof. induction l as [|b l IH]; simpl; [done|]. exact IH. Qed.

(** X7. An alignment of one row scores 0 whatever its symbols are, also
    symbols the substitution matrix does not know; an alignment without
    rows has no score (the read of [alignment[0]] raises). *)
Theorem scoreAlignment_one_row blosum50 (row : sequence) (g : Z) :
  scoreAlignment blosum50 [row] g = Some 0 ∧ scoreAlignment blosum50 [] g = None.
Proof.
  split; [|done]. unfold scoreAlignment. simpl. apply forM_pass.
Qed.

(** ** Loops that add up values which may fail *)

Lemma forM_ext {A B} (l : list B) (acc : A) body body' :
  (∀ acc b, b ∈ l → body acc b = body' acc b) → forM l acc body = forM l acc body'.
Proof.
  revert acc. induction l as [|b l IH]; intros acc Hbody; simpl; [done|].
  rewrite Hbody by left. destruct (body' acc b); simpl; [|done].
  apply IH. intros; apply Hbody; by right.
Qed.

(** A loop raises when its body raises at one of its elements whatever
    has been accumulated. *)
Lemma forM_None {A B} (l : list B) (acc : A) body b :
  b ∈ l → (∀ acc, body acc b = None) → forM l acc body = None.
Proof.
  intros Hb Hnone. revert acc.
  induction l as [|b' l IH]; intros acc; [by apply elem_of_nil in Hb|]. simpl.
  apply elem_of_cons in Hb as [<-|Hb]; [by rewrite Hnone|].
  destruct (body acc b'); simpl; auto.
Qed.

Lemma sumM_shift {B} (h : B → option Z) l total :
  forM l total (λ total b, v ← h b; Some (total + v)) =
  s ← sumM h l; Some (total + s).
Proof.
  unfold sumM. revert total. induction l as [|b l IH]; intros total; simpl.
  - f_equal. lia.
  - destruct (h b) as [v|]; simpl; [|done].
    rewrite IH, (IH (0 + v)).
    destruct (forM l 0 _); simpl; [|done]. f_equal. lia.
Qed.

Lemma sumM_cons {B} (h : B → option Z) b l :
  sumM h (b :: l) = v ← h b; s ← sumM h l; Some (v + s).
Proof.
  unfold sumM at 1. simpl. destruct (h b) as [v|]; simpl; [|done].
  by rewrite sumM_shift.
Qed.

Lemma sumM_ext {B} (h h' : B → option Z) l :
  (∀ b, b ∈ l → h b = h' b) → sumM h l = sumM h' l.
Proof. intros Hh. apply forM_ext. intros total b Hb. by rewrite Hh. Qed.

(** Two nested loops may be exchanged, also when a step fails. *)
Lemma sumM_swap {X Y} (h : X → Y → option Z) x y :
  sumM (λ a, sumM (h a) y) x = sumM (λ b, sumM (λ a, h a b) x) y.
Proof.
  revert y. induction x as [|a x IH]; intros y.
  - induction y as [|b y IHy]; [done|]. rewrite sumM_cons, <- IHy. done.
  - rewrite sumM_cons, IH. clear IH. induction y as [|b y IHy]; [done|].
    rewrite !sumM_cons, <- IHy.
    destruct (h a b), (sumM (h a) y), (sumM (λ a0, h a0 b) x),
      (sumM (λ b0, sumM (λ a0, h a0 b0) x) y); simpl; try done.
    f_equal. lia.
Qed.

Lemma pairTerm_shift blosum50 g a b total :
  pairTerm blosum50 g a b total = v ← pairTerm blosum50 g a b 0; Some (total + v).
Proof.
  unfold pairTerm. destruct (xorb _ _); simpl; [f_equal; lia|].
  destruct (_ && _); simpl; [|f_equal; lia]. by destruct (blosum50 a b).
Qed.

Lemma pairTerm_swap blosum50 g a b :
  symmetric blosum50 → pairTerm blosum50 g b a 0 = pairTerm blosum50 g a b 0.
Proof.
  intros Hsym. unfold pairTerm. rewrite (Hsym b a).
  by destruct (is_gap a), (is_gap b).
Qed.

(** [scoreColumns] as two nested sums of the values of the pairs. *)
Lemma scoreColumns_sums blosum50 (x y : profile) i j g :
  scoreColumns blosum50 x y i j g =
  sumM (λ xk, sumM (λ yl,
    a ← xk !! i; b ← yl !! j; pairTerm blosum50 (flip g) a b 0) y) x.
Proof.
  unfold scoreColumns. apply forM_ext. intros total xk _.
  rewrite <- sumM_shift. apply forM_ext. intros tot yl _.
  destruct (xk !! i); simpl; [|done]. destruct (yl !! j); simpl; [|done].
  apply pairTerm_shift.
Qed.

(** X8. For a symmetric substitution matrix the cross score of two columns
    does not depend on the order of the two profiles, and [scoreColumns]
    raises for one order exactly when it raises for the other. *)
Theorem scoreColumns_swap blosum50 (x y : profile) (i j : nat) (g : Z) :
  symmetric blosum50 →
  scoreColumns blosum50 y x j i g = scoreColumns blosum50 x y i j g.
Proof.
  intros Hsym. rewrite !scoreColumns_sums, <- sumM_swap.
  apply sumM_ext. intros xk _. apply sumM_ext. intros yl _.
  destruct (xk !! i), (yl !! j); simpl; try done. by rewrite pairTerm_swap.
Qed.

Lemma scoreColumns_swap_witness :
  scoreColumns Example.blosum50 [["W"; "A"]]%char [["A"; "W"]; ["-"; "W"]]%char 0 1 8 =
  scoreColumns Example.blosum50 [["A"; "W"]; ["-"; "W"]]%char [["W"; "A"]]%char 1 0 8.
Proof. apply scoreColumns_swap. exact Example_blosum50_symmetric. Defined.

(** X9. An alignment with a row shorter than its first row has no score:
    [scoreAlignment] reads every row at every column of the first row and
    raises IndexError at the short one. *)
Theorem scoreAlignment_short_row blosum50 (al : profile) (g : Z) :
  Exists (λ row, (length row < width al)%nat) al →
  scoreAlignment blosum50 al g = None.
Proof.
  intros (row & Hrow & Hlen)%Exists_exists.
  apply list_elem_of_lookup_1 in Hrow as [r Hr].
  destruct al as [|row0 al]; [done|]. unfold width in Hlen. simpl in Hlen.
  destruct r as [|r]; [simplify_eq/=; lia|].
  pose proof (lookup_lt_Some _ _ _ Hr) as Hrlen. simpl in Hrlen.
  unfold scoreAlignment. cbn [lookup list_lookup mbind option_bind].
  eapply (forM_None _ _ _ (length row)); [apply elem_of_seq; lia|]. intros total.
  eapply (forM_None _ _ _ 0%nat); [apply elem_of_seq; simpl; lia|]. intros total'.
  eapply (forM_None _ _ _ (S r)); [apply elem_of_seq; simpl; lia|]. intros total''.
  rewrite Hr. simpl. rewrite (lookup_ge_None_2 row (length row)) by lia.
  by destruct (row0 !! length row).
Qed.

Lemma scoreAlignment_short_row_witness :
  scoreAlignment Example.blosum50 [["A"; "W"]; ["A"]]%char 8 = None.
Proof. apply scoreAlignment_short_row. right. left. unfold width. simpl. lia. Defined.

(** ** Two sequences: the returned alignment is an optimal one *)

(** [alignProfiles] on two bare sequences in terms of the classical
    recurrence, kept apart from the profile case for the proofs below. *)
Lemma alignProfiles_pairwise blosum50 s (d : Z) (a b : sequence) :
  (∀ ai bj, ai ∈ a → bj ∈ b → blosum50 ai bj = Some (s ai bj)) →
  Forall (λ c, is_gap c = false) a → Forall (λ c, is_gap c = false) b →
  alignProfiles blosum50 [a] [b] d =
    Some ((NW.cellOf s d (rev a) (rev b)).1,
          [(NW.cellOf s d (rev a) (rev b)).2.1],
          [(NW.cellOf s d (rev a) (rev b)).2.2]).
Proof.
  intros Htable Ha Hb.
  assert (wellFormed [a]) as Hwa by (split; [done|by repeat constructor]).
  assert (wellFormed [b]) as Hwb by (split; [done|by repeat constructor]).
  assert (covers blosum50 [a] [b]) as Hcov.
  { unfold covers. simpl. rewrite !app_nil_r. apply Forall_forall. intros ai Hai.
    apply Forall_forall. intros bj Hbj _ _. rewrite (Htable ai bj) by done. eauto. }
  destruct (alignProfiles_run blosum50 [a] [b] d Hwa Hwb Hcov)
    as (f & t & xp & yp & _ & Hft & Htb & ->).
  change (width [a]) with (length a) in *. change (width [b]) with (length b) in *.
  change (replicate (length [a]) []) with [@nil ascii] in Htb.
  change (replicate (length [b]) []) with [@nil ascii] in Htb.
  rewrite (single_traceback blosum50 s d a b Htable Ha Hb) in Htb;
    [|intros; by apply Hft|lia..].
  rewrite (single_scores blosum50 s d a b Htable Ha Hb) by lia.
  rewrite !firstn_all, !app_nil_r in Htb. rewrite !firstn_all.
  injection Htb as <- <-. done.
Qed.

Lemma gapped_app a u b v : gapped a u → gapped b v → gapped (a ++ b) (u ++ v).
Proof. induction 1; simpl; intros; [done|constructor; auto..]. Qed.

Lemma gapped_rev a u : gapped a u → gapped (rev a) (rev u).
Proof.
  induction 1 as [|c row out _ IH|row out _ IH]; simpl.
  - constructor.
  - apply gapped_app; [done|]. repeat constructor.
  - rewrite <- (app_nil_r (rev row)). apply gapped_app; [done|]. repeat constructor.
Qed.

Lemma best_cases (r1 r2 r3 : Z * (sequence * sequence)) :
  NW.best r1 r2 r3 = r1 ∨ NW.best r1 r2 r3 = r2 ∨ NW.best r1 r2 r3 = r3.
Proof.
  unfold NW.best. destruct (_ && _); [by left|]. destruct (_ && _); auto.
Qed.

Lemma best_max (r1 r2 r3 : Z * (sequence * sequence)) :
  (NW.best r1 r2 r3).1 = Z.max r1.1 (Z.max r2.1 r3.1).
Proof. by rewrite (proj2 (best_choose _ _ _)), choose_max. Qed.

Section Pairwise.

Variable blosum50 : symbol → symbol → option Z.
Variable d : Z.

Local Abbreviation s := (λ a b : symbol, default 0 (blosum50 a b)).
Local Abbreviation value := (λ p : symbol * symbol, pairValue blosum50 d p.1 p.2).
Local Abbreviation bare := (Forall (λ c, is_gap c = false)).

Lemma cellOf_nil_r ra :
  NW.cellOf s d ra [] = (- Z.of_nat (length ra) * d, (rev ra, replicate (length ra) gap)).
Proof. by destruct ra. Qed.

Lemma cellOf_cons a ra b rb :
  NW.cellOf s d (a :: ra) (b :: rb) =
  NW.best (NW.extend (NW.cellOf s d ra rb) (s a b) a b)
          (NW.extend (NW.cellOf s d ra (b :: rb)) (- d) a gap)
          (NW.extend (NW.cellOf s d (a :: ra) rb) (- d) gap b).
Proof. done. Qed.

Lemma value_symbols a b :
  is_gap a = false → is_gap b = false → pairValue blosum50 d a b = s a b.
Proof. unfold pairValue. by intros -> ->. Qed.

Lemma value_gap_r a : is_gap a = false → pairValue blosum50 d a gap = - d.
Proof. unfold pairValue. by intros ->. Qed.

Lemma value_gap_l b : is_gap b = false → pairValue blosum50 d gap b = - d.
Proof. unfold pairValue. by intros ->. Qed.

Lemma value_gaps : pairValue blosum50 d gap gap = 0.
Proof. done. Qed.

Lemma gaps_value_l l :
  bare l → sumZ value (zip (replicate (length l) gap) l) = - Z.of_nat (length l) * d.
Proof.
  induction 1 as [|b l Hb _ IH]; [done|]. cbn [length replicate zip zip_with sumZ foldr].
  fold (sumZ value (zip (replicate (length l) gap) l)). rewrite IH. cbn [fst snd].
  rewrite value_gap_l by done. lia.
Qed.

Lemma gaps_value_r l :
  bare l → sumZ value (zip l (replicate (length l) gap)) = - Z.of_nat (length l) * d.
Proof.
  induction 1 as [|b l Hb _ IH]; [done|]. cbn [length replicate zip zip_with sumZ foldr].
  fold (sumZ value (zip l (replicate (length l) gap))). rewrite IH. cbn [fst snd].
  rewrite value_gap_r by done. lia.
Qed.

Lemma extend_value (r : Z * (sequence * sequence)) v p q :
  length r.2.1 = length r.2.2 → r.1 = sumZ value (zip r.2.1 r.2.2) →
  v = pairValue blosum50 d p q →
  length (NW.extend r v p q).2.1 = length (NW.extend r v p q).2.2 ∧
  (NW.extend r v p q).1 = sumZ value (zip (NW.extend r v p q).2.1 (NW.extend r v p q).2.2).
Proof.
  intros Hlen Hr ->. unfold NW.extend. cbn [fst snd]. split.
  - rewrite !length_app. simpl. lia.
  - rewrite (zip_with_app pair _ _ _ _ Hlen). rewrite sumZ_app, Hr. simpl. lia.
Qed.

(** The value of a cell is the score of the alignment it holds. *)
Lemma cellOf_value ra rb : bare ra → bare rb →
  length (NW.cellOf s d ra rb).2.1 = length (NW.cellOf s d ra rb).2.2 ∧
  (NW.cellOf s d ra rb).1 =
    sumZ value (zip (NW.cellOf s d ra rb).2.1 (NW.cellOf s d ra rb).2.2).
Proof.
  intros Hra. revert rb. induction Hra as [|a ra Ha Hra IHa]; intros rb Hrb.
  - cbn [NW.cellOf fst snd]. rewrite length_replicate, length_rev. split; [done|].
    rewrite <- (length_rev rb). rewrite gaps_value_l by (by apply Forall_rev).
    by rewrite length_rev.
  - induction Hrb as [|b rb Hb Hrb IHb].
    + rewrite cellOf_nil_r. cbn [fst snd]. rewrite length_replicate, length_rev.
      split; [done|]. rewrite <- (length_rev (a :: ra)).
      rewrite gaps_value_r by (apply Forall_rev; by constructor).
      by rewrite length_rev.
    + rewrite cellOf_cons.
      destruct (IHa rb Hrb) as [? ?]. destruct (IHa (b :: rb)) as [? ?]; [by constructor|].
      destruct IHb as [? ?].
      destruct (best_cases
        (NW.extend (NW.cellOf s d ra rb) (s a b) a b)
        (NW.extend (NW.cellOf s d ra (b :: rb)) (- d) a gap)
        (NW.extend (NW.cellOf s d (a :: ra) rb) (- d) gap b)) as [->|[->| ->]];
        apply extend_value; auto;
        symmetry; auto using value_symbols, value_gap_r, value_gap_l.
Qed.

(** No alignment of the two sequences scores above the value of the cell. *)
Lemma cellOf_upper ru : ∀ rv ra rb,
  length ru = length rv → gapped ra ru → gapped rb rv → bare ra → bare rb →
  sumZ value (zip ru rv) ≤ (NW.cellOf s d ra rb).1.
Proof.
  induction ru as [|p ru IH]; intros [|q rv] ra rb Hlen Hgu Hgv Hra Hrb;
    try done.
  - inversion Hgu; subst. inversion Hgv; subst. simpl. lia.
  - injection Hlen as Hlen. cbn [zip zip_with sumZ foldr fst snd].
    fold (sumZ value (zip ru rv)).
    inversion Hgu as [|a ra' ? Hgu'|? ? Hgu']; subst;
      inversion Hgv as [|b rb' ? Hgv'|? ? Hgv']; subst.
    + apply Forall_cons in Hra as [Ha Hra]. apply Forall_cons in Hrb as [Hb Hrb].
      rewrite cellOf_cons, best_max. unfold NW.extend at 1. cbn [fst snd].
      rewrite value_symbols by done.
      pose proof (IH rv ra' rb' Hlen Hgu' Hgv' Hra Hrb). lia.
    + apply Forall_cons in Hra as [Ha Hra]. rewrite value_gap_r by done.
      pose proof (IH rv ra' rb Hlen Hgu' Hgv' Hra Hrb) as Hle.
      destruct rb as [|b rb'].
      * rewrite cellOf_nil_r in *. cbn [fst snd length] in *. lia.
      * rewrite cellOf_cons, best_max. unfold NW.extend at 2. cbn [fst snd]. lia.
    + apply Forall_cons in Hrb as [Hb Hrb]. rewrite value_gap_l by done.
      pose proof (IH rv ra rb' Hlen Hgu' Hgv' Hra Hrb) as Hle.
      destruct ra as [|a ra'].
      * cbn [NW.cellOf fst snd length] in *. lia.
      * rewrite cellOf_cons, best_max. unfold NW.extend at 3. cbn [fst snd]. lia.
    + rewrite value_gaps. pose proof (IH rv ra rb Hlen Hgu' Hgv' Hra Hrb). lia.
Qed.

Lemma value_rev u v :
  length u = length v → sumZ value (zip (rev u) (rev v)) = sumZ value (zip u v).
Proof.
  revert v. induction u as [|p u IH]; intros [|q v] Hlen; try done.
  injection Hlen as Hlen. simpl rev.
  rewrite (zip_with_app pair) by (by rewrite !length_rev).
  rewrite sumZ_app, IH by done. simpl. lia.
Qed.

End Pairwise.

Lemma sumZ_zip (f : symbol → symbol → Z) u v :
  length u = length v →
  sumZ (λ i, f (get u i) (get v i)) (seq 0 (length u)) =
  sumZ (λ p, f p.1 p.2) (zip u v).
Proof.
  revert v. induction u as [|p u IH]; intros [|q v] Hlen; try done.
  injection Hlen as Hlen. simpl. rewrite sumZ_seq_shift.
  unfold get in *. simpl. by rewrite IH.
Qed.

(** The score of an alignment of two rows is the sum of the values of its
    columns. *)
Lemma scoreAlignment_two_rows blosum50 (u v : sequence) g :
  length u = length v → covers blosum50 [u; v] [u; v] →
  scoreAlignment blosum50 [u; v] g =
    Some (sumZ (λ p, pairValue blosum50 (flip g) p.1 p.2) (zip u v)).
Proof.
  intros Hlen Hcov. rewrite scoreAlignment_pairs; [|split; [done|]|done].
  - f_equal. change (width [u; v]) with (length u). unfold range.
    rewrite <- sumZ_zip by done. apply sumZ_ext. intros i _.
    unfold column. simpl. lia.
  - change (width [u; v]) with (length u). by repeat constructor.
Qed.

Lemma covers_gapped blosum50 (a b u v : sequence) :
  covers blosum50 [a; b] [a; b] → gapped a u → gapped b v →
  covers blosum50 [u; v] [u; v].
Proof.
  intros Hcov Hu Hv.
  assert (within [a; b] [u; v]) as Hin.
  { eapply within_Permutation; [|apply within_refl]. simpl.
    by rewrite (strip_gapped _ _ Hu), (strip_gapped _ _ Hv). }
  by apply (covers_within _ [a; b]).
Qed.

Lemma flip_nonneg d : 0 ≤ d → flip d = d.
Proof. unfold flip. intros. destruct (Z.ltb_spec d 0); [lia|done]. Qed.

Lemma covers_table blosum50 (a b : sequence) :
  covers blosum50 [a; b] [a; b] →
  Forall (λ c, is_gap c = false) a → Forall (λ c, is_gap c = false) b →
  ∀ ai bj, ai ∈ a → bj ∈ b → blosum50 ai bj = Some (default 0 (blosum50 ai bj)).
Proof.
  unfold covers. simpl. rewrite app_nil_r, !Forall_forall.
  intros Hcov Ha Hb ai bj Hai Hbj.
  assert (ai ∈ a ++ b) as Hai' by (apply elem_of_app; auto).
  assert (bj ∈ a ++ b) as Hbj' by (apply elem_of_app; auto).
  specialize (Hcov ai Hai'). rewrite Forall_forall in Hcov.
  destruct (Hcov bj Hbj') as [v ->]; [auto..|done].
Qed.

(** X10. For two sequences without gap symbols whose symbols the
    substitution matrix knows, and a gap penalty [d >= 0], the score that
    [alignProfiles] returns is the [scoreAlignment] score of the two-row
    alignment it returns. *)
Theorem alignProfiles_score_of_result blosum50 (d : Z) (a b : sequence) :
  covers blosum50 [a; b] [a; b] →
  Forall (λ c, is_gap c = false) a → Forall (λ c, is_gap c = false) b → 0 ≤ d →
  ∃ s a' b', alignProfiles blosum50 [a] [b] d = Some (s, [a'], [b']) ∧
    scoreAlignment blosum50 [a'; b'] d = Some s.
Proof.
  intros Hcov Ha Hb Hd.
  pose proof (alignProfiles_pairwise blosum50 _ d a b
    (covers_table _ _ _ Hcov Ha Hb) Ha Hb) as Hrun.
  eexists _, _, _. split; [exact Hrun|].
  assert (Forall (λ row, length row = width [a]) [a]) as Hsa by (by repeat constructor).
  assert (Forall (λ row, length row = width [b]) [b]) as Hsb by (by repeat constructor).
  destruct (alignProfiles_gapped _ _ _ _ _ _ _ Hsa Hsb Hrun) as (Hga & Hgb & _).
  apply Forall2_cons_1 in Hga as [Hga _]. apply Forall2_cons_1 in Hgb as [Hgb _].
  destruct (cellOf_value blosum50 d (rev a) (rev b)) as [Hlen Hval];
    [by apply Forall_rev..|].
  rewrite scoreAlignment_two_rows by eauto using covers_gapped.
  by rewrite flip_nonneg, <- Hval.
Qed.

Lemma alignProfiles_score_of_result_witness :
  ∃ s a' b',
    alignProfiles Example.blosum50 [Example.seq_of "HEAGAWGHEE"]
      [Example.seq_of "PAWHEAE"] 8 = Some (s, [a'], [b']) ∧
    scoreAlignment Example.blosum50 [a'; b'] 8 = Some s.
Proof.
  apply alignProfiles_score_of_result.
  - solve_covers.
  - by repeat constructor.
  - by repeat constructor.
  - lia.
Defined.

(** X11. For two sequences without gap symbols whose symbols the
    substitution matrix knows, and a gap penalty [d >= 0], the alignment
    that [alignProfiles] returns is optimal: no way of inserting gaps into
    the two sequences that makes them equally long has a higher
    [scoreAlignment] score than the returned score. *)
Theorem alignProfiles_optimal blosum50 (d : Z) (a b : sequence) :
  covers blosum50 [a; b] [a; b] →
  Forall (λ c, is_gap c = false) a → Forall (λ c, is_gap c = false) b → 0 ≤ d →
  ∃ s a' b', alignProfiles blosum50 [a] [b] d = Some (s, [a'], [b']) ∧
    ∀ u v, gapped a u → gapped b v → length u = length v →
      ∃ s', scoreAlignment blosum50 [u; v] d = Some s' ∧ s' ≤ s.
Proof.
  intros Hcov Ha Hb Hd.
  pose proof (alignProfiles_pairwise blosum50 _ d a b
    (covers_table _ _ _ Hcov Ha Hb) Ha Hb) as Hrun.
  eexists _, _, _. split; [exact Hrun|]. intros u v Hu Hv Hlen.
  eexists. split; [apply scoreAlignment_two_rows; eauto using covers_gapped|].
  rewrite flip_nonneg by done. rewrite <- (value_rev _ _ _ _ Hlen).
  apply cellOf_upper; auto using gapped_rev, Forall_rev.
  by rewrite !length_rev.
Qed.

Lemma alignProfiles_optimal_witness :
  ∃ s a' b',
    alignProfiles Example.blosum50 [Example.seq_of "HEAGAWGHEE"]
      [Example.seq_of "PAWHEAE"] 8 = Some (s, [a'], [b']) ∧
    ∀ u v, gapped (Example.seq_of "HEAGAWGHEE") u →
      gapped (Example.seq_of "PAWHEAE") v → length u = length v →
      ∃ s', scoreAlignment Example.blosum50 [u; v] 8 = Some s' ∧ s' ≤ s.
Proof.
  apply alignProfiles_optimal.
  - solve_covers.
  - by repeat constructor.
  - by repeat constructor.
  - lia.
Defined.

(** ** The aligner of [nw.py] *)

Lemma nw_score_raises blosum50 x y i j d : nw.score blosum50 x y i j d = None.
Proof. done. Qed.

Lemma nw_cell_raises blosum50 x y d ft i j :
  (1 ≤ i)%nat → (1 ≤ j)%nat → nw.cell blosum50 x y d ft i j = None.
Proof.
  intros Hi Hj. unfold nw.cell. destruct ft as [f t].
  destruct (Nat.eqb_spec i 0); [lia|]. destruct (Nat.eqb_spec j 0); [lia|].
  rewrite nw_score_raises. by destruct (mget f (i - 1) (j - 1)).
Qed.

Lemma nw_cell_border blosum50 x y d ft i j :
  (i = 0 ∨ j = 0)%nat → nw.cell blosum50 x y d ft i j = cell blosum50 x y d ft i j.
Proof.
  intros Hij. unfold nw.cell, cell. destruct ft as [f t].
  destruct (Nat.eqb_spec i 0); [done|]. destruct (Nat.eqb_spec j 0); [done|]. lia.
Qed.

Lemma nw_fill_raises blosum50 x y d lenX lenY :
  (1 ≤ lenX)%nat → (1 ≤ lenY)%nat → nw.fill blosum50 x y d lenX lenY = None.
Proof.
  intros HX HY. unfold nw.fill.
  eapply (forM_None _ _ _ 1%nat); [apply elem_of_seq; lia|]. intros ft.
  eapply (forM_None _ _ _ 1%nat); [apply elem_of_seq; lia|]. intros ft'.
  by apply nw_cell_raises.
Qed.

Lemma nw_fill_border blosum50 x y d lenX lenY :
  (lenX = 0 ∨ lenY = 0)%nat →
  nw.fill blosum50 x y d lenX lenY = fill blosum50 x y d lenX lenY.
Proof.
  intros Hlen. unfold nw.fill, fill.
  apply forM_ext. intros ft i Hi%elem_of_seq.
  apply forM_ext. intros ft' j Hj%elem_of_seq.
  apply nw_cell_border. lia.
Qed.

(** X12. [align] of [nw.py] returns only when one of the two profiles
    has no columns, and then it returns what [alignProfiles] of [align.py]
    returns; when both profiles have a column the call of [score] raises
    (it reads its local variable [gapPenalty] before any assignment). *)
Theorem nw_align_returns_iff blosum50 (x y : profile) (d : Z) r :
  nw.align blosum50 x y d = Some r ↔
  alignProfiles blosum50 x y d = Some r ∧ (width x = 0 ∨ width y = 0)%nat.
Proof.
  unfold nw.align, alignProfiles, width.
  destruct (x !! 0%nat) as [x0|]; simpl; [|by intuition].
  destruct (y !! 0%nat) as [y0|]; simpl; [|by intuition].
  destruct (decide (length x0 = 0 ∨ length y0 = 0)%nat) as [Hlen|Hlen].
  - rewrite nw_fill_border by done. by intuition.
  - rewrite nw_fill_raises by lia. simpl. split; [done|]. by intros [_ ?].
Qed.

(** ** The refinement loop leaves no column of gaps *)

Lemma columnHasSymbol_true (al : profile) i :
  columnHasSymbol al i = Some true → symbolAt al i.
Proof.
  unfold symbolAt. induction al as [|row al IH]; simpl; [done|].
  destruct (row !! i) as [a|] eqn:Ha; [simpl|done].
  destruct (is_gap a) eqn:Hgap; simpl.
  - intros H. right. auto.
  - intros _. left. eauto.
Qed.

(** Every column that is not listed as a null column holds a symbol. *)
Lemma nullColumnIndexes_complete (al : profile) nulls :
  nullColumnIndexes al = Some nulls →
  ∀ c, (c < width al)%nat → c ∉ nulls → symbolAt al c.
Proof.
  unfold nullColumnIndexes, width.
  destruct (al !! 0%nat) as [row0|]; [simpl|done]. intros Hrun.
  refine (forM_seq_inv_Some (λ i acc,
    ∀ c, (c < i)%nat → c ∉ acc → symbolAt al c) _ _ _ _ _ _ _ Hrun); [intros; lia|].
  intros i acc acc' _ Hacc.
  destruct (columnHasSymbol al i) as [[|]|] eqn:E; simpl; [| |done].
  - intros [= <-] c Hc Hnot. destruct (decide (c = i)) as [->|].
    + by apply columnHasSymbol_true.
    + apply Hacc; [lia|done].
  - intros [= <-] c Hc [Hne Hnot]%not_elem_of_cons. apply Hacc; [lia|done].
Qed.

Lemma symbolAt_delete (al al1 : profile) i c c' :
  Forall2 (λ (row row1 : sequence), row1 = delete i row) al al1 →
  (if decide (c < i)%nat then c' = c else c' = S c) →
  symbolAt al c' → symbolAt al1 c.
Proof.
  unfold symbolAt. intros Hdel Hc.
  induction Hdel as [|row row1 al al1 -> _ IH]; [by intros ?%Exists_nil|].
  rewrite !Exists_cons. intros [(a & Ha & Hgap)|H]; [left|right; auto].
  exists a. split; [|done]. case_decide; subst.
  - by rewrite list_lookup_delete_lt.
  - rewrite list_lookup_delete_ge by lia. done.
Qed.

(** Deleting the listed columns, last column first, leaves the columns
    that are not listed. *)
Lemma dropColumns_noGapColumn nulls : ∀ (al al' : profile) (b : nat),
  descending nulls → Forall (λ i, (i < b)%nat) nulls →
  (∀ c, (c < b)%nat → (c < width al)%nat → c ∉ nulls → symbolAt al c) →
  (∀ c, (b ≤ c)%nat → (c < width al)%nat → symbolAt al c) →
  dropColumns nulls al = Some al' → noGapColumn al'.
Proof.
  unfold dropColumns.
  induction nulls as [|i nulls IH]; intros al al' b Hdesc Hlt Hlow Hhigh; simpl.
  - intros [= <-] c Hc. destruct (decide (c < b)%nat).
    + apply Hlow; [done..|]. apply not_elem_of_nil.
    + apply Hhigh; [lia|done].
  - destruct (mapM _ al) as [al1|] eqn:Hmap; [simpl|done].
    apply mapM_Some in Hmap.
    assert (Forall2 (λ (row row1 : sequence),
      row1 = delete i row ∧ is_Some (row !! i)) al al1) as Hdel.
    { eapply Forall2_impl; [exact Hmap|]. intros row row1 H. unfold pop in H.
      destruct (row !! i) as [a|]; [|done]. simpl in H. injection H as <-. eauto. }
    assert (Forall2 (λ (row row1 : sequence), row1 = delete i row) al al1) as Hdel'.
    { eapply Forall2_impl; [exact Hdel|]. by intros ? ? [? _]. }
    assert (width al1 = width al - 1)%nat as Hw.
    { unfold width. destruct Hdel as [|row row1 ? ? [-> Hi] _]; [done|]. simpl.
      by rewrite length_delete. }
    destruct Hdesc as [Hbelow Hdesc]. apply Forall_cons in Hlt as [Hib Hlt].
    apply (IH al1 al' i); [done|done| |].
    + intros c Hci Hc Hnot. apply (symbolAt_delete al al1 i c c); [done| |].
      * by rewrite decide_True.
      * apply Hlow; [lia..|]. apply not_elem_of_cons. split; [lia|done].
    + intros c Hci Hc. apply (symbolAt_delete al al1 i c (S c)); [done| |].
      * by rewrite decide_False by lia.
      * destruct (decide (S c < b)%nat).
        -- apply Hlow; [done|lia|]. apply not_elem_of_cons. split; [lia|].
           rewrite Forall_forall in Hbelow. intros Hin%Hbelow. lia.
        -- apply Hhigh; lia.
Qed.

Lemma bare_noGapColumn (sq : sequence) : strip sq = sq → noGapColumn [sq].
Proof.
  intros Hsq c Hc. change (width [sq]) with (length sq) in Hc.
  destruct (lookup_lt_is_Some_2 sq c Hc) as [a Ha].
  left. exists a. split; [done|].
  assert (a ∈ strip sq) as [_ ?]%elem_of_strip;
    [rewrite Hsq; by eapply list_elem_of_lookup_2|done].
Qed.

Lemma reinsert_noGapColumn blosum50 d seqs : ∀ (al al' : profile),
  Forall (λ s, strip s = s) seqs → rectangular al → noGapColumn al →
  reinsert blosum50 d seqs al = Some al' → noGapColumn al'.
Proof.
  unfold reinsert. induction seqs as [|sq seqs IH]; intros al al' Hseqs Hrect Hno; simpl.
  - by intros [= <-].
  - apply Forall_cons in Hseqs as [Hsq Hseqs].
    destruct (alignProfiles blosum50 al [sq] d) as [[[s xp] yp]|] eqn:Hal;
      [simpl|done].
    destruct (yp !! 0%nat) as [y0|] eqn:Hy0; [simpl|done].
    destruct Hrect as [w Hw].
    assert (Forall (λ row, length row = width [sq]) [sq]) as Hone
      by (by repeat constructor).
    destruct (alignProfiles_gapped blosum50 al [sq] d s xp yp
      (rectangular_width _ _ Hw) Hone Hal) as (Hgx & Hgy & w' & Hw').
    inversion Hgy as [|? y0' ? yp' Hg0 Hnil]; subst. inversion Hnil; subst.
    simpl in Hy0. injection Hy0 as ->.
    apply IH; [done|by exists w'|].
    eapply alignProfiles_symbols; [exact Hno|by apply bare_noGapColumn|exact Hal].
Qed.

Section Cleaned.

Variable blosum50 : symbol → symbol → option Z.
Variable exp : float → option float.
Variable rng : Type.
Variable randrange : rng → nat → nat * rng.
Variable random : rng → float * rng.

Lemma cycle_noGapColumn k d m (st st' : state rng) :
  cycle blosum50 exp rng randrange random k d m st = Some st' →
  rectangular (alignment st) → noGapColumn (alignment st').
Proof.
  unfold cycle. intros Hrun [w Hw].
  destruct (scoreAlignment blosum50 (alignment st) d) as [prevScore|];
    [simpl in Hrun|done].
  destruct (removeRows _ _ _ _ _) as [[[[rest live] seqs] g]|] eqn:Hrem;
    [simpl in Hrun|done].
  destruct (nullColumnIndexes rest) as [nulls|] eqn:Hnulls; [simpl in Hrun|done].
  destruct (dropColumns nulls rest) as [rest'|] eqn:Hdrop; [simpl in Hrun|done].
  destruct (reinsert blosum50 d seqs rest') as [candidate|] eqn:Hre;
    [simpl in Hrun|done].
  destruct (scoreAlignment blosum50 candidate d) as [newScore|];
    [simpl in Hrun|done].
  destruct (if newScore <=? prevScore then _ else _) as [[[pp ps] g2]|];
    [simpl in Hrun|done].
  injection Hrun as <-. simpl.
  destruct (removeRows_rows _ _ _ _ _ _ _ _ _ Hrem) as (Hperm & Hstrip & Hlen & Hrect).
  destruct (nullColumnIndexes_nulls _ _ Hnulls) as [Hgaps Hdesc].
  pose proof (dropColumns_rows _ _ _ Hgaps Hdesc Hdrop) as Hrows.
  assert (rectangular rest') as Hrect'.
  { exists (w - length nulls)%nat. specialize (Hrect w Hw).
    eapply Forall2_Forall_r; [exact Hrows|].
    eapply Forall_impl; [exact Hrect|]. intros row Hrow row' [_ Hl].
    simpl in *. lia. }
  eapply reinsert_noGapColumn; [exact Hstrip|exact Hrect'| |exact Hre].
  eapply (dropColumns_noGapColumn nulls rest rest' (width rest));
    [done| | |intros; lia|done].
  - unfold nullColumnIndexes, width in *.
    destruct (rest !! 0%nat) as [row0|]; [simpl in *|done].
    apply (forM_seq_inv_Some (λ i acc, Forall (λ j, (j < i)%nat) acc)) in Hnulls;
      [done|by constructor|].
    intros i acc acc' _ Hacc.
    destruct (columnHasSymbol rest i) as [[|]|]; simpl; [| |done]; intros [= <-].
    + eapply Forall_impl; [exact Hacc|]. intros; simpl in *; lia.
    + constructor; [lia|]. eapply Forall_impl; [exact Hacc|]. intros; simpl in *; lia.
  - intros c _ Hc Hnot. by eapply nullColumnIndexes_complete.
Qed.

Lemma refine_noGapColumn n k d m (st st' : state rng) :
  refine blosum50 exp rng randrange random n k d m st = Some st' →
  rectangular (alignment st) →
  st' = st ∨ noGapColumn (alignment st').
Proof.
  revert st. induction n as [|n IH]; intros st; cbn [refine].
  - intros ? ?. left. by simplify_eq.
  - destruct (7 <=? counter st)%nat; [intros ? ?; left; by simplify_eq|].
    destruct (cycle _ _ _ _ _ _ _ _ st) as [st1|] eqn:Hcycle; [simpl|done].
    intros Hrun Hrect. right.
    destruct (cycle_rows _ _ _ _ _ _ _ _ _ _ Hcycle Hrect) as (Hrect1 & _).
    destruct (IH _ Hrun Hrect1) as [->|?]; [|done].
    by eapply cycle_noGapColumn.
Qed.

End Cleaned.

(** X13. For a rectangular input alignment, whatever [iterate] returns is
    either the input alignment itself (no cycle ran) or an alignment in
    which every column holds a symbol: each cycle deletes the columns
    left with gaps only, and re-insertion brings in none. *)
Theorem iterate_no_gap_column blosum50 exp rng randrange random
    fuel (alignment0 : profile) t m y d (g : rng) s alignment' :
  rectangular alignment0 →
  iterate blosum50 exp rng randrange random fuel alignment0 t m y d g
    = Some (s, alignment') →
  alignment' = alignment0 ∨ noGapColumn alignment'.
Proof.
  intros Hrect. unfold iterate, start.
  destruct (numRealignedSequences _ _) as [k|]; [simpl|done].
  destruct (coolingSteps _ _ _ _) as [[n t1]|]; [simpl|done].
  destruct (refine _ _ _ _ _ _ _ _ _ _) as [st'|] eqn:Hrun; [simpl|done].
  destruct (scoreAlignment _ _ _) as [s'|]; [simpl|done].
  intros [= <- <-].
  destruct (refine_noGapColumn _ _ _ _ _ _ _ _ _ _ _ Hrun Hrect) as [->|?]; auto.
Qed.

Lemma iterate_no_gap_column_witness :
  rectangular (map Example.seq_of ["A-W"; "A-A"; "W-A"]%string) ∧
  Example.iterate 10 (map Example.seq_of ["A-W"; "A-A"; "W-A"]%string) 4 0.5 0 8
    ([1; 0]%nat, [0.5]%float)
    = Some (-2, map Example.seq_of ["WA"; "AA"; "AW"]%string) ∧
  (map Example.seq_of ["WA"; "AA"; "AW"]%string =
     map Example.seq_of ["A-W"; "A-A"; "W-A"]%string ∨
   noGapColumn (map Example.seq_of ["WA"; "AA"; "AW"]%string)).
Proof.
  assert (rectangular (map Example.seq_of ["A-W"; "A-A"; "W-A"]%string)) as Hrect
    by (exists 3%nat; by repeat constructor).
  assert (Example.iterate 10 (map Example.seq_of ["A-W"; "A-A"; "W-A"]%string)
    4 0.5 0 8 ([1; 0]%nat, [0.5]%float)
    = Some (-2, map Example.seq_of ["WA"; "AA"; "AW"]%string)) as Hrun
    by (by vm_compute).
  split; [exact Hrect|]. split; [exact Hrun|].
  exact (iterate_no_gap_column Example.blosum50 Example.exp Example.rng
    Example.randrange Example.random _ _ _ _ _ _ _ _ _ Hrect Hrun).
Defined.

(** X14. With a start temperature of at most 1 no refinement cycle runs:
    [iterate] returns the input alignment with its score (after the number
    of sequences to realign was computed, which can raise). *)
Theorem iterate_cold_start blosum50 exp rng randrange random
    fuel (alignment0 : profile) t m y d (g : rng) :
  PrimFloat.ltb 1 t = false →
  iterate blosum50 exp rng randrange random fuel alignment0 t m y d g =
    (_ ← numRealignedSequences (length alignment0) y;
     s ← scoreAlignment blosum50 alignment0 d;
     Some (s, alignment0)).
Proof.
  intros Ht. unfold iterate, start.
  destruct (numRealignedSequences _ _) as [k|]; [simpl|done].
  assert (∀ m', coolingSteps fuel t m' 0 = Some (0%nat, t)) as ->
    by (intros m'; destruct fuel; simpl; by rewrite Ht).
  done.
Qed.

Lemma iterate_cold_start_witness :
  Example.iterate 1 (map Example.seq_of ["AW"; "A-"]%string) 1 0.5 0 8 ([], []) =
    (_ ← numRealignedSequences 2 0;
     s ← scoreAlignment Example.blosum50 (map Example.seq_of ["AW"; "A-"]%string) 8;
     Some (s, map Example.seq_of ["AW"; "A-"]%string)).
Proof.
  apply (iterate_cold_start Example.blosum50 Example.exp Example.rng
    Example.randrange Example.random). reflexivity.
Defined.

(** ** The initial alignment of the script *)

Lemma forM_lookup {A B} (l : list B) (acc : A) (body : A → B → option A) :
  forM (range (length l)) acc (λ acc i, b ← l !! i; body acc b) = forM l acc body.
Proof.
  unfold range.
  assert (∀ l1 acc, forM (seq (length l1) (length l)) acc
    (λ acc i, b ← (l1 ++ l) !! i; body acc b) = forM l acc body) as Hall;
    [|exact (Hall [] acc)].
  clear acc. induction l as [|b l IH]; intros l1 acc; simpl; [done|].
  rewrite list_lookup_middle by done. simpl.
  destruct (body acc b) as [acc'|]; simpl; [|done].
  specialize (IH (l1 ++ [b]) acc'). rewrite length_app, <- app_assoc in IH.
  simpl in IH. rewrite Nat.add_1_r in IH. exact IH.
Qed.

Lemma initialAlignment_reinsert blosum50 (sequences : list sequence) :
  initialAlignment blosum50 sequences =
  match sequences with
  | [] => None
  | first :: rest => reinsert blosum50 8 rest [first]
  end.
Proof.
  unfold initialAlignment, pop, reinsert. destruct sequences as [|first rest]; [done|].
  simpl. apply forM_lookup.
Qed.

Lemma gapped_refl row : gapped row row.
Proof. induction row; by constructor. Qed.

Lemma gapped_trans a b c : gapped a b → gapped b c → gapped a c.
Proof.
  intros Hab Hbc. revert a Hab.
  induction Hbc as [|x b c _ IH|b c _ IH]; intros a Hab.
  - done.
  - inversion Hab; subst; constructor; auto.
  - constructor. auto.
Qed.

(** Re-insertion keeps the rows in place, with gaps inserted, and adds the
    sequences below them in their order. *)
Lemma reinsert_gapped blosum50 d seqs : ∀ (al al' : profile),
  rectangular al → reinsert blosum50 d seqs al = Some al' →
  rectangular al' ∧ Forall2 gapped (al ++ seqs) al'.
Proof.
  unfold reinsert. induction seqs as [|sq seqs IH]; intros al al' Hrect; simpl.
  - intros [= <-]. split; [done|]. rewrite app_nil_r.
    apply Forall_Forall2_diag, Forall_true, gapped_refl.
  - destruct (alignProfiles blosum50 al [sq] d) as [[[s xp] yp]|] eqn:Hal;
      [simpl|done].
    destruct (yp !! 0%nat) as [y0|] eqn:Hy0; [simpl|done].
    destruct Hrect as [w Hw].
    assert (Forall (λ row, length row = width [sq]) [sq]) as Hone
      by (by repeat constructor).
    destruct (alignProfiles_gapped blosum50 al [sq] d s xp yp
      (rectangular_width _ _ Hw) Hone Hal) as (Hgx & Hgy & w' & Hw').
    inversion Hgy as [|? y0' ? yp' Hg0 Hnil]; subst. inversion Hnil; subst.
    simpl in Hy0. injection Hy0 as ->.
    intros Hrun. apply IH in Hrun as [Hrect' Hrows]; [|by exists w'].
    split; [done|].
    apply Forall2_app_inv_l in Hrows as (out1 & out2 & Hout1 & Hout2 & ->).
    apply Forall2_app_inv_l in Hout1 as (out11 & out12 & Hout11 & Hout12 & ->).
    rewrite <- app_assoc. apply Forall2_app.
    + eapply Forall2_trans; [|exact Hgx|exact Hout11]. apply gapped_trans.
    + simpl. apply Forall2_cons_inv_l in Hout12 as (o & ? & Ho & ?%Forall2_nil_inv_l & ->).
      subst. simpl. constructor; [by eapply gapped_trans|done].
Qed.

(** X15. From a non-empty list of sequences whose symbols the
    substitution matrix knows, the script builds its initial alignment:
    a rectangular alignment whose rows are the sequences, in their order,
    with gaps inserted. *)
Theorem initialAlignment_rows blosum50 (sequences : list sequence) :
  sequences ≠ [] → covers blosum50 sequences sequences →
  ∃ alignment, initialAlignment blosum50 sequences = Some alignment ∧
    rectangular alignment ∧ Forall2 gapped sequences alignment.
Proof.
  intros Hne Hcov. rewrite initialAlignment_reinsert.
  destruct sequences as [|first rest]; [done|].
  assert (rectangular [first]) as Hrect by (eexists; by repeat constructor).
  pose proof (within_refl (first :: rest)) as Hin. unfold within in Hin.
  simpl in Hin. apply Forall_cons in Hin as [Hfirst Hrest].
  destruct (reinsert_is_Some blosum50 (first :: rest) Hcov 8 rest [first])
    as [al Hal]; [done|done|by repeat constructor|done|].
  exists al. split; [done|]. by apply (reinsert_gapped _ _ _ _ _ Hrect Hal).
Qed.

Lemma initialAlignment_rows_witness :
  ∃ alignment,
    initialAlignment Example.blosum50 (map Example.seq_of ["AW"; "W"; "AA"]%string)
      = Some alignment ∧
    rectangular alignment ∧
    Forall2 gapped (map Example.seq_of ["AW"; "W"; "AA"]%string) alignment.
Proof.
  apply initialAlignment_rows; [done|solve_covers].
Defined.

Lemma Forall2_gapped_strip (p q : profile) :
  Forall2 gapped p q → map strip q = map strip p ∧ length q = length p.
Proof.
  induction 1 as [|row out p q Hg _ [IH1 IH2]]; [done|]. simpl.
  by rewrite (strip_gapped _ _ Hg), IH1, IH2.
Qed.

(** X16. Run on sequences that are not aligned yet (no flag [-y]), the
    script ends with an alignment of as many rows as it read sequences,
    and its rows, stripped of gap symbols, are the sequences read,
    stripped, up to their order. *)
Theorem main_keeps_sequences blosum50 exp rng randrange random
    fuel (sequences : list sequence) t m y (g : rng) s alignment' :
  main blosum50 exp rng randrange random fuel false sequences t m y g
    = Some (s, alignment') →
  length alignment' = length sequences ∧
  map strip alignment' ≡ₚ map strip sequences.
Proof.
  unfold main. rewrite initialAlignment_reinsert.
  destruct sequences as [|first rest]; [done|].
  destruct (reinsert blosum50 8 rest [first]) as [al|] eqn:Hal; [simpl|done].
  assert (rectangular [first]) as Hrect by (eexists; by repeat constructor).
  destruct (reinsert_gapped _ _ _ _ _ Hrect Hal) as [Hrect' Hrows].
  apply Forall2_gapped_strip in Hrows as [Hstrip Hlen].
  unfold iterate, start.
  destruct (numRealignedSequences _ _) as [k|]; [simpl|done].
  destruct (coolingSteps _ _ _ _) as [[n t1]|]; [simpl|done].
  destruct (refine _ _ _ _ _ _ _ _ _ _) as [st'|] eqn:Hrun; [simpl|done].
  destruct (scoreAlignment _ _ _) as [s'|]; [simpl|done].
  intros [= <- <-].
  destruct (refine_rows _ _ _ _ _ _ _ _ _ _ _ Hrun Hrect') as (_ & Hlen' & Hperm).
  simpl in Hlen', Hperm, Hlen, Hstrip. split; [congruence|]. by rewrite Hperm, Hstrip.
Qed.

(** ** Reading and printing *)

Lemma readline_line line text :
  newline ∉ line → readline (line ++ newline :: text) = (line ++ [newline], text).
Proof.
  induction line as [|c line IH]; intros Hline; simpl; [done|].
  apply not_elem_of_cons in Hline as [Hc Hline].
  destruct (Ascii.eqb_spec c newline); [done|]. by rewrite IH.
Qed.

Lemma chars_line line : newline ∉ line → chars (line ++ [newline]) = line.
Proof.
  unfold chars. induction line as [|c line IH]; intros Hline; simpl; [done|].
  apply not_elem_of_cons in Hline as [Hc Hline].
  destruct (Ascii.eqb_spec c newline); [done|]. simpl. by rewrite IH.
Qed.

Lemma readRows_printAlignment (al : profile) : ∀ a text,
  Forall (λ row, newline ∉ row) al →
  readRows (length al) (printAlignment al ++ text) a = (a ++ al, text).
Proof.
  unfold printAlignment.
  induction al as [|row al IH]; intros a text Hal; simpl.
  - by rewrite app_nil_r.
  - apply Forall_cons in Hal as [Hrow Hal].
    rewrite <- !app_assoc. simpl. rewrite readline_line by done.
    rewrite chars_line by done. rewrite IH by done. by rewrite <- app_assoc.
Qed.

Lemma readRows_end n : ∀ a, readRows n [] a = (a ++ replicate n [], []).
Proof.
  induction n as [|n IH]; intros a; simpl; [by rewrite app_nil_r|].
  rewrite IH. by rewrite <- app_assoc.
Qed.

(** X17. [readFile] reads back what [printAlignment] prints: on a text
    made of a count line for [len(alignment)] followed by the printed
    alignment it appends the rows of the alignment to [a], for rows that
    hold no newline character. *)
Theorem readFile_printAlignment int (count : list ascii) (al : profile)
    (a : list sequence) :
  newline ∉ count → int (count ++ [newline]) = Some (Z.of_nat (length al)) →
  Forall (λ row, newline ∉ row) al →
  readFile int (count ++ newline :: printAlignment al) a = Some (a ++ al).
Proof.
  intros Hcount Hint Hal. unfold readFile.
  rewrite readline_line by done. rewrite Hint. simpl. rewrite Nat2Z.id.
  rewrite <- (app_nil_r (printAlignment al)).
  by rewrite readRows_printAlignment.
Qed.

(** X18. A file that ends after its count line gives as many empty rows
    as the count says, and none for a count that is negative: reading
    past the end of the file raises nothing. *)
Theorem readFile_short int (text line : list ascii) (a : list sequence) n :
  readline text = (line, []) → int line = Some n →
  readFile int text a = Some (a ++ replicate (Z.to_nat n) []).
Proof.
  intros Hline Hint. unfold readFile. rewrite Hline, Hint. simpl.
  by rewrite readRows_end.
Qed.

(** X19. [readFile] of [nw.py] reads two blocks: on a count line and a
    printed profile [x] followed by a count line and a printed profile
    [y] it appends the rows of [x] to [a] and those of [y] to [b]. *)
Theorem nw_readFile_blocks int (cx cy : list ascii) (x y : profile)
    (a b : list sequence) :
  newline ∉ cx → int (cx ++ [newline]) = Some (Z.of_nat (length x)) →
  newline ∉ cy → int (cy ++ [newline]) = Some (Z.of_nat (length y)) →
  Forall (λ row, newline ∉ row) x → Forall (λ row, newline ∉ row) y →
  nw.readFile int
    (cx ++ newline :: printAlignment x ++ cy ++ newline :: printAlignment y) a b
    = Some (a ++ x, b ++ y).
Proof.
  intros Hcx Hix Hcy Hiy Hx Hy. unfold nw.readFile.
  rewrite readline_line by done. rewrite Hix. simpl. rewrite Nat2Z.id.
  rewrite readRows_printAlignment by done.
  rewrite readline_line by done. rewrite Hiy. simpl. rewrite Nat2Z.id.
  rewrite <- (app_nil_r (printAlignment y)).
  by rewrite readRows_printAlignment.
Qed.

Lemma main_keeps_sequences_witness :
  Example.main 10 false (map Example.seq_of ["AW"; "W"; "AA"]%string) 4 0.5 0
    ([1; 0]%nat, [0.5]%float)
    = Some (-2, map Example.seq_of ["AA"; "-W"; "AW"]%string) ∧
  length (map Example.seq_of ["AA"; "-W"; "AW"]%string) =
    length (map Example.seq_of ["AW"; "W"; "AA"]%string) ∧
  map strip (map Example.seq_of ["AA"; "-W"; "AW"]%string) ≡ₚ
    map strip (map Example.seq_of ["AW"; "W"; "AA"]%string).
Proof.
  assert (Example.main 10 false (map Example.seq_of ["AW"; "W"; "AA"]%string) 4 0.5 0
    ([1; 0]%nat, [0.5]%float)
    = Some (-2, map Example.seq_of ["AA"; "-W"; "AW"]%string)) as Hrun
    by (by vm_compute).
  split; [exact Hrun|].
  exact (main_keeps_sequences Example.blosum50 Example.exp Example.rng
    Example.randrange Example.random _ _ _ _ _ _ _ _ Hrun).
Defined.

Ltac solve_no_newline :=
  let H := fresh in
  intros H; repeat (apply elem_of_cons in H as [H|H]; [done|]);
  by apply elem_of_nil in H.

Lemma readFile_printAlignment_witness :
  readFile Example.int
    (Example.seq_of "3" ++
     newline :: printAlignment (map Example.seq_of ["AW"; "-W"; "AA"]%string)) []
    = Some ([] ++ map Example.seq_of ["AW"; "-W"; "AA"]%string).
Proof.
  apply readFile_printAlignment.
  - solve_no_newline.
  - reflexivity.
  - repeat constructor; solve_no_newline.
Defined.

Lemma readFile_short_witness :
  readFile Example.int (Example.seq_of "2" ++ [newline]) [Example.seq_of "AW"]
    = Some ([Example.seq_of "AW"] ++ replicate (Z.to_nat 2) []).
Proof.
  apply (readFile_short Example.int _ (Example.seq_of "2" ++ [newline])); reflexivity.
Defined.

Lemma nw_readFile_blocks_witness :
  nw.readFile Example.int
    (Example.seq_of "2" ++
     newline :: printAlignment (map Example.seq_of ["AW"; "-W"]%string) ++
     Example.seq_of "1" ++
     newline :: printAlignment (map Example.seq_of ["AA"]%string)) [] []
    = Some ([] ++ map Example.seq_of ["AW"; "-W"]%string,
            [] ++ map Example.seq_of ["AA"]%string).
Proof.
  apply nw_readFile_blocks.
  - solve_no_newline.
  - reflexivity.
  - solve_no_newline.
  - reflexivity.
  - repeat constructor; solve_no_newline.
  - repeat constructor; solve_no_newline.
Defined.

(** One cycle on ["AA", "WA", "AW"] at temperature 1, once with a draw
    that rejects the candidate and once with an acceptance rule that
    accepts everything. *)
Lemma cycle_alignment_ignores_acceptance_witness :
  ∃ st1 st2,
    cycle Example.blosum50 Example.exp Example.rng Example.randrange Example.random
      1 8 0.5
      (State (map Example.seq_of ["AA"; "WA"; "AW"]%string) 0 1 None
             ([1]%nat, [0.5]%float)) = Some st1 ∧
    cycle Example.blosum50 (λ _, Some 1%float) Example.rng Example.randrange
      (λ g, (0%float, g)) 1 8 0.5
      (State (map Example.seq_of ["AA"; "WA"; "AW"]%string) 0 1 None
             ([1]%nat, [0.5]%float)) = Some st2 ∧
    alignment st1 = alignment st2.
Proof.
  destruct (cycle Example.blosum50 Example.exp Example.rng Example.randrange
    Example.random 1 8 0.5
    (State (map Example.seq_of ["AA"; "WA"; "AW"]%string) 0 1 None
           ([1]%nat, [0.5]%float))) as [st1|] eqn:H1; [|by vm_compute in H1].
  destruct (cycle Example.blosum50 (λ _, Some 1%float) Example.rng Example.randrange
    (λ g, (0%float, g)) 1 8 0.5
    (State (map Example.seq_of ["AA"; "WA"; "AW"]%string) 0 1 None
           ([1]%nat, [0.5]%float))) as [st2|] eqn:H2; [|by vm_compute in H2].
  exists st1, st2. split; [done|]. split; [done|].
  exact (cycle_alignment_ignores_acceptance _ _ _ _ _ _ _ _ _ _ _ _ _ H1 H2).
Defined.

(** ** Alignments that are too small to refine *)

Lemma cycle_one_row blosum50 exp rng randrange random d m
    (row : sequence) c t p (g : rng) :
  cycle blosum50 exp rng randrange random 1 d m (State [row] c t p g) = None.
Proof.
  unfold cycle. cbn [alignment gen].
  assert (scoreAlignment blosum50 [row] d = Some 0) as ->
    by (unfold scoreAlignment; simpl; apply forM_pass).
  cbn [mbind option_bind]. unfold removeRows. simpl.
  destruct (randrange g 1%nat) as [[|i] g']; simpl; done.
Qed.

(** X21. [iterate] cannot refine an alignment of one row one sequence at
    a time ([y = 0]): as soon as the start temperature asks for a cycle,
    the cycle removes the only row and the read of [alignment[0]] raises.
    On an alignment without rows [iterate] never returns. *)
Theorem iterate_too_few_rows blosum50 exp rng randrange random
    fuel t m d (g : rng) :
  (∀ y, iterate blosum50 exp rng randrange random fuel [] t m y d g = None) ∧
  (∀ (row : sequence) n t1,
     coolingSteps fuel t (if PrimFloat.leb 1 m then defaultCooling else m) 0
       = Some (S n, t1) →
     iterate blosum50 exp rng randrange random fuel [row] t m 0 d g = None).
Proof.
  split.
  - intros y. unfold iterate, start.
    destruct (numRealignedSequences _ _) as [k|]; [simpl|done].
    destruct (coolingSteps _ _ _ _) as [[n t1]|]; [simpl|done].
    destruct n as [|n]; [done|]. cbn [refine counter Nat.leb].
    by unfold cycle.
  - intros row n t1 Hcool. unfold iterate, start.
    assert (numRealignedSequences (length [row]) 0 = Some 1) as -> by reflexivity.
    simpl. rewrite Hcool. simpl. by rewrite cycle_one_row.
Qed.

Lemma iterate_too_few_rows_witness :
  Example.iterate 10 [Example.seq_of "AW"] 4 0.5 0 8 ([0]%nat, []) = None.
Proof.
  apply (proj2 (iterate_too_few_rows Example.blosum50 Example.exp Example.rng
    Example.randrange Example.random 10 4 0.5 8 ([0]%nat, []))
    (Example.seq_of "AW") 1%nat 1%float).
  reflexivity.
Defined.

(** ** Bounds on the returned score *)

Lemma weights_gaps blosum50 x y d i j :
  - d * (Z.of_nat i * Z.of_nat (length y) + Z.of_nat j * Z.of_nat (length x))
    ≤ (weights blosum50 x y d i j).2.
Proof.
  revert j. induction i as [|i IHi]; intros j.
  - rewrite weights_0. simpl. lia.
  - induction j as [|j IHj]; [rewrite weights_S_0; simpl; lia|].
    rewrite weights_step, choose_max. cbn [snd]. lia.
Qed.

Lemma weights_diagonal blosum50 x y d i :
  sumZ (λ k, crossScore blosum50 x y k k) (range i)
    ≤ (weights blosum50 x y d i i).2.
Proof.
  unfold range. induction i as [|i IH]; [by rewrite weights_0|].
  rewrite seq_S, sumZ_app, weights_step, choose_max. cbn [snd]. simpl. lia.
Qed.

(** X22. The score that [alignProfiles] returns is never below the cost
    of setting every column of either profile against gaps, and for two
    profiles of one width never below the sum of the cross scores of
    their columns set side by side without any gap. *)
Theorem alignProfiles_score_bounds blosum50 (x y : profile) (d : Z) :
  wellFormed x → wellFormed y → covers blosum50 x y →
  ∃ s xp yp, alignProfiles blosum50 x y d = Some (s, xp, yp) ∧
    - d * (Z.of_nat (width x) * Z.of_nat (length y) +
           Z.of_nat (width y) * Z.of_nat (length x)) ≤ s ∧
    (width x = width y →
     ∃ cross : nat → Z,
       (∀ i, (i < width x)%nat →
          scoreColumns blosum50 x y i i defaultGapPenalty = Some (cross i)) ∧
       sumZ cross (range (width x)) ≤ s).
Proof.
  intros Hwx Hwy Hcov.
  destruct (alignProfiles_run blosum50 x y d Hwx Hwy Hcov)
    as (f & t & xp & yp & _ & _ & _ & Hrun).
  eexists _, _, _. split; [exact Hrun|]. split; [apply weights_gaps|].
  intros Hw. exists (λ i, crossScore blosum50 x y i i). split.
  - intros i Hi. unfold crossScore.
    destruct (scoreColumns_is_Some blosum50 x y i i defaultGapPenalty) as [v ->];
      try done. by rewrite <- Hw.
  - rewrite <- Hw. apply weights_diagonal.
Qed.

Lemma alignProfiles_score_bounds_witness :
  ∃ s xp yp,
    alignProfiles Example.blosum50 [["A"; "W"]; ["A"; "-"]]%char [["W"; "W"]]%char 8
      = Some (s, xp, yp) ∧
    - 8 * (Z.of_nat 2 * Z.of_nat 1 + Z.of_nat 2 * Z.of_nat 2) ≤ s ∧
    (2%nat = 2%nat →
     ∃ cross : nat → Z,
       (∀ i, (i < 2)%nat →
          scoreColumns Example.blosum50 [["A"; "W"]; ["A"; "-"]]%char
            [["W"; "W"]]%char i i defaultGapPenalty = Some (cross i)) ∧
       sumZ cross (range 2) ≤ s).
Proof.
  apply (alignProfiles_score_bounds Example.blosum50
    [["A"; "W"]; ["A"; "-"]]%char [["W"; "W"]]%char 8).
  - solve_wellFormed.
  - solve_wellFormed.
  - solve_covers.
Defined.

(** ** The order of the rows after a cycle *)

Lemma removeRows_one rng (randrange : rng → nat → nat * rng) (al : profile) g
    rest live seqs g' :
  removeRows rng randrange 1 al g = Some (rest, live, seqs, g') →
  ∃ row, al !! (randrange g (length al)).1 = Some row ∧
    rest = delete (randrange g (length al)).1 al ∧ seqs = [strip row].
Proof.
  unfold removeRows. simpl. case_guard; [simpl|done].
  destruct (randrange g (length al)) as [i g1]. unfold pop. simpl.
  destruct (al !! i) as [row|]; [simpl|done]. intros [= <- <- <- <-]. eauto.
Qed.

(** X23. A cycle that realigns one sequence puts it last: after the cycle
    the rows, stripped of gaps, are those of the alignment before it
    without the row at the drawn index, in their order, followed by that
    row. *)
Theorem cycle_moves_row_last blosum50 exp rng randrange random
    d m (st st' : state rng) :
  rectangular (alignment st) →
  cycle blosum50 exp rng randrange random 1 d m st = Some st' →
  ∃ row,
    alignment st !! (randrange (gen st) (length (alignment st))).1 = Some row ∧
    map strip (alignment st') =
      map strip (delete (randrange (gen st) (length (alignment st))).1 (alignment st))
      ++ [strip row].
Proof.
  unfold cycle. intros [w Hw] Hrun.
  destruct (scoreAlignment blosum50 (alignment st) d) as [prevScore|];
    [simpl in Hrun|done].
  destruct (removeRows _ _ _ _ _) as [[[[rest live] seqs] g]|] eqn:Hrem;
    [simpl in Hrun|done].
  destruct (nullColumnIndexes rest) as [nulls|] eqn:Hnulls; [simpl in Hrun|done].
  destruct (dropColumns nulls rest) as [rest'|] eqn:Hdrop; [simpl in Hrun|done].
  destruct (reinsert blosum50 d seqs rest') as [candidate|] eqn:Hre;
    [simpl in Hrun|done].
  destruct (scoreAlignment blosum50 candidate d) as [newScore|];
    [simpl in Hrun|done].
  destruct (if newScore <=? prevScore then _ else _) as [[[pp ps] g2]|];
    [simpl in Hrun|done].
  injection Hrun as <-. simpl.
  destruct (removeRows_rows _ _ _ _ _ _ _ _ _ Hrem) as (_ & _ & _ & Hrect).
  destruct (removeRows_one _ _ _ _ _ _ _ _ Hrem) as (row & Hrow & -> & ->).
  exists row. split; [done|].
  destruct (nullColumnIndexes_nulls _ _ Hnulls) as [Hgaps Hdesc].
  pose proof (dropColumns_rows _ _ _ Hgaps Hdesc Hdrop) as Hrows.
  assert (map strip rest' =
    map strip (delete (randrange (gen st) (length (alignment st))).1 (alignment st)))
    as Hsame.
  { clear -Hrows. induction Hrows as [|r r' ? ? [Hs _] _ IH]; [done|].
    simpl. by rewrite Hs, IH. }
  assert (rectangular rest') as Hrect'.
  { exists (w - length nulls)%nat. specialize (Hrect w Hw).
    eapply Forall2_Forall_r; [exact Hrows|].
    eapply Forall_impl; [exact Hrect|]. intros r Hr r' [_ Hl].
    simpl in *. lia. }
  destruct (reinsert_rows blosum50 d _ rest' candidate Hrect' Hre) as [_ Hmap].
  rewrite Hmap, Hsame. simpl. by rewrite strip_idem.
Qed.

Lemma cycle_moves_row_last_witness :
  ∃ st',
    cycle Example.blosum50 Example.exp Example.rng Example.randrange Example.random
      1 8 0.5
      (State (map Example.seq_of ["AA"; "WA"; "AW"]%string) 0 1 None
             ([1]%nat, [0.5]%float)) = Some st' ∧
    map strip (alignment st') = map Example.seq_of ["AA"; "AW"; "WA"]%string.
Proof.
  assert (rectangular (map Example.seq_of ["AA"; "WA"; "AW"]%string)) as Hrect
    by (exists 2%nat; by repeat constructor).
  destruct (cycle Example.blosum50 Example.exp Example.rng Example.randrange
    Example.random 1 8 0.5
    (State (map Example.seq_of ["AA"; "WA"; "AW"]%string) 0 1 None
           ([1]%nat, [0.5]%float))) as [st'|] eqn:Hrun; [|by vm_compute in Hrun].
  exists st'. split; [done|].
  destruct (cycle_moves_row_last Example.blosum50 Example.exp Example.rng
    Example.randrange Example.random 8 0.5
    (State (map Example.seq_of ["AA"; "WA"; "AW"]%string) 0 1 None
           ([1]%nat, [0.5]%float)) st' Hrect Hrun) as (row & Hrow & Hmap).
  rewrite Hmap. vm_compute in Hrow. injection Hrow as <-. reflexivity.
Defined.

(** ** Deleting the columns of gaps keeps the score *)

Lemma column_delete (al : profile) c i :
  column (map (delete c) al) i = column al (if decide (i < c)%nat then i else S i).
Proof.
  unfold column, get. rewrite map_map. apply map_ext. intros row.
  case_decide.
  - by rewrite list_lookup_delete_lt.
  - by rewrite list_lookup_delete_ge by lia.
Qed.

Lemma pairsSum_zero {A} (f : A → A → Z) l :
  (∀ a b, a ∈ l → b ∈ l → f a b = 0) → pairsSum f l = 0.
Proof.
  induction l as [|a l IH]; intros Hf; simpl; [done|].
  rewrite IH by (intros; apply Hf; by right).
  rewrite (sumZ_ext _ (λ _, 0)) by (intros; apply Hf; [by left|by right]).
  by rewrite sumZ_zero.
Qed.

Lemma column_gapAt (al : profile) c :
  gapAt al c → Forall (λ a, is_gap a = true) (column al c).
Proof.
  unfold gapAt, column, get. induction 1 as [|row al (a & Ha & Hgap) _ IH]; simpl;
    constructor; [by rewrite Ha|done].
Qed.

Lemma sumZ_seq_split (h : nat → Z) c w :
  (c < w)%nat →
  sumZ h (seq 0 w) =
  sumZ h (seq 0 c) + h c + sumZ (λ i, h (S i)) (seq c (w - 1 - c)).
Proof.
  intros Hc. replace w with (c + S (w - 1 - c))%nat at 1 by lia.
  rewrite seq_app, sumZ_app. simpl. rewrite sumZ_seq_shift. lia.
Qed.

Lemma gapAt_delete (al al1 : profile) c :
  gapAt al c → mapM (λ row : sequence, '(_, row) ← pop row c; Some row) al = Some al1 →
  al1 = map (delete c) al.
Proof.
  unfold gapAt. intros Hgap Hmap%mapM_Some.
  induction Hmap as [|row row1 al al1 H _ IH]; [done|].
  apply Forall_cons in Hgap as [(a & Ha & _) Hgap].
  unfold pop in H. rewrite Ha in H. simpl in H. injection H as <-.
  simpl. by rewrite IH.
Qed.

(** Deleting one column of gaps from every row. *)
Lemma delete_gap_column blosum50 (al : profile) c g :
  wellFormed al → covers blosum50 al al → gapAt al c →
  wellFormed (map (delete c) al) ∧
  covers blosum50 (map (delete c) al) (map (delete c) al) ∧
  scoreAlignment blosum50 (map (delete c) al) g = scoreAlignment blosum50 al g.
Proof.
  intros Hwf Hcov Hgap.
  assert (map strip (map (delete c) al) = map strip al) as Hstrip.
  { unfold gapAt in Hgap. clear -Hgap.
    induction Hgap as [|row al (a & Ha & Hg) _ IH]; [done|]. simpl.
    by rewrite (strip_delete _ _ _ Ha Hg), IH. }
  assert (c < width al)%nat as Hc.
  { destruct Hwf as [Hne _]. destruct al as [|row0 al]; [done|].
    apply Forall_cons in Hgap as [(a & Ha & _) _].
    apply lookup_lt_Some in Ha. done. }
  assert (width (map (delete c) al) = width al - 1)%nat as Hw.
  { destruct Hwf as [Hne _]. destruct al as [|row0 al]; [done|].
    unfold width. simpl. apply length_delete. apply lookup_lt_is_Some. exact Hc. }
  assert (wellFormed (map (delete c) al)) as Hwf'.
  { destruct Hwf as [Hne Hrect]. split; [by destruct al|].
    rewrite Hw. apply Forall_map. eapply Forall_impl; [exact Hrect|].
    intros row Hrow. simpl in *. rewrite length_delete; [lia|].
    apply lookup_lt_is_Some. lia. }
  assert (covers blosum50 (map (delete c) al) (map (delete c) al)) as Hcov'.
  { assert (within al (map (delete c) al)) as Hin
      by (unfold within; rewrite Hstrip; apply within_refl).
    by apply (covers_within _ al). }
  split; [done|]. split; [done|].
  rewrite !scoreAlignment_pairs by done. f_equal. unfold range.
  rewrite Hw, (sumZ_seq_split _ c (width al)) by done.
  rewrite (pairsSum_zero _ (column al c)).
  - replace (width al - 1)%nat with (c + (width al - 1 - c))%nat at 1 by lia.
    rewrite seq_app, sumZ_app. simpl.
    rewrite (sumZ_ext _ (λ i, pairsSum (pairValue blosum50 (flip g)) (column al i))
      (seq 0 c)).
    + rewrite (sumZ_ext _ (λ i, pairsSum (pairValue blosum50 (flip g))
        (column al (S i))) (seq c _)); [lia|].
      intros i Hi%elem_of_seq. rewrite column_delete. by rewrite decide_False by lia.
    + intros i Hi%elem_of_seq. rewrite column_delete. by rewrite decide_True by lia.
  - pose proof (column_gapAt _ _ Hgap) as Hall. rewrite Forall_forall in Hall.
    intros a b Ha%Hall Hb%Hall. unfold pairValue. by rewrite Ha, Hb.
Qed.

Lemma dropColumns_score blosum50 g nulls : ∀ (al al' : profile),
  wellFormed al → covers blosum50 al al →
  Forall (gapAt al) nulls → descending nulls →
  dropColumns nulls al = Some al' →
  scoreAlignment blosum50 al' g = scoreAlignment blosum50 al g.
Proof.
  unfold dropColumns.
  induction nulls as [|i nulls IH]; intros al al' Hwf Hcov Hgaps Hdesc; simpl.
  - by intros [= <-].
  - apply Forall_cons in Hgaps as [Hi Hgaps]. destruct Hdesc as [Hlt Hdesc].
    destruct (mapM _ al) as [al1|] eqn:Hmap; [simpl|done].
    apply (gapAt_delete _ _ _ Hi) in Hmap as ->.
    destruct (delete_gap_column blosum50 al i g Hwf Hcov Hi) as (Hwf1 & Hcov1 & <-).
    apply IH; [done|done| |done].
    rewrite Forall_forall in Hgaps, Hlt. apply Forall_forall. intros j Hj.
    specialize (Hgaps j Hj). specialize (Hlt j Hj). unfold gapAt in *.
    apply Forall_map. eapply Forall_impl; [exact Hgaps|].
    intros row (a & Ha & Hg). exists a. simpl. by rewrite list_lookup_delete_lt.
Qed.

(** X24. The step of a cycle that removes the columns of gaps, on a
    non-empty rectangular alignment whose symbols the substitution matrix
    knows: the columns are found and deleted without an error, the
    alignment that is left has a symbol in every column, and it has the
    score of the alignment before the step. *)
Theorem null_columns_removed blosum50 (al : profile) (g : Z) :
  wellFormed al → covers blosum50 al al →
  ∃ nulls al',
    nullColumnIndexes al = Some nulls ∧ dropColumns nulls al = Some al' ∧
    noGapColumn al' ∧
    scoreAlignment blosum50 al' g = scoreAlignment blosum50 al g.
Proof.
  intros Hwf Hcov.
  destruct (nullColumnIndexes_is_Some al Hwf) as [nulls Hnulls].
  destruct (nullColumnIndexes_nulls _ _ Hnulls) as [Hgaps Hdesc].
  destruct (dropColumns_is_Some nulls al Hgaps Hdesc) as [al' Hdrop].
  exists nulls, al'. split; [done|]. split; [done|]. split.
  - eapply (dropColumns_noGapColumn nulls al al' (width al));
      [done| | |intros; lia|done].
    + rewrite Forall_forall in Hgaps. apply Forall_forall. intros j Hj.
      specialize (Hgaps j Hj). destruct Hwf as [Hne _].
      destruct al as [|row0 al]; [done|].
      apply Forall_cons in Hgaps as [(a & Ha & _) _].
      apply lookup_lt_Some in Ha. done.
    + intros c _ Hc Hnot. by eapply nullColumnIndexes_complete.
  - by eapply dropColumns_score.
Qed.

Lemma null_columns_removed_witness :
  ∃ nulls al',
    nullColumnIndexes (map Example.seq_of ["A--W"; "W--A"]%string) = Some nulls ∧
    dropColumns nulls (map Example.seq_of ["A--W"; "W--A"]%string) = Some al' ∧
    noGapColumn al' ∧
    scoreAlignment Example.blosum50 al' 8 =
      scoreAlignment Example.blosum50 (map Example.seq_of ["A--W"; "W--A"]%string) 8.
Proof.
  apply null_columns_removed; [solve_wellFormed|solve_covers].
Defined.

(** ** The gap penalty inside the cross score *)

Lemma dp_ext (sc sc' : nat → nat → Z) d nx ny i j :
  (∀ i' j', (i' < i)%nat → (j' < j)%nat → sc i' j' = sc' i' j') →
  dp sc d nx ny i j = dp sc' d nx ny i j.
Proof.
  revert j. induction i as [|i IHi]; intros j Hsc; [done|].
  induction j as [|j IHj]; [done|].
  rewrite !dp_S_S. rewrite (IHi j), (IHi (S j)), IHj, (Hsc i j);
    [done|lia|lia|intros; apply Hsc; lia..].
Qed.

Lemma flip_abs d : flip d = Z.abs d.
Proof. unfold flip. destruct (Z.ltb_spec d 0); lia. Qed.

(** On columns inside the profiles [scoreColumns] is the cross score of
    the specification, for the penalty it is given. *)
Lemma scoreColumns_columnCrossScore blosum50 (x y : profile) i j g :
  wellFormed x → wellFormed y → covers blosum50 x y →
  (i < width x)%nat → (j < width y)%nat →
  scoreColumns blosum50 x y i j g =
    Some (Spec.columnCrossScore blosum50 x i y j g).
Proof.
  intros [_ Hx] [_ Hy] Hcov Hi Hj.
  destruct (col_is_Some _ _ _ Hx Hi) as [cx Hcx].
  destruct (col_is_Some _ _ _ Hy Hj) as [cy Hcy].
  unfold Spec.columnCrossScore.
  rewrite (col_column _ _ _ Hcx), (col_column _ _ _ Hcy), <- flip_abs.
  eapply scoreColumns_crossSum; eauto using covers_cols.
Qed.

(** Whatever [d] is, the weights loop computes the matrix of the
    specification with the cross score taken at the penalty 8. *)
Lemma weights_default_penalty blosum50 (x y : profile) d i j :
  wellFormed x → wellFormed y → covers blosum50 x y →
  (i ≤ width x)%nat → (j ≤ width y)%nat →
  weights blosum50 x y d i j =
    dp (λ i j, Spec.columnCrossScore blosum50 x i y j defaultGapPenalty) d
       (Z.of_nat (length x)) (Z.of_nat (length y)) i j.
Proof.
  intros Hwx Hwy Hcov Hi Hj. unfold weights. apply dp_ext.
  intros i' j' Hi' Hj'. unfold crossScore.
  by rewrite scoreColumns_columnCrossScore by (done || lia).
Qed.

(** C1 fails for a gap penalty other than 8: [alignProfiles] calls
    [scoreColumns] without [d], so the cross score inside [diag] is taken
    at the default penalty 8 while [top] and [left] use [d]. On
    [x = ["A-", "AW"]], [y = ["W"]] and [d = 1] the cross score of column 1
    of [x] and column 0 of [y] is [15 - 1 = 14] with the penalty of the
    call, which [scoreColumns] returns when it is given [d], and the
    matrix of the specification has [f[2][1] = -1 + 14 = 13]; the code
    adds [15 - 8 = 7], stores [f[2][1] = 6] and returns the score 6. *)
Theorem alignProfiles_cross_score_ignores_penalty :
  let x := [["A"; "-"]; ["A"; "W"]]%char in
  let y := [["W"]]%char in
  fill Example.blosum50 x y 1 2 1
    = Some ([[0; -2]; [-1; -3]; [-2; 6]], [[L; L]; [T; T]; [T; D]]) ∧
  alignProfiles Example.blosum50 x y 1 = Some (6, x, [["-"; "W"]]%char) ∧
  scoreColumns Example.blosum50 x y 1 0 defaultGapPenalty = Some 7 ∧
  scoreColumns Example.blosum50 x y 1 0 1 = Some 14 ∧
  Spec.columnCrossScore Example.blosum50 x 1 y 0 1 = 14 ∧
  Spec.f Example.blosum50 x y 1 1 0 = -1 ∧
  Spec.f Example.blosum50 x y 1 1 1 = -3 ∧
  Spec.f Example.blosum50 x y 1 2 0 = -2 ∧
  Spec.f Example.blosum50 x y 1 2 1 = 13.
Proof. repeat split; by vm_compute. Qed.
